(** * ProFIT: process-model discovery — a shallow embedding of
      [Log.transit_matrix] (src/Log.py) and of the [Graph] class
      (src/profit/graph.py), with the properties of its specification.

    Conventions of the embedding.
    - A Python activity label is a [value]: a string, or a tuple of values
      (the meta-states produced by aggregation are tuples of activities).
    - A Python [dict] is an association list in insertion order ([dict K V]);
      [get] is [d[k]] (a missing key is the [KeyError] case, [None]),
      [set] is [d[k] = v] (overwrite in place, or append a new key).
    - Code that can raise returns [option]; [None] is the raised exception.
    - Python floats are modelled by exact rationals ([Q]); integer counters
      are [nat].  The rule that decides on a comparison of floats at a tie,
      the one of the self-loops, is settled on binary64 doubles instead
      (module [Doubles], at the end). *)

From Stdlib Require Import String Bool Arith Lia List.
From Stdlib Require Import ZArith QArith Qabs Lqa.
From Stdlib Require Import Permutation Sorted.
From Stdlib Require PrimFloat FloatAxioms SpecFloat.
Import ListNotations.

Local Close Scope Q_scope.
Local Open Scope nat_scope.
Local Open Scope list_scope.

Set Implicit Arguments.

(* ================================================================== *)
(** ** Python values and decidable equality *)

#[local] Unset Elimination Schemes.
Inductive value : Type :=
| Str (s : string)
| Tuple (items : list value).
#[local] Set Elimination Schemes.

Fixpoint value_eqb (x y : value) {struct x} : bool :=
  match x, y with
  | Str s, Str t => String.eqb s t
  | Tuple l, Tuple m =>
      (fix all2 (l m : list value) {struct l} : bool :=
         match l, m with
         | [], [] => true
         | a :: l', b :: m' => value_eqb a b && all2 l' m'
         | _, _ => false
         end) l m
  | _, _ => false
  end.

Class Eqb (A : Type) : Type := {
  eqb : A -> A -> bool;
  eqb_eq : forall x y, eqb x y = true <-> x = y
}.

Section ValueInduction.
Variable P : value -> Prop.
Hypothesis HStr : forall s, P (Str s).
Hypothesis HTuple : forall l, Forall P l -> P (Tuple l).

Fixpoint value_ind' (v : value) : P v :=
  match v with
  | Str s => HStr s
  | Tuple l =>
      HTuple ((fix go (l : list value) : Forall P l :=
                 match l with
                 | [] => Forall_nil P
                 | a :: l' => Forall_cons a (value_ind' a) (go l')
                 end) l)
  end.
End ValueInduction.

Lemma value_eqb_eq : forall x y, value_eqb x y = true <-> x = y.
Proof.
  induction x as [s | l IH] using value_ind'; intros [t | m]; simpl;
    try (split; [discriminate | intro H; inversion H]).
  - rewrite String.eqb_eq. split; [intros -> | intro H; inversion H]; reflexivity.
  - revert m. induction IH as [| a l Ha _ IHl]; intros [| b m];
      try (split; [discriminate | intro H; inversion H]);
      try (split; reflexivity).
    rewrite andb_true_iff, Ha, IHl.
    split; [intros [-> H]; inversion H; reflexivity | intro H; inversion H; auto].
Qed.

#[export] Instance Eqb_value : Eqb value :=
  {| eqb := value_eqb; eqb_eq := value_eqb_eq |}.

#[export] Instance Eqb_string : Eqb string :=
  {| eqb := String.eqb; eqb_eq := String.eqb_eq |}.

Section EqbDerived.
Context {A B : Type} `{Eqb A} `{Eqb B}.

Lemma eqb_refl (x : A) : eqb x x = true.
Proof. apply eqb_eq; reflexivity. Qed.

Lemma eqb_neq (x y : A) : eqb x y = false <-> x <> y.
Proof.
  split.
  - intros E ->. rewrite eqb_refl in E. discriminate.
  - intro N. destruct (eqb x y) eqn:E; [apply eqb_eq in E; contradiction | reflexivity].
Qed.

Lemma eqb_sym (x y : A) : eqb x y = eqb y x.
Proof.
  destruct (eqb y x) eqn:E.
  - apply eqb_eq in E; subst; apply eqb_refl.
  - apply eqb_neq in E. apply eqb_neq. congruence.
Qed.

Definition pair_eqb (p q : A * B) : bool :=
  eqb (fst p) (fst q) && eqb (snd p) (snd q).

Lemma pair_eqb_eq p q : pair_eqb p q = true <-> p = q.
Proof.
  destruct p, q; unfold pair_eqb; simpl.
  rewrite andb_true_iff, !eqb_eq. split; [intros [-> ->] | intro E; inversion E]; auto.
Qed.

Fixpoint list_eqb (l m : list A) : bool :=
  match l, m with
  | [], [] => true
  | a :: l', b :: m' => eqb a b && list_eqb l' m'
  | _, _ => false
  end.

Lemma list_eqb_eq l m : list_eqb l m = true <-> l = m.
Proof.
  revert m; induction l as [| a l IH]; intros [| b m]; simpl;
    try (split; [discriminate | intro E; inversion E]); try tauto.
  rewrite andb_true_iff, eqb_eq, IH.
  split; [intros [-> ->] | intro E; inversion E]; auto.
Qed.
End EqbDerived.

#[export] Instance Eqb_pair {A B} `{Eqb A} `{Eqb B} : Eqb (A * B) :=
  {| eqb := pair_eqb; eqb_eq := pair_eqb_eq |}.

#[export] Instance Eqb_list {A} `{Eqb A} : Eqb (list A) :=
  {| eqb := list_eqb; eqb_eq := list_eqb_eq |}.

(** [x in xs] for a Python list, tuple or set. *)
Definition elem {A} `{Eqb A} (x : A) (xs : list A) : bool := existsb (eqb x) xs.

Lemma elem_In {A} `{Eqb A} (x : A) xs : elem x xs = true <-> In x xs.
Proof.
  unfold elem. rewrite existsb_exists. split.
  - intros [y [Hy E]]. apply eqb_eq in E. subst; assumption.
  - intro Hx. exists x. split; [assumption | apply eqb_refl].
Qed.

Lemma elem_not_In {A} `{Eqb A} (x : A) xs : elem x xs = false <-> ~ In x xs.
Proof.
  rewrite <- elem_In. destruct (elem x xs); split; congruence.
Qed.

(* ================================================================== *)
(** ** The option (exception) monad *)

Definition bind {A B} (m : option A) (k : A -> option B) : option B :=
  match m with
  | Some a => k a
  | None => None
  end.

Notation "x <- m ;; k" := (bind m (fun x => k))
  (at level 61, m at next level, right associativity).
Notation "' p <- m ;; k" := (bind m (fun x => let p := x in k))
  (at level 61, p pattern, m at next level, right associativity).

(* ================================================================== *)
(** ** Python dictionaries as insertion-ordered association lists *)

Module Dict.
Section Ops.
Context {K V : Type} `{Eqb K}.

Definition dict := list (K * V).

Definition keys (d : dict) : list K := map fst d.
Definition values (d : dict) : list V := map snd d.

(** [d[k]]; [None] is [KeyError]. *)
Fixpoint get (k : K) (d : dict) : option V :=
  match d with
  | [] => None
  | (k', v) :: d' => if eqb k k' then Some v else get k d'
  end.

(** [k in d] *)
Definition mem (k : K) (d : dict) : bool :=
  match get k d with Some _ => true | None => false end.

(** [d[k] = v] *)
Fixpoint set (k : K) (v : V) (d : dict) : dict :=
  match d with
  | [] => [(k, v)]
  | (k', v') :: d' => if eqb k k' then (k', v) :: d' else (k', v') :: set k v d'
  end.

Lemma get_set_same k v d : get k (set k v d) = Some v.
Proof.
  induction d as [| [k' v'] d IH]; simpl.
  - rewrite eqb_refl; reflexivity.
  - destruct (eqb k k') eqn:E; simpl; rewrite E; auto.
Qed.

Lemma get_set_other k k' v d : k <> k' -> get k' (set k v d) = get k' d.
Proof.
  intro N. induction d as [| [k0 v0] d IH]; simpl.
  - assert (E : eqb k' k = false) by (apply eqb_neq; congruence).
    rewrite E; reflexivity.
  - destruct (eqb k k0) eqn:E; simpl.
    + apply eqb_eq in E; subst k0.
      assert (E' : eqb k' k = false) by (apply eqb_neq; congruence).
      rewrite E'; reflexivity.
    + rewrite IH; reflexivity.
Qed.

Lemma get_In k v d : get k d = Some v -> In (k, v) d.
Proof.
  induction d as [| [k' v'] d IH]; simpl; [discriminate |].
  destruct (eqb k k') eqn:E.
  - apply eqb_eq in E; subst. intro X; inversion X; auto.
  - auto.
Qed.

Lemma get_Some_keys k d : (exists v, get k d = Some v) <-> In k (keys d).
Proof.
  induction d as [| [k' v'] d IH]; simpl.
  - split; [intros [v X]; discriminate | tauto].
  - destruct (eqb k k') eqn:E.
    + apply eqb_eq in E; subst. split; eauto.
    + apply eqb_neq in E. rewrite IH. split; [auto | intros [X | X]; congruence].
Qed.

Lemma get_None_keys k d : get k d = None <-> ~ In k (keys d).
Proof.
  rewrite <- get_Some_keys. destruct (get k d) as [w |]; split; try congruence.
  - intro X; exfalso; apply X; eauto.
  - intros _ [w X]; discriminate.
Qed.

Lemma mem_keys k d : mem k d = true <-> In k (keys d).
Proof.
  unfold mem. rewrite <- get_Some_keys.
  destruct (get k d) as [w |]; split; eauto; try discriminate. intros [w X]; discriminate.
Qed.

Lemma In_get k v d : NoDup (keys d) -> In (k, v) d -> get k d = Some v.
Proof.
  induction d as [| [k' v'] d IH]; simpl; [tauto |].
  intros ND [X | X].
  - inversion X; subst. rewrite eqb_refl; reflexivity.
  - inversion ND; subst. destruct (eqb k k') eqn:E.
    + apply eqb_eq in E; subst. exfalso. apply H2.
      change (In (fst (k', v)) (map fst d)). apply in_map; assumption.
    + auto.
Qed.

Lemma keys_set k v d :
  keys (set k v d) = if mem k d then keys d else keys d ++ [k].
Proof.
  unfold mem. induction d as [| [k' v'] d IH]; simpl; [reflexivity |].
  destruct (eqb k k') eqn:E; simpl; [reflexivity |].
  rewrite IH. destruct (get k d); reflexivity.
Qed.

Lemma NoDup_keys_set k v d : NoDup (keys d) -> NoDup (keys (set k v d)).
Proof.
  intro ND. rewrite keys_set. destruct (mem k d) eqn:E; [assumption |].
  assert (~ In k (keys d)).
  { rewrite <- mem_keys. congruence. }
  apply NoDup_rev in ND. rewrite <- (rev_involutive (keys d ++ [k])).
  apply NoDup_rev. rewrite rev_app_distr; simpl. constructor; [| assumption].
  rewrite <- in_rev; assumption.
Qed.
End Ops.
#[global] Arguments dict : clear implicits.
End Dict.
Import Dict.

(* ================================================================== *)
(** ** The event log and its transition table (src/Log.py) *)

Definition case_id := string.
Abbreviation trace := (list value) (only parsing).

(** The attributes of a [Log] object: [flat_log] maps a case to its trace,
    [cases] and [activities] are sets. *)
Record Log : Type := {
  flat_log : dict case_id trace;
  cases : list case_id;
  activities : list value
}.

(** What [Log.__init__] establishes: [cases] is the key set of [flat_log]. *)
Definition wf_log (log : Log) : Prop :=
  NoDup (keys (flat_log log)) /\ NoDup (cases log) /\
  (forall c, In c (cases log) <-> In c (keys (flat_log log))).

(** The scenario of the specification: case A = (x, y, x, y), case B = (x, y). *)
Definition vx : value := Str "x".
Definition vy : value := Str "y".
Definition log_xy : Log :=
  {| flat_log := [("A"%string, [vx; vy; vx; vy]); ("B"%string, [vx; vy])];
     cases := ["A"%string; "B"%string];
     activities := [vx; vy] |}.

Lemma wf_log_xy : wf_log log_xy.
Proof.
  unfold wf_log, log_xy; simpl.
  assert (ND : NoDup ["A"%string; "B"%string]).
  { repeat constructor; simpl; intuition discriminate. }
  repeat split; auto.
Defined.

Lemma wf_log_length log : wf_log log -> length (cases log) = length (flat_log log).
Proof.
  intros [ND1 [ND2 Hin]].
  rewrite (Permutation_length (NoDup_Permutation ND2 ND1 Hin)).
  unfold keys. apply length_map.
Qed.

Module LogModel.

(** [T[a_i][a_j] = [absolute count, case count]] and the [to_add] flags. *)
Definition table := dict value (dict value (nat * nat)).
Definition flags := dict value (dict value bool).

Section Nested.
Context {V : Type}.

(** [d[a][b]] *)
Definition get2 (a b : value) (d : dict value (dict value V)) : option V :=
  row <- get a d ;; get b row.

(** [d[a][b] = v]; the row [d[a]] must exist. *)
Definition set2 (a b : value) (v : V) (d : dict value (dict value V))
  : option (dict value (dict value V)) :=
  row <- get a d ;; Some (set a (set b v row) d).

End Nested.

(** The body of the inner loop of [transit_matrix] (lines 18-29). *)
Definition count_transition (a_i a_j : value) (st : table * flags)
  : option (table * flags) :=
  let '(T, to_add) := st in
  let fresh := negb (mem a_i T) in
  let T := if fresh then set a_i [] T else T in
  let to_add := if fresh then set a_i [] to_add else to_add in
  row <- get a_i T ;;
  st1 <- (if mem a_j row then Some (T, to_add)
          else T' <- set2 a_i a_j (0, 0) T ;;
               to_add' <- set2 a_i a_j true to_add ;;
               Some (T', to_add')) ;;
  let '(T, to_add) := st1 in
  cnt <- get2 a_i a_j T ;;
  T <- set2 a_i a_j (S (fst cnt), snd cnt) T ;;
  flag <- get2 a_i a_j to_add ;;
  if (flag : bool) then
    cnt <- get2 a_i a_j T ;;
    T <- set2 a_i a_j (fst cnt, S (snd cnt)) T ;;
    to_add <- set2 a_i a_j false to_add ;;
    Some (T, to_add)
  else Some (T, to_add).

(** [for i in range(len(trace) - 1)]: the adjacent pairs, left to right. *)
Fixpoint scan_case (tr : trace) (st : table * flags) : option (table * flags) :=
  match tr with
  | a_i :: ((a_j :: _) as rest) =>
      st' <- count_transition a_i a_j st ;; scan_case rest st'
  | _ => Some st
  end.

(** Lines 30-32: every flag back to [True]. *)
Definition reset_flags (to_add : flags) : flags :=
  map (fun r => (fst r, map (fun e => (fst e, true)) (snd r))) to_add.

Fixpoint scan_log (traces : list trace) (st : table * flags)
  : option (table * flags) :=
  match traces with
  | [] => Some st
  | tr :: rest =>
      st' <- scan_case tr st ;;
      scan_log rest (fst st', reset_flags (snd st'))
  end.

(** Lines 14-15: [T = dict()] and [to_add = dict()]. *)
Definition empty_state : table * flags := ([], []).

(** [Log.transit_matrix]; the final conversion of the two-element lists to
    tuples does not change the model's pairs. *)
Definition transit_matrix (log : Log) : option table :=
  st <- scan_log (values (flat_log log)) empty_state ;;
  Some (fst st).

(** *** Pointwise view of the nested dictionaries *)

Section NestedFacts.
Context {V : Type}.
Implicit Types d : dict value (dict value V).

Lemma get2_set_row_same a b row d : get2 a b (set a row d) = get b row.
Proof. unfold get2. rewrite get_set_same. reflexivity. Qed.

Lemma get2_set_row_other a x y row d :
  x <> a -> get2 x y (set a row d) = get2 x y d.
Proof. intro N. unfold get2. rewrite get_set_other by congruence. reflexivity. Qed.

Lemma get_set_None x a row d :
  get x (set a row d) = None <-> x <> a /\ get x d = None.
Proof.
  destruct (eqb x a) eqn:E.
  - apply eqb_eq in E; subst. rewrite get_set_same. split; [discriminate | tauto].
  - apply eqb_neq in E. rewrite get_set_other by congruence. tauto.
Qed.

Lemma set2_spec a b (v : V) d row :
  get a d = Some row ->
  exists d',
    set2 a b v d = Some d' /\
    get a d' = Some (set b v row) /\
    get2 a b d' = Some v /\
    (forall x y, (x, y) <> (a, b) -> get2 x y d' = get2 x y d) /\
    (forall x, get x d' = None <-> get x d = None).
Proof.
  intro Hrow. exists (set a (set b v row) d). unfold set2. rewrite Hrow. simpl.
  split; [reflexivity |]. split; [apply get_set_same |].
  split; [rewrite get2_set_row_same; apply get_set_same |]. split.
  - intros x y N. destruct (eqb x a) eqn:E.
    + apply eqb_eq in E; subst x. rewrite get2_set_row_same.
      unfold get2. rewrite Hrow. simpl. apply get_set_other. congruence.
    + apply eqb_neq in E. apply get2_set_row_other; assumption.
  - intro x. rewrite get_set_None. split; [tauto |].
    intro X. split; [congruence | assumption].
Qed.

Lemma ensure_spec a d (fresh : bool) :
  fresh = negb (mem a d) ->
  let d1 := if fresh then set a [] d else d in
  (exists row, get a d1 = Some row /\ forall y, get y row = get2 a y d) /\
  (forall x y, get2 x y d1 = get2 x y d) /\
  (forall x, x <> a -> get x d1 = get x d).
Proof.
  intros -> d1. subst d1. unfold mem. destruct (get a d) as [row |] eqn:E; simpl.
  - split; [| split; auto]. exists row. split; [assumption |].
    intro y. unfold get2. rewrite E. reflexivity.
  - split; [| split].
    + exists []. split; [apply get_set_same |].
      intro y. unfold get2. rewrite E. reflexivity.
    + intros x y. destruct (eqb x a) eqn:Ex.
      * apply eqb_eq in Ex; subst x. rewrite get2_set_row_same.
        unfold get2. rewrite E. reflexivity.
      * apply eqb_neq in Ex. apply get2_set_row_other; assumption.
    + intros x N. apply get_set_other. congruence.
Qed.
End NestedFacts.

(** [T] and [to_add] have the same rows and the same entries. *)
Definition sync (T : table) (F : flags) : Prop :=
  (forall a, get a T = None <-> get a F = None) /\
  (forall a b, get2 a b T = None <-> get2 a b F = None).

(** The entry of [(a_i, a_j)] after one adjacency, from its old value and flag. *)
Definition bump (old : option (nat * nat)) (flag : option bool) : nat * nat :=
  match old with
  | None => (1, 1)
  | Some (n, c) =>
      match flag with
      | Some false => (S n, c)
      | _ => (S n, S c)
      end
  end.

Lemma count_transition_spec a b T F :
  sync T F ->
  exists T' F',
    count_transition a b (T, F) = Some (T', F') /\
    sync T' F' /\
    get2 a b T' = Some (bump (get2 a b T) (get2 a b F)) /\
    get2 a b F' = Some false /\
    (forall x y, (x, y) <> (a, b) ->
                 get2 x y T' = get2 x y T /\ get2 x y F' = get2 x y F).
Proof.
  intros [Srow Sent]. unfold count_transition.
  assert (Hmem : negb (mem a F) = negb (mem a T)).
  { unfold mem. specialize (Srow a).
    destruct (get a T), (get a F); try reflexivity;
      exfalso; destruct Srow as [S1 S2]; try (specialize (S1 eq_refl)); try (specialize (S2 eq_refl)); discriminate. }
  destruct (ensure_spec a T (fresh := negb (mem a T)) eq_refl)
    as [[rowT [HrT HrT']] [HT1 HT1']].
  destruct (ensure_spec a F (fresh := negb (mem a T)) (eq_sym Hmem))
    as [[rowF [HrF HrF']] [HF1 HF1']].
  set (T1 := if negb (mem a T) then set a [] T else T) in *.
  set (F1 := if negb (mem a T) then set a [] F else F) in *.
  assert (Srow1 : forall x, get x T1 = None <-> get x F1 = None).
  { intro x. destruct (eqb x a) eqn:E.
    - apply eqb_eq in E; subst x. rewrite HrT, HrF. split; discriminate.
    - apply eqb_neq in E. rewrite HT1', HF1' by assumption. apply Srow. }
  rewrite HrT. simpl.
  (* the entry is created when missing *)
  assert (Hent : exists T2 F2 rowT2 rowF2,
    (if mem b rowT then Some (T1, F1)
     else T' <- set2 a b (0, 0) T1 ;; to_add' <- set2 a b true F1 ;; Some (T', to_add'))
    = Some (T2, F2) /\
    get a T2 = Some rowT2 /\ get a F2 = Some rowF2 /\
    get2 a b T2 = Some (match get2 a b T with Some c => c | None => (0, 0) end) /\
    get2 a b F2 = Some (match get2 a b F with Some f => f | None => true end) /\
    (forall x y, (x, y) <> (a, b) ->
                 get2 x y T2 = get2 x y T /\ get2 x y F2 = get2 x y F) /\
    (forall x, get x T2 = None <-> get x F2 = None)).
  { unfold mem. destruct (get b rowT) as [c |] eqn:Eb.
    - exists T1, F1, rowT, rowF. split; [reflexivity |].
      split; [assumption |]. split; [assumption |].
      rewrite HT1, HF1. rewrite <- HrT', Eb.
      assert (X : get2 a b F <> None).
      { rewrite <- Sent. rewrite <- HrT', Eb. discriminate. }
      destruct (get2 a b F) as [f |] eqn:Ef; [| congruence].
      split; [reflexivity |]. split; [reflexivity |].
      split; [intros; rewrite HT1, HF1; auto | assumption].
    - destruct (set2_spec a b (0, 0) T1 HrT) as [T2 [E2 [G2 [S2 [O2 N2]]]]].
      destruct (set2_spec a b true F1 HrF) as [F2 [E2' [G2' [S2' [O2' N2']]]]].
      exists T2, F2, (set b (0, 0) rowT), (set b true rowF).
      rewrite E2. simpl. rewrite E2'. simpl.
      split; [reflexivity |]. split; [assumption |]. split; [assumption |].
      assert (X : get2 a b T = None) by (rewrite <- HrT'; assumption).
      rewrite X. apply Sent in X. rewrite X.
      split; [assumption |]. split; [assumption |]. split.
      + intros x y N. rewrite O2, O2', HT1, HF1 by assumption. auto.
      + intro x. rewrite N2, N2'. apply Srow1. }
  destruct Hent as [T2 [F2 [rowT2 [rowF2 [E2 [GT2 [GF2 [VT2 [VF2 [O2 N2]]]]]]]]]].
  rewrite E2. simpl. rewrite VT2. simpl.
  set (c0 := match get2 a b T with Some c => c | None => (0, 0) end) in *.
  set (f0 := match get2 a b F with Some f => f | None => true end) in *.
  destruct (set2_spec a b (S (fst c0), snd c0) T2 GT2) as [T3 [E3 [G3 [S3 [O3 N3]]]]].
  rewrite E3. simpl. rewrite VF2. simpl.
  assert (Hsync_ent : forall T' F',
    get2 a b T' <> None -> get2 a b F' <> None ->
    (forall x y, (x, y) <> (a, b) ->
                 get2 x y T' = get2 x y T /\ get2 x y F' = get2 x y F) ->
    forall x y, get2 x y T' = None <-> get2 x y F' = None).
  { intros T' F' HT' HF' HO x y.
    destruct (eqb (x, y) (a, b)) eqn:E.
    - apply eqb_eq in E. inversion E; subst. tauto.
    - apply eqb_neq in E. destruct (HO x y E) as [-> ->]. apply Sent. }
  destruct f0 eqn:Ef0.
  - rewrite S3. simpl.
    destruct (set2_spec a b (S (fst c0), S (snd c0)) T3 G3) as [T4 [E4 [G4 [S4 [O4 N4]]]]].
    simpl in E4 |- *. rewrite E4. simpl.
    destruct (set2_spec a b false F2 GF2) as [F4 [E4' [G4' [S4' [O4' N4']]]]].
    rewrite E4'. simpl.
    exists T4, F4. split; [reflexivity |].
    assert (HO : forall x y, (x, y) <> (a, b) ->
                 get2 x y T4 = get2 x y T /\ get2 x y F4 = get2 x y F).
    { intros x y N. rewrite O4, O3, O4' by assumption. apply O2; assumption. }
    split; [| split; [| split; [assumption | assumption]]].
    + split.
      * intro x. rewrite N4, N3, N4'. apply N2.
      * apply Hsync_ent; [congruence | congruence | assumption].
    + rewrite S4. f_equal. subst c0 f0. unfold bump.
      destruct (get2 a b T) as [[n c] |]; [| reflexivity].
      destruct (get2 a b F) as [[|] |]; try reflexivity; discriminate.
  - exists T3, F2. split; [reflexivity |].
    assert (HO : forall x y, (x, y) <> (a, b) ->
                 get2 x y T3 = get2 x y T /\ get2 x y F2 = get2 x y F).
    { intros x y N. rewrite O3 by assumption. apply O2; assumption. }
    split; [| split; [| split; [assumption | assumption]]].
    + split.
      * intro x. rewrite N3. apply N2.
      * apply Hsync_ent; [congruence | congruence | assumption].
    + rewrite S3. f_equal. subst c0 f0. unfold bump.
      destruct (get2 a b T) as [[n c] |] eqn:ET.
      * destruct (get2 a b F) as [[|] |]; try reflexivity; discriminate.
      * assert (X : get2 a b F = None) by (apply Sent; assumption).
        rewrite X in Ef0. discriminate.
Qed.

(** *** What the scan counts *)

(** Number of positions [i] with [tr[i] = a] and [tr[i+1] = b]. *)
Fixpoint count_adj (a b : value) (tr : trace) : nat :=
  match tr with
  | x :: ((y :: _) as rest) =>
      (if eqb (x, y) (a, b) then 1 else 0) + count_adj a b rest
  | _ => 0
  end.

(** Occurrences of the pair in the whole log, and the cases that have it. *)
Definition abs_count (a b : value) (traces : list trace) : nat :=
  list_sum (map (count_adj a b) traces).

Definition case_count (a b : value) (traces : list trace) : nat :=
  length (filter (fun tr => negb (count_adj a b tr =? 0)) traces).

Definition max_trace_len (traces : list trace) : nat :=
  fold_right Nat.max 0 (map (@length value) traces).

(** The entry and the flag of a pair after [n] adjacencies within one case. *)
Definition after_case (old : option (nat * nat)) (fl : option bool) (n : nat)
  : option (nat * nat) :=
  match n with
  | 0 => old
  | S _ => Some (match old with
                 | None => (n, 1)
                 | Some (m, c) =>
                     (m + n, match fl with Some false => c | _ => S c end)
                 end)
  end.

Definition flag_after (fl : option bool) (n : nat) : option bool :=
  match n with 0 => fl | S _ => Some false end.

Lemma scan_case_spec tr : forall T F,
  sync T F ->
  exists T' F',
    scan_case tr (T, F) = Some (T', F') /\
    sync T' F' /\
    forall x y,
      get2 x y T' = after_case (get2 x y T) (get2 x y F) (count_adj x y tr) /\
      get2 x y F' = flag_after (get2 x y F) (count_adj x y tr).
Proof.
  induction tr as [| a tr IH]; intros T F HS.
  - exists T, F. simpl. auto.
  - destruct tr as [| b tr'].
    + exists T, F. simpl. auto.
    + destruct (count_transition_spec a b HS) as [T1 [F1 [E1 [HS1 [VT [VF HO]]]]]].
      destruct (IH T1 F1 HS1) as [T2 [F2 [E2 [HS2 HV]]]].
      exists T2, F2. split.
      { change (scan_case (a :: b :: tr') (T, F))
          with (st' <- count_transition a b (T, F) ;; scan_case (b :: tr') st').
        rewrite E1. exact E2. }
      split; [assumption |].
      intros x y. destruct (HV x y) as [-> ->].
      change (count_adj x y (a :: b :: tr'))
        with ((if eqb (a, b) (x, y) then 1 else 0) + count_adj x y (b :: tr')).
      destruct (eqb (a, b) (x, y)) eqn:E.
      * apply eqb_eq in E. inversion E; subst x y. rewrite VT, VF.
        unfold bump, after_case, flag_after.
        destruct (get2 a b T) as [[m c] |] eqn:ET;
          destruct (get2 a b F) as [[|] |] eqn:EF;
          destruct (count_adj a b (b :: tr')) as [| k]; simpl;
          repeat split; try (do 2 f_equal; lia); try reflexivity.
      * apply eqb_neq in E. assert (N : (x, y) <> (a, b)) by congruence.
        destruct (HO x y N) as [-> ->]. simpl. auto.
Qed.

Lemma reset_flags_get x (F : flags) :
  get x (reset_flags F) =
  option_map (map (fun e : value * bool => (fst e, true))) (get x F).
Proof.
  induction F as [| [k row] F IH]; simpl; [reflexivity |].
  destruct (value_eqb x k); [reflexivity | apply IH].
Qed.

Lemma reset_row_get y (row : dict value bool) :
  get y (map (fun e : value * bool => (fst e, true)) row) =
  option_map (fun _ => true) (get y row).
Proof.
  induction row as [| [k f] row IH]; simpl; [reflexivity |].
  destruct (value_eqb y k); [reflexivity | apply IH].
Qed.

Lemma reset_flags_get2 x y (F : flags) :
  get2 x y (reset_flags F) = option_map (fun _ => true) (get2 x y F).
Proof.
  unfold get2. rewrite reset_flags_get. destruct (get x F); simpl;
    [apply reset_row_get | reflexivity].
Qed.

Definition all_true (F : flags) : Prop :=
  forall x y f, get2 x y F = Some f -> f = true.

Lemma sync_reset T F : sync T F -> sync T (reset_flags F) /\ all_true (reset_flags F).
Proof.
  intros [S1 S2]. split; [split |].
  - intro a. rewrite reset_flags_get, S1. destruct (get a F); simpl; (split; intro X; [try discriminate X; reflexivity | try discriminate X; reflexivity]).
  - intros a b. rewrite reset_flags_get2, S2. destruct (get2 a b F); simpl; (split; intro X; [try discriminate X; reflexivity | try discriminate X; reflexivity]).
  - intros x y f. rewrite reset_flags_get2. destruct (get2 x y F); simpl; intro X; inversion X; reflexivity.
Qed.

(** The entry of a pair after a run of whole cases. *)
Definition after_log (old : option (nat * nat)) (n k : nat) : option (nat * nat) :=
  match n with
  | 0 => old
  | S _ => Some (match old with
                 | None => (n, k)
                 | Some (m, c) => (m + n, c + k)
                 end)
  end.

Lemma abs_count_0 a b traces : abs_count a b traces = 0 -> case_count a b traces = 0.
Proof.
  unfold abs_count, case_count. induction traces as [| t ts IH]; simpl; [reflexivity |].
  destruct (count_adj a b t); simpl; [assumption | discriminate].
Qed.

Lemma scan_log_spec traces : forall T F,
  sync T F -> all_true F ->
  exists st,
    scan_log traces (T, F) = Some st /\
    forall x y,
      get2 x y (fst st) =
      after_log (get2 x y T) (abs_count x y traces) (case_count x y traces).
Proof.
  induction traces as [| tr traces IH]; intros T F HS HA.
  - exists (T, F). simpl. auto.
  - destruct (scan_case_spec tr HS) as [T1 [F1 [E1 [HS1 HV]]]].
    destruct (sync_reset HS1) as [HS1' HA1].
    destruct (IH T1 (reset_flags F1) HS1' HA1) as [st [E2 HV2]].
    exists st. simpl. rewrite E1. simpl. split; [assumption |].
    intros x y. rewrite HV2. destruct (HV x y) as [-> _].
    unfold abs_count, case_count. simpl.
    fold (abs_count x y traces). fold (case_count x y traces).
    assert (Hfl : match get2 x y F with Some false => False | _ => True end).
    { destruct (get2 x y F) as [[|] |] eqn:EF; auto. apply HA in EF. discriminate. }
    pose proof (@abs_count_0 x y traces) as Z0.
    destruct (count_adj x y tr) as [| n] eqn:En; simpl; [reflexivity |].
    unfold after_log, after_case.
    destruct (get2 x y T) as [[m c] |]; destruct (get2 x y F) as [[|] |];
      try contradiction;
      destruct (abs_count x y traces) as [| p] eqn:Ep; simpl;
      unfold case_count in *; try specialize (Z0 eq_refl); do 2 f_equal; lia.
Qed.

Lemma case_count_le_abs a b traces : case_count a b traces <= abs_count a b traces.
Proof.
  unfold case_count, abs_count. induction traces as [| t ts IH]; simpl; [lia |].
  destruct (count_adj a b t); simpl; lia.
Qed.

Lemma case_count_le_length a b traces : case_count a b traces <= length traces.
Proof. unfold case_count. apply filter_length_le. Qed.

Lemma count_adj_lt_length a b tr : count_adj a b tr <= length tr - 1.
Proof.
  induction tr as [| x tr IH]; [simpl; lia |].
  destruct tr as [| y tr']; [simpl; lia |].
  change (count_adj a b (x :: y :: tr'))
    with ((if eqb (x, y) (a, b) then 1 else 0) + count_adj a b (y :: tr')).
  simpl length in *. destruct (eqb (x, y) (a, b)); lia.
Qed.

Lemma abs_count_le a b traces :
  abs_count a b traces <= length traces * max_trace_len traces.
Proof.
  unfold abs_count, max_trace_len. induction traces as [| t ts IH]; simpl; [lia |].
  pose proof (count_adj_lt_length a b t).
  set (m := fold_right Nat.max 0 (map (@length value) ts)) in *.
  assert (length ts * m <= length ts * Nat.max (length t) m)
    by (apply Nat.mul_le_mono_l; lia).
  lia.
Qed.

(** C8. [transit_matrix] returns a table [T] whose entry for a pair [(a, b)]
    exists exactly when the pair is adjacent somewhere in the log, and is then
    (number of adjacencies of the pair over all traces, number of cases that
    contain the pair): one increment of the absolute count per adjacency and
    at most one of the case count per case.  Hence, for every entry,
    case_count <= absolute_count, case_count <= |cases| and
    absolute_count <= |cases| * max_trace_len. *)
Theorem transit_matrix_counts (log : Log) :
  wf_log log ->
  let traces := values (flat_log log) in
  exists T,
    transit_matrix log = Some T /\
    forall a b,
      get2 a b T =
        (if abs_count a b traces =? 0 then None
         else Some (abs_count a b traces, case_count a b traces)) /\
      forall n c, get2 a b T = Some (n, c) ->
        c <= n /\
        c <= length (cases log) /\
        n <= length (cases log) * max_trace_len traces.
Proof.
  intros WF traces.
  assert (S0 : sync [] []) by (split; intros; simpl; tauto).
  assert (A0 : all_true []) by (intros x y f; discriminate).
  destruct (scan_log_spec traces S0 A0) as [st [E HV]].
  exists (fst st). unfold transit_matrix. change (values (flat_log log)) with traces.
  assert (E' : scan_log traces empty_state = Some st) by exact E.
  rewrite E'. simpl.
  split; [reflexivity |].
  intros a b.
  assert (G : get2 a b (fst st) =
              if abs_count a b traces =? 0 then None
              else Some (abs_count a b traces, case_count a b traces)).
  { rewrite HV. simpl. destruct (abs_count a b traces); reflexivity. }
  split; [exact G |].
  intros n c Hn. rewrite G in Hn.
  destruct (abs_count a b traces =? 0); [discriminate |].
  inversion Hn; subst n c.
  rewrite (wf_log_length WF).
  assert (L : length traces = length (flat_log log))
    by (unfold traces, values; apply length_map).
  rewrite <- L.
  split; [apply case_count_le_abs |].
  split; [apply case_count_le_length | apply abs_count_le].
Qed.

(** The scenario of the specification satisfies the hypothesis of C8. *)
Lemma transit_matrix_counts_witness :
  exists T,
    transit_matrix log_xy = Some T /\
    forall a b,
      get2 a b T =
        (if abs_count a b (values (flat_log log_xy)) =? 0 then None
         else Some (abs_count a b (values (flat_log log_xy)),
                    case_count a b (values (flat_log log_xy)))) /\
      forall n c, get2 a b T = Some (n, c) ->
        c <= n /\
        c <= length (cases log_xy) /\
        n <= length (cases log_xy) * max_trace_len (values (flat_log log_xy)).
Proof. exact (transit_matrix_counts wf_log_xy). Defined.

(** The table of the scenario: (x, y) -> (3, 2) and (y, x) -> (1, 1). *)
Example transit_matrix_xy :
  transit_matrix log_xy = Some [(vx, [(vy, (3, 2))]); (vy, [(vx, (1, 1))])].
Proof. reflexivity. Qed.

End LogModel.


(* ================================================================== *)
(** ** The process graph (src/profit/graph.py) *)

Abbreviation edge := (value * value)%type (only parsing).
Abbreviation cycle := (list value) (only parsing).

(** [self.nodes] and [self.edges]; both are [None] until the first [update]. *)
Record Graph : Type := {
  nodes : option (dict value (nat * Z));
  edges : option (dict edge (nat * nat))
}.

Definition start : value := Str "start".
Definition end_ : value := Str "end".

(** [a / b] on numbers: [ZeroDivisionError] when [b] is zero. *)
Definition pydiv (a b : Q) : option Q :=
  if Qeq_bool b 0 then None else Some (a / b)%Q.

Definition Qnat (n : nat) : Q := inject_Z (Z.of_nat n).

(** [int(q)]: truncation towards zero. *)
Definition py_int (q : Q) : Z := Z.quot (Qnum q) (Zpos (Qden q)).

(** [xs[s:f]] *)
Definition slice {A} (s f : nat) (xs : list A) : list A := firstn (f - s) (skipn s xs).

(** [[i for i, e in enumerate(xs) if p e]] *)
Definition indices_where {A} (p : A -> bool) (xs : list A) : list nat :=
  map fst (filter (fun ie => p (snd ie)) (combine (seq 0 (length xs)) xs)).

(** [zip(xs, xs[1:])] *)
Definition adjacent {A} (xs : list A) : list (A * A) := combine xs (tl xs).

(** [set(xs)] as a duplicate-free list (first occurrences, in order). *)
Fixpoint distinct {A} `{Eqb A} (xs : list A) : list A :=
  match xs with
  | [] => []
  | x :: xs' => x :: filter (fun y => negb (eqb y x)) (distinct xs')
  end.

(** [s.add(x)] *)
Definition add {A} `{Eqb A} (x : A) (s : list A) : list A :=
  if elem x s then s else s ++ [x].

(** *** Edge selection inside [update] *)

(** Lines 78-80: the transitions kept when [path_rate == 100]. *)
Definition early_stop_transitions (T : LogModel.table) (activities : list value)
  : list edge :=
  let permitted := activities ++ [start; end_] in
  flat_map (fun a_i =>
    match get a_i T with
    | Some row =>
        flat_map (fun a_j =>
          if elem a_i permitted && elem a_j permitted then [(a_i, a_j)] else [])
          (keys row)
    | None => []
    end) (keys T).

(** Lines 86-88: the self-loops appended when [path_rate != 100]. *)
Definition self_loop_transitions (S_loop_norm : dict value Q) (co : Q) : list edge :=
  flat_map (fun a_i =>
    match get a_i S_loop_norm with
    | Some s =>
        if Qle_bool co (s - 0.01) || Qeq_bool co 0 then [(a_i, a_i)] else []
    | None => []
    end) (keys S_loop_norm).

(** Lines 68-69: [S_loop], the case frequency of each retained self-loop over
    the number of cases. *)
Definition self_loop_significance (T : LogModel.table) (activities : list value)
  (case_cnt : nat) : option (dict value Q) :=
  fold_left (fun acc a_i =>
    match get a_i T with
    | Some row =>
        fold_left (fun acc a_j =>
          d <- acc ;;
          if eqb a_i a_j && elem a_i activities then
            cnt <- LogModel.get2 a_i a_j T ;;
            q <- pydiv (Qnat (snd cnt)) (Qnat case_cnt) ;;
            Some (set a_i q d)
          else Some d) (keys row) acc
    | None => acc
    end) (keys T) (Some []).

(** *** Cycle detection: the counting pass of [find_cycles] (lines 248-277) *)

(** [cycles]: cycle -> [absolute frequency, distinct-case frequency]. *)
Definition cycle_counts : Type := dict cycle (nat * nat).

(** The nested function [check_edges]. *)
Fixpoint check_edges (bad_edges_inds : list nat) (s_ind f_ind : nat) : bool :=
  match bad_edges_inds with
  | [] => true
  | ind :: rest =>
      if f_ind <=? ind then true
      else if s_ind <=? ind then false
      else check_edges rest s_ind f_ind
  end.

(** Lines 258-259: positions whose transition is not an edge of the graph. *)
Definition bad_edges (es : dict edge (nat * nat)) (case_log : trace) : list nat :=
  indices_where (fun e => negb (mem e es)) (adjacent case_log).

(** Line 268: the test that makes [case_log[s_i:f_i]] a counted cycle. *)
Definition is_counted (es : dict edge (nat * nat)) (case_log : trace)
  (s_i f_i : nat) : bool :=
  (f_i - s_i =? length (distinct (slice s_i f_i case_log)))
  && check_edges (bad_edges es case_log) s_i f_i.

(** Lines 270-277: one counted occurrence.  The entry of the cycle is a
    two-element list updated in place. *)
Definition record_cycle (c : cycle) (st : cycle_counts * list cycle)
  : cycle_counts * list cycle :=
  let '(cycles, case_cycles) := st in
  let '(n, k) := match get c cycles with
                 | None => (1, 0)
                 | Some (n, k) => (S n, k)
                 end in
  if elem c case_cycles then (set c (n, k) cycles, case_cycles)
  else (set c (n, S k) cycles, add c case_cycles).

(** Lines 262-277: the loops over the nodes and over the consecutive
    occurrences of a node, for one case. *)
Definition scan_node (es : dict edge (nat * nat)) (case_log : trace) (node : value)
  (st : cycle_counts * list cycle) : cycle_counts * list cycle :=
  let case_indices := indices_where (fun e => eqb e node) case_log in
  fold_left (fun st sf =>
    let '(s_i, f_i) := sf in
    let c := slice s_i f_i case_log in
    if is_counted es case_log s_i f_i then record_cycle c st else st)
    (adjacent case_indices) st.

Definition scan_case_cycles (ns : dict value (nat * Z)) (es : dict edge (nat * nat))
  (cycles : cycle_counts) (case_log : trace) : cycle_counts :=
  fst (fold_left (fun st node => scan_node es case_log node st) (keys ns) (cycles, [])).

(** Lines 256-277: the mapping before canonicalization. *)
Definition count_cycles (ns : dict value (nat * Z)) (es : dict edge (nat * nat))
  (traces : list trace) : cycle_counts :=
  fold_left (scan_case_cycles ns es) traces [].

(** *** Cycle detection: merging the rotations (lines 282-298) *)

(** [[cycle[i:len(cycle)] + cycle[0:i] for i in range(len(cycle))]] *)
Definition rotations (c : cycle) : list cycle :=
  map (fun i => slice i (length c) c ++ slice 0 i c) (seq 0 (length c)).

(** [xs.index(x)]; [None] is [ValueError]. *)
Fixpoint index_of (x : value) (xs : list value) : option nat :=
  match xs with
  | [] => None
  | y :: ys => if eqb y x then Some 0 else option_map S (index_of x ys)
  end.

(** [min(d, key=d.get)]: the first key with the least value; [None] is the
    [ValueError] of an empty argument. *)
Definition min_key {K} `{Eqb K} (d : dict K nat) : option K :=
  match keys d with
  | [] => None
  | k0 :: ks =>
      fold_left (fun best k =>
        b <- best ;; vb <- get b d ;; vk <- get k d ;;
        Some (if vk <? vb then k else b)) ks (Some k0)
  end.

(** [{c: ordered_nodes.index(c[0]) for c in cycle_seq}] *)
Definition rotation_ranks (ordered_nodes : list value) (cycle_seq : list cycle)
  : option (dict cycle nat) :=
  fold_left (fun acc c =>
    d <- acc ;;
    c0 <- hd_error c ;;
    i <- index_of c0 ordered_nodes ;;
    Some (set c i d)) cycle_seq (Some []).

(** [sum(cycles[c][i] for c in cycle_seq if c in cycles)], for [i] in 0, 1. *)
Definition sum_counts (cycles : cycle_counts) (cycle_seq : list cycle) : nat * nat :=
  let present := flat_map (fun c => match get c cycles with
                                    | Some v => [v]
                                    | None => []
                                    end) cycle_seq in
  (list_sum (map fst present), list_sum (map snd present)).

(** Lines 286-296: the body of the loop over [cycles].  [order] is
    [Some ordered_nodes] when [pre_traverse] is set. *)
Definition merge_cycle (cycles : cycle_counts) (order : option (list value))
  (c : cycle) (st : cycle_counts * list cycle) : option (cycle_counts * list cycle) :=
  let '(sum_cycles, left_) := st in
  if elem c left_ then Some st
  else
    let cycle_seq := rotations c in
    rep_seq <- match order with
               | Some ordered_nodes =>
                   ranks <- rotation_ranks ordered_nodes cycle_seq ;;
                   rep <- min_key ranks ;;
                   Some (rep, keys ranks)
               | None => Some (c, cycle_seq)
               end ;;
    let '(rep, cycle_seq) := rep_seq in
    Some (set rep (sum_counts cycles cycle_seq) sum_cycles,
          fold_left (fun l c' => add c' l) cycle_seq left_).

(** Lines 283-284: [sum_cycles = dict()] and [left = set()]. *)
Definition merge_init : cycle_counts * list cycle := ([], []).

(** Lines 282-298. *)
Definition merge_rotations (cycles : cycle_counts) (order : option (list value))
  : option cycle_counts :=
  st <- fold_left (fun acc c => st <- acc ;; merge_cycle cycles order c st)
          (keys cycles) (Some merge_init) ;;
  Some (fst st).

(** [find_cycles] once the traversal order is known. *)
Definition find_cycles_from (ns : dict value (nat * Z)) (es : dict edge (nat * nat))
  (traces : list trace) (order : option (list value)) (ordered : bool)
  : option cycle_counts :=
  let cycles := count_cycles ns es traces in
  if negb ordered then merge_rotations cycles order else Some cycles.

(** *** Significant cycles: [find_states] (lines 328-330) *)

Definition find_states_from (cycles : cycle_counts) (case_cnt : nat) (cycle_rel : Q)
  : option (list cycle) :=
  fold_right (fun item acc =>
    l <- acc ;;
    let '(c, (abs_freq, case_freq)) := item in
    if 1 <? length c then
      q <- pydiv (Qnat case_freq) (Qnat case_cnt) ;;
      Some (if Qle_bool cycle_rel q then c :: l else l)
    else Some l) (Some []) cycles.

(** *** Traversal order: [find_nodes_order] (lines 211-229) *)

(** The outcome of the nested function [preorder_traversal]: the state it
    leaves, the [KeyError] of [visited[successor]] for a successor that is
    not a node, or a recursion cut short by the bound of the model. *)
Inductive traversal : Type :=
| Visited (st : dict value bool * list value)
| KeyMissing
| Unfinished.

(** The recursion of [preorder_traversal] is bounded by [fuel]. *)
Fixpoint preorder_traversal (fuel : nat) (G : dict value (list value))
  (start_node : value) (st : dict value bool * list value) : traversal :=
  match fuel with
  | 0 => Unfinished
  | S fuel' =>
      let visited := set start_node true (fst st) in
      let ordered_nodes := snd st ++ [start_node] in
      let successors := match get start_node G with
                        | Some l => l
                        | None => []
                        end in
      fold_left (fun acc successor =>
        match acc with
        | Visited st =>
            match get successor (fst st) with
            | None => KeyMissing
            | Some seen =>
                if negb seen then preorder_traversal fuel' G successor st
                else Visited st
            end
        | KeyMissing => KeyMissing
        | Unfinished => Unfinished
        end) successors (Visited (visited, ordered_nodes))
  end.

(** *** Replay: [replayability_score] (lines 401-460) *)

(** The nested function [is_replayed_element]: a string is looked up in the
    nodes, a tuple in the edges (whose keys are pairs). *)
Definition is_replayed_element (ns : dict value (nat * Z)) (es : dict edge (nat * nat))
  (element : value) : bool :=
  match element with
  | Str _ => mem element ns
  | Tuple [a; b] => mem (a, b) es
  | Tuple _ => false
  end.

(** Lines 428-434: the first replayed event and the events after it. *)
Fixpoint skip_noise (ns : dict value (nat * Z)) (es : dict edge (nat * nat))
  (tr : trace) : option (value * trace) :=
  match tr with
  | [] => None
  | event :: rest =>
      if is_replayed_element ns es event then Some (event, rest)
      else skip_noise ns es rest
  end.

(** The counters [z], [delta], [phi] and the current position. *)
Record replay_state : Type := {
  z : nat;
  delta : nat;
  phi : nat;
  actual_node : value
}.

(** Lines 440-450: the body of the replay loop. *)
Definition replay_step (ns : dict value (nat * Z)) (es : dict edge (nat * nat))
  (st : replay_state) (next_event : value) : replay_state :=
  if is_replayed_element ns es next_event then
    let next_node := next_event in
    if is_replayed_element ns es (Tuple [actual_node st; next_node]) then
      {| z := S (z st); delta := delta st; phi := phi st; actual_node := next_node |}
    else
      {| z := S (z st); delta := delta st; phi := S (phi st);
         actual_node := actual_node st |}
  else
    {| z := z st; delta := 1; phi := phi st; actual_node := actual_node st |}.

(** Line 453. *)
Definition replay_formula (alpha beta : Q) (z delta phi trace_length : nat) : Q :=
  Qabs (Qnat z / Qnat trace_length - alpha * Qnat delta
        - beta * Qnat phi / Qnat trace_length)%Q.

(** The nested function [trace_replayability_score]; [trace[0]] raises on an
    empty trace. *)
Definition trace_replayability_score (ns : dict value (nat * Z))
  (es : dict edge (nat * nat)) (alpha beta : Q) (tr : trace) : option Q :=
  match tr with
  | [] => None
  | _ :: _ =>
      match skip_noise ns es tr with
      | None => Some 0%Q
      | Some (event, rest) =>
          let st := fold_left (replay_step ns es) rest
                      {| z := 1; delta := 0; phi := 0; actual_node := event |} in
          Some (replay_formula alpha beta (z st) (delta st) (phi st) (length tr))
      end
  end.

Definition replayability_score (g : Graph) (log : Log) (alpha beta : Q) : option Q :=
  ns <- nodes g ;;
  es <- edges g ;;
  log_score <- fold_left (fun acc tr =>
                 s <- acc ;; t <- trace_replayability_score ns es alpha beta tr ;;
                 Some (s + t)%Q) (values (flat_log log)) (Some 0%Q) ;;
  pydiv log_score (Qnat (length (cases log))).

(** *** Loss: [fitness] (lines 343-398) *)

(** [len(str(n))]: the number of decimal digits of [n]. *)
Fixpoint digits_fuel (fuel n : nat) : nat :=
  match fuel with
  | 0 => 1
  | S fuel' => if n <? 10 then 1 else S (digits_fuel fuel' (n / 10))
  end.

Definition decimal_digits (n : nat) : nat := digits_fuel n n.

(** [10 ** (-len(str(case_cnt)))] *)
Definition eps_of (case_cnt : nat) : Q :=
  (1 / inject_Z (10 ^ Z.of_nat (decimal_digits case_cnt)))%Q.

(** The nested function [loss]. *)
Definition loss (ADS : dict value (dict value string)) (T : LogModel.table)
  (case_cnt : nat) (a_i a_j : value) : option Q :=
  rel <- LogModel.get2 a_i a_j ADS ;;
  if String.eqb rel "A" then Some 1%Q
  else if String.eqb rel "S" then
    cnt <- LogModel.get2 a_i a_j T ;;
    pydiv (Qnat (snd cnt)) (Qnat case_cnt)
  else Some (eps_of case_cnt).

(** [[(t[i], t[i+1]) for i in range(len(t) - 1)] + [(t[-1], t[0])]]: the
    internal edges of a meta-state; indexing an empty tuple raises. *)
Definition inner_edges (t : list value) : option (list edge) :=
  first <- hd_error t ;;
  Some (adjacent t ++ [(last t first, first)]).

(** Lines 367-386: the transitions that one model edge stands for. *)
Definition expand_edge (e : edge) : option (list edge) :=
  match e with
  | (Tuple e0, Tuple e1) =>
      first0 <- hd_error e0 ;;
      first1 <- hd_error e1 ;;
      Some (flat_map (fun e_i => map (fun e_j => (e_i, e_j)) e1) e0
            ++ adjacent e0 ++ adjacent e1
            ++ [(last e0 first0, first0); (last e1 first1, first1)])
  | (Tuple e0, e1) =>
      inner <- inner_edges e0 ;;
      Some (map (fun e_i => (e_i, e1)) e0 ++ inner)
  | (e0, Tuple e1) =>
      inner <- inner_edges e1 ;;
      Some (map (fun e_j => (e0, e_j)) e1 ++ inner)
  | _ => Some [e]
  end.

(** Lines 366-387: [edges1], without duplicates. *)
Definition expand_edges (es : list edge) : option (list edge) :=
  l <- fold_left (fun acc e => l <- acc ;; x <- expand_edge e ;; Some (l ++ x))
         es (Some []) ;;
  Some (distinct l).

(** [losses += loss(a_i, a_j)] *)
Definition add_loss (ADS : dict value (dict value string)) (T : LogModel.table)
  (case_cnt : nat) (acc : option Q) (e : edge) : option Q :=
  losses <- acc ;; l <- loss ADS T case_cnt (fst e) (snd e) ;; Some (losses + l)%Q.

(** Lines 391-395: the loss of one trace. *)
Definition trace_loss (ADS : dict value (dict value string)) (T : LogModel.table)
  (case_cnt : nat) (edges1 : list edge) (acc : option Q) (log_trace : trace)
  : option Q :=
  first <- hd_error log_trace ;;
  let acc := add_loss ADS T case_cnt acc (start, first) in
  let acc := fold_left (add_loss ADS T case_cnt)
               (filter (fun e => negb (elem e edges1)) (adjacent log_trace)) acc in
  add_loss ADS T case_cnt acc (last log_trace first, end_).

(** Lines 343-398, with [T] and [ADS] resolved. *)
Definition fitness_from (es : dict edge (nat * nat)) (log : Log)
  (T : LogModel.table) (ADS : dict value (dict value string)) : option Q :=
  let case_cnt := length (cases log) in
  edges1 <- expand_edges (keys es) ;;
  let losses := fold_left (trace_loss ADS T case_cnt edges1)
                  (values (flat_log log)) (Some 0%Q) in
  fold_left (add_loss ADS T case_cnt) edges1 losses.

(** *** The methods of [Graph]

    The helpers that the methods import from [util_pm], [util_agg] and
    [transition_matrix] are not part of the sources; they are the fields of an
    interface, and every result below holds for all its instances. *)
Class Helpers : Type := {
  (** the [T] attribute of a [TransitionMatrix] object *)
  matrix : Type;
  node_significance : Log -> dict value Q;
  dict_normalization : dict value Q -> dict value Q;
  dict_normalization_nested : dict value (dict value Q) -> dict value (dict value Q);
  (** [transit_matrix(log, T.T)] *)
  transit_matrix_pm : Log -> matrix -> LogModel.table;
  (** [edge_sig(T, source, target, type_)]; [true] is ['out'], [false] is ['in'] *)
  edge_sig :
    LogModel.table -> list value -> list value -> bool -> dict value (dict value Q);
  rel_sig_t : Type;
  rel_sig : dict value (dict value Q) -> dict value (dict value Q) -> rel_sig_t;
  conflict_resolution : rel_sig_t -> list edge;
  edge_filtering : dict value (dict value Q) -> list edge -> Q -> bool -> list edge;
  incidence_matrix : list edge -> dict value (list value);
  (** [check_feasibility] works on the list of transitions in place, or
      raises; the model returns the list it leaves behind *)
  check_feasibility :
    list value -> list edge -> LogModel.table -> dict value (list value) ->
    dict value Q -> dict value (dict value Q) -> option (list edge);
  reconstruct_log : Log -> list cycle -> bool -> option (dict case_id trace);
  (** [T = TransitionMatrix(); T.update(flat_log)] *)
  TransitionMatrix_update : dict case_id trace -> option matrix;
  node_significance_filtered :
    Log -> matrix -> option (dict value (nat * Z)) -> list cycle -> string ->
    option (dict value Q);
  T_filtered :
    Log -> LogModel.table -> option (dict value (nat * Z)) -> list cycle -> string ->
    option LogModel.table;
  filter_connections : Log -> list cycle -> option (dict case_id trace * list value);
  add_frq :
    option (dict value (nat * Z)) -> option (dict value (nat * Z)) -> list cycle ->
    matrix -> string -> option (dict value (nat * Z));
  (** [TM = TransitionMatrix(); TM.update(log); TM.T] *)
  TransitionMatrix_T : Log -> LogModel.table;
  ADS_matrix : Log -> LogModel.table -> dict value (dict value string)
}.

Section Methods.
Context {helpers : Helpers}.

(** Lines 77-88: the transitions handed to the connectivity check. *)
Definition select_transitions (T : LogModel.table) (activities : list value)
  (path_rate : Q) (rS : rel_sig_t)
  (S_in_norm S_out_norm : dict value (dict value Q)) (S_loop_norm : dict value Q)
  : list edge :=
  if Qeq_bool path_rate 100 then early_stop_transitions T activities
  else
    let co := (1 - path_rate / 100)%Q in
    let transitions := conflict_resolution rS in
    let transitions := edge_filtering S_in_norm transitions co false in
    let transitions := edge_filtering S_out_norm transitions co true in
    transitions ++ self_loop_transitions S_loop_norm co.

(** [update]; [T] is a dictionary, or a [TransitionMatrix] whose table is
    completed by [transit_matrix].  The two attributes are assigned last, so
    a raised exception ([None]) leaves the graph as it was. *)
Definition update (log : Log) (activity_rate path_rate : Q)
  (T : LogModel.table + matrix) (S_node : option (dict value Q)) : option Graph :=
  (* 1. Node filtering *)
  let S := match S_node with
           | Some ((_ :: _) as s) => s
           | _ => node_significance log
           end in
  let S_norm := dict_normalization S in
  activities <- fold_right (fun a acc =>
                  l <- acc ;; s <- get a S_norm ;;
                  Some (if Qle_bool (1 - activity_rate / 100) s then a :: l else l))
                  (Some []) (keys S_norm) ;;
  (* 2. Edge filtering *)
  let T := match T with inl d => d | inr m => transit_matrix_pm log m end in
  let S_out := edge_sig T (activities ++ [start]) (activities ++ [end_]) true in
  let S_in := edge_sig T (activities ++ [end_]) (activities ++ [start]) false in
  S_loop <- self_loop_significance T activities (length (cases log)) ;;
  let rS := rel_sig S_out S_in in
  let S_out_norm := dict_normalization_nested S_out in
  let S_in_norm := dict_normalization_nested S_in in
  let S_loop_norm := dict_normalization S_loop in
  let transitions :=
    select_transitions T activities path_rate rS S_in_norm S_out_norm S_loop_norm in
  (* 3. Check graph connectivity *)
  let I := incidence_matrix transitions in
  transitions <- check_feasibility activities transitions T I S_norm S_out_norm ;;
  activitiesDict <- fold_left (fun acc a =>
                      d <- acc ;; row <- get a T ;; s <- get a S ;;
                      Some (set a (list_sum (map fst (values row)),
                                   py_int (s * Qnat (length (cases log)))) d))
                      activities (Some []) ;;
  let transitionsDict :=
    fold_left (fun d t =>
      set t (match LogModel.get2 (fst t) (snd t) T with
             | Some cnt => cnt
             | None => (0, 0)
             end) d) transitions [] in
  Some {| nodes := Some activitiesDict; edges := Some transitionsDict |}.

(** [find_nodes_order] *)
Definition find_nodes_order (g : Graph) : option (list value) :=
  es <- edges g ;;
  ns <- nodes g ;;
  let G := incidence_matrix (keys es) in
  let nodes_ := [start; end_] ++ keys ns in
  let visited := fold_left (fun d n => set n false d) nodes_ [] in
  match preorder_traversal (S (length nodes_)) G start (visited, []) with
  | Visited st => Some (snd st)
  | KeyMissing | Unfinished => None
  end.

(** [find_cycles] *)
Definition find_cycles (g : Graph) (log : Log) (pre_traverse ordered : bool)
  : option cycle_counts :=
  ns <- nodes g ;;
  es <- edges g ;;
  order <- (if pre_traverse then option_map Some (find_nodes_order g)
            else Some None) ;;
  find_cycles_from ns es (values (flat_log log)) order ordered.

(** [find_states] *)
Definition find_states (g : Graph) (log : Log) (pre_traverse ordered : bool)
  (cycle_rel : Q) : option (list cycle) :=
  cycles <- find_cycles g log pre_traverse ordered ;;
  find_states_from cycles (length (cases log)) cycle_rel.

(** What a call can raise: the [ValueError] that [aggregate] raises itself,
    or an exception that comes out of a step it calls. *)
Inductive raised : Type :=
| ValueError (msg : string)
| OtherError.

(** The outcome of a call that works on the graph in place: what it raised,
    if anything, and the graph it leaves behind. *)
Definition outcome : Type := option raised * Graph.

(** [aggregate] *)
Definition aggregate (g : Graph) (log : Log) (activity_rate path_rate : Q)
  (agg_type heuristic : string) (pre_traverse ordered : bool) (cycle_rel : Q)
  : outcome :=
  match find_states g log pre_traverse ordered cycle_rel with
  | None => (Some OtherError, g)
  | Some SC =>
  match reconstruct_log log SC ordered with
  | None => (Some OtherError, g)
  | Some flat_log_agg =>
  let log_agg := {| flat_log := flat_log_agg;
                    activities := fold_left (fun s c => add (Tuple c) s) SC
                                    (activities log);
                    cases := cases log |} in
  match TransitionMatrix_update (flat_log log_agg) with
  | None => (Some OtherError, g)
  | Some T =>
  if negb (elem agg_type ["outer"; "inner"]%string) then
    (Some (ValueError "Invalid aggregation type"), g)
  else if negb (elem heuristic ["all"; "frequent"]%string) then
    (Some (ValueError "Invalid heuristic"), g)
  else if String.eqb agg_type "inner" then
    match update log_agg 100 0 (inr T) None with
    | None => (Some OtherError, g)
    | Some g1 =>
        let nodes_ := nodes g1 in
        match
          S <- node_significance_filtered log_agg T nodes_ SC heuristic ;;
          let T_ := transit_matrix_pm log_agg T in
          T1 <- T_filtered log_agg T_ nodes_ SC heuristic ;;
          fc <- filter_connections log_agg SC ;;
          let log_agg := {| flat_log := fst fc; activities := snd fc;
                            cases := cases log_agg |} in
          g2 <- update log_agg activity_rate path_rate (inl T1) (Some S) ;;
          Some g2
        with
        | None => (Some OtherError, g1)
        | Some g2 =>
            match add_frq (nodes g2) nodes_ SC T heuristic with
            | None => (Some OtherError, g2)
            | Some ns => (None, {| nodes := Some ns; edges := edges g2 |})
            end
        end
    end
  else
    match update log_agg activity_rate path_rate (inr T) None with
    | None => (Some OtherError, g)
    | Some g1 => (None, g1)
    end
  end end end.

(** [fitness]; the defaults of [T] and [ADS] come from [TransitionMatrix] and
    [ADS_matrix]. *)
Definition fitness (g : Graph) (log : Log) (T : option LogModel.table)
  (ADS : option (dict value (dict value string))) : option Q :=
  let T := match T with Some t => t | None => TransitionMatrix_T log end in
  let ADS := match ADS with Some a => a | None => ADS_matrix log T end in
  es <- edges g ;;
  fitness_from es log T ADS.

(** *** Properties of the edge selection and of [aggregate] *)

Lemma early_stop_transitions_In T activities a_i a_j :
  In (a_i, a_j) (early_stop_transitions T activities) <->
  (exists cnt, LogModel.get2 a_i a_j T = Some cnt) /\
  In a_i (activities ++ [start; end_]) /\
  In a_j (activities ++ [start; end_]).
Proof.
  unfold early_stop_transitions. rewrite in_flat_map. split.
  - intros [x [Hx Hin]]. destruct (get x T) as [row |] eqn:Erow; [| contradiction].
    apply in_flat_map in Hin. destruct Hin as [y [Hy Hin]].
    destruct (elem x (activities ++ [start; end_])
              && elem y (activities ++ [start; end_])) eqn:E; [| contradiction].
    destruct Hin as [Hin | []]. inversion Hin; subst x y.
    apply andb_true_iff in E. destruct E as [E1 E2].
    apply elem_In in E1. apply elem_In in E2.
    split; [| split; assumption].
    apply get_Some_keys in Hy. destruct Hy as [cnt Hy].
    exists cnt. unfold LogModel.get2. rewrite Erow. exact Hy.
  - intros [[cnt Hcnt] [H1 H2]]. unfold LogModel.get2 in Hcnt.
    destruct (get a_i T) as [row |] eqn:Erow; [| discriminate].
    simpl in Hcnt. exists a_i. split.
    + apply get_Some_keys. eauto.
    + rewrite Erow. apply in_flat_map. exists a_j. split.
      * apply get_Some_keys. eauto.
      * apply elem_In in H1. apply elem_In in H2. rewrite H1, H2. simpl. auto.
Qed.

(** C1. With [path_rate == 100] the transitions that [update] retains are
    exactly the pairs [(a_i, a_j)] present in the transition table whose two
    endpoints lie in the retained activities extended with 'start' and 'end':
    no significance threshold is consulted and no such pair is dropped. *)
Theorem update_path_rate_100_keeps_all
  (T : LogModel.table) (activities : list value) (path_rate : Q) (rS : rel_sig_t)
  (S_in_norm S_out_norm : dict value (dict value Q)) (S_loop_norm : dict value Q) :
  (path_rate == 100)%Q ->
  forall a_i a_j,
    In (a_i, a_j)
       (select_transitions T activities path_rate rS S_in_norm S_out_norm S_loop_norm)
    <->
    (exists cnt, LogModel.get2 a_i a_j T = Some cnt) /\
    In a_i (activities ++ [start; end_]) /\
    In a_j (activities ++ [start; end_]).
Proof.
  intros Hrate a_i a_j. unfold select_transitions.
  apply Qeq_bool_iff in Hrate. rewrite Hrate.
  apply early_stop_transitions_In.
Qed.

(** C9. A call of [aggregate] whose [agg_type] is not 'outer' or 'inner', or
    whose [heuristic] is not 'all' or 'frequent', raises, and the graph it
    leaves behind is the graph it was called on: [nodes] and [edges] are
    unchanged.  When the steps before the validation succeed, what is raised
    is the [ValueError] of the validation. *)
Theorem aggregate_rejects_invalid
  (g : Graph) (log : Log) (activity_rate path_rate : Q)
  (agg_type heuristic : string) (pre_traverse ordered : bool) (cycle_rel : Q) :
  ~ In agg_type ["outer"; "inner"]%string \/
  ~ In heuristic ["all"; "frequent"]%string ->
  exists e,
    aggregate g log activity_rate path_rate agg_type heuristic
              pre_traverse ordered cycle_rel = (Some e, g) /\
    (forall SC fl T,
       find_states g log pre_traverse ordered cycle_rel = Some SC ->
       reconstruct_log log SC ordered = Some fl ->
       TransitionMatrix_update fl = Some T ->
       e = ValueError "Invalid aggregation type" \/
       e = ValueError "Invalid heuristic").
Proof.
  intro Hbad. unfold aggregate.
  destruct (find_states g log pre_traverse ordered cycle_rel) as [SC |] eqn:ESC;
    [| exists OtherError; split; [reflexivity | discriminate]].
  destruct (reconstruct_log log SC ordered) as [fl |] eqn:Efl;
    [| exists OtherError; split; [reflexivity | intros ? ? ? X Y; congruence]].
  cbn [flat_log].
  destruct (TransitionMatrix_update fl) as [T |] eqn:ET;
    [| exists OtherError; split; [reflexivity | intros ? ? ? X Y Z; congruence]].
  destruct (elem agg_type ["outer"; "inner"]%string) eqn:E1; cbn [negb].
  - destruct (elem heuristic ["all"; "frequent"]%string) eqn:E2; cbn [negb].
    + exfalso. apply elem_In in E1. apply elem_In in E2. tauto.
    + eexists; split; [reflexivity | auto].
  - eexists; split; [reflexivity | auto].
Qed.

(** *** Significant cycles *)

Lemma Qnat_eq_0 n : 0 < n -> Qeq_bool (Qnat n) 0 = false.
Proof.
  intro Hn. unfold Qnat, Qeq_bool, inject_Z. simpl.
  apply Z.eqb_neq. lia.
Qed.

Lemma pydiv_Qnat k n : 0 < n -> pydiv (Qnat k) (Qnat n) = Some (Qnat k / Qnat n)%Q.
Proof. intro Hn. unfold pydiv. rewrite (Qnat_eq_0 Hn). reflexivity. Qed.

Lemma find_states_from_spec cycles case_cnt cycle_rel :
  0 < case_cnt ->
  exists SC,
    find_states_from cycles case_cnt cycle_rel = Some SC /\
    forall c,
      In c SC <->
      exists abs_freq case_freq,
        In (c, (abs_freq, case_freq)) cycles /\
        1 < length c /\
        (Qnat case_freq / Qnat case_cnt >= cycle_rel)%Q.
Proof.
  intro Hn. induction cycles as [| [c0 [n0 k0]] cycles [SC [E IH]]].
  - exists []. split; [reflexivity |]. intro c. split; [intros [] |].
    intros [n [k [[] _]]].
  - simpl. rewrite E. simpl.
    destruct (1 <? length c0) eqn:Elen.
    + rewrite (pydiv_Qnat k0 Hn). simpl.
      apply Nat.ltb_lt in Elen.
      destruct (Qle_bool cycle_rel (Qnat k0 / Qnat case_cnt)) eqn:Eq.
      * exists (c0 :: SC). split; [reflexivity |]. intro c. simpl. rewrite IH.
        apply Qle_bool_iff in Eq. split.
        -- intros [<- | [n [k [Hin Hc]]]]; [exists n0, k0 | exists n, k]; auto.
        -- intros [n [k [[Heq | Hin] Hc]]]; [inversion Heq; auto | right; eauto].
      * exists SC. split; [reflexivity |]. intro c. rewrite IH.
        assert (Hno : ~ (cycle_rel <= Qnat k0 / Qnat case_cnt)%Q).
        { rewrite <- Qle_bool_iff. congruence. }
        split.
        -- intros [n [k [Hin Hc]]]. exists n, k. simpl. auto.
        -- intros [n [k [[Heq | Hin] Hc]]]; [inversion Heq; subst; tauto | eauto].
    + exists SC. split; [reflexivity |]. intro c. rewrite IH.
      apply Nat.ltb_ge in Elen. split.
      * intros [n [k [Hin Hc]]]. exists n, k. simpl. auto.
      * intros [n [k [[Heq | Hin] Hc]]]; [inversion Heq; subst; lia | eauto].
Qed.

(** C3. On a log with at least one case, [find_states] returns exactly the
    cycles of [find_cycles] whose length is greater than 1 and whose
    distinct-case frequency divided by the number of cases is at least
    [cycle_rel]; in particular a cycle of length above 1 that occurs in 1 of 2
    cases is returned at [cycle_rel = 0.5]. *)
Theorem find_states_significant
  (g : Graph) (log : Log) (pre_traverse ordered : bool) (cycle_rel : Q)
  (cycles : cycle_counts) :
  find_cycles g log pre_traverse ordered = Some cycles ->
  0 < length (cases log) ->
  exists SC,
    find_states g log pre_traverse ordered cycle_rel = Some SC /\
    (forall c,
       In c SC <->
       exists abs_freq case_freq,
         In (c, (abs_freq, case_freq)) cycles /\
         1 < length c /\
         (Qnat case_freq / Qnat (length (cases log)) >= cycle_rel)%Q) /\
    (length (cases log) = 2 -> (cycle_rel == 0.5)%Q ->
     forall c abs_freq,
       In (c, (abs_freq, 1)) cycles -> 1 < length c -> In c SC).
Proof.
  intros Hc Hn. unfold find_states. rewrite Hc. simpl.
  destruct (find_states_from_spec cycles cycle_rel Hn) as [SC [E HSC]].
  exists SC. split; [exact E |]. split; [exact HSC |].
  intros H2 Hrel c n Hin Hlen. apply HSC. exists n, 1.
  split; [assumption |]. split; [assumption |].
  rewrite H2, Hrel. vm_compute. discriminate.
Qed.

End Methods.

(* ================================================================== *)
(** ** Traversal *)

(** The nodes not yet visited. *)
Definition unvisited (visited : dict value bool) : nat :=
  length (filter (fun e => negb (snd e)) visited).

Lemma unvisited_set_true k visited :
  unvisited (set k true visited) <= unvisited visited /\
  (get k visited = Some false -> unvisited (set k true visited) < unvisited visited).
Proof.
  unfold unvisited. induction visited as [| [k' b] visited [IH1 IH2]].
  - simpl. split; [lia | discriminate].
  - cbn [set get]. destruct (eqb k k') eqn:E.
    + cbn [filter snd negb]. destruct b; cbn [negb length]; split; try lia.
      * discriminate.
    + cbn [filter snd]. destruct (negb b); cbn [length]; split; try lia;
        intro X; specialize (IH2 X); lia.
Qed.

(** The bound of the model is never what stops a traversal that starts with
    more fuel than unvisited nodes. *)
Lemma preorder_traversal_bound fuel G : forall node st,
  unvisited (set node true (fst st)) < fuel ->
  match preorder_traversal fuel G node st with
  | Visited st' => unvisited (fst st') <= unvisited (set node true (fst st))
  | KeyMissing => True
  | Unfinished => False
  end.
Proof.
  induction fuel as [| fuel IH]; intros node st Hfuel; [lia |].
  cbn [preorder_traversal].
  set (visited := set node true (fst st)) in *.
  generalize (match get node G with Some l => l | None => [] end). intro successors.
  assert (Hloop : forall acc,
    match acc with
    | Visited st' => unvisited (fst st') <= unvisited visited
    | KeyMissing => True
    | Unfinished => False
    end ->
    match
      fold_left (fun acc successor =>
        match acc with
        | Visited st =>
            match get successor (fst st) with
            | None => KeyMissing
            | Some seen =>
                if negb seen then preorder_traversal fuel G successor st
                else Visited st
            end
        | KeyMissing => KeyMissing
        | Unfinished => Unfinished
        end) successors acc
    with
    | Visited st' => unvisited (fst st') <= unvisited visited
    | KeyMissing => True
    | Unfinished => False
    end).
  { induction successors as [| s successors IHs]; intros acc Hacc; [exact Hacc |].
    cbn [fold_left]. apply IHs.
    destruct acc as [st' | |]; [| exact I | contradiction].
    destruct (get s (fst st')) as [[|] |] eqn:Es; cbn [negb]; [exact Hacc | | exact I].
    destruct (unvisited_set_true s (fst st')) as [_ Hlt]. specialize (Hlt Es).
    assert (Hcall : unvisited (set s true (fst st')) < fuel) by lia.
    specialize (IH s st' Hcall).
    destruct (preorder_traversal fuel G s st'); [lia | exact I | contradiction]. }
  apply Hloop. cbn [fst]. lia.
Qed.

Lemma fromkeys_length (l : list value) : forall d : dict value bool,
  length (fold_left (fun d n => set n false d) l d) <= length d + length l.
Proof.
  induction l as [| n l IH]; intro d; [simpl; lia |].
  cbn [fold_left length]. specialize (IH (set n false d)).
  assert (length (set n false d) <= S (length d)).
  { clear. induction d as [| [k b] d IHd]; simpl; [lia |].
    destruct (value_eqb n k); simpl; lia. }
  lia.
Qed.

(** The traversal of [find_nodes_order] ends: it returns the order or stops
    on a successor that is not a node. *)
Lemma preorder_traversal_finishes G (nodes_ : list value) :
  preorder_traversal (S (length nodes_)) G start
    (fold_left (fun d n => set n false d) nodes_ [], [])
  <> Unfinished.
Proof.
  set (visited := fold_left (fun d n => set n false d) nodes_ []).
  pose proof (@preorder_traversal_bound (S (length nodes_)) G start (visited, [])) as H.
  cbn [fst] in H.
  assert (Hfuel : unvisited (set start true visited) < S (length nodes_)).
  { destruct (unvisited_set_true start visited) as [Hle _].
    pose proof (fromkeys_length nodes_ []) as Hlen. fold visited in Hlen.
    pose proof (filter_length_le (fun e : value * bool => negb (snd e)) visited).
    unfold unvisited in *. simpl in Hlen. lia. }
  specialize (H Hfuel). intro E. rewrite E in H. exact H.
Qed.

(* ================================================================== *)
(** ** Cycle counting *)

(** *** Sets as duplicate-free lists *)

Lemma distinct_In {A} `{Eqb A} (x : A) l : In x (distinct l) <-> In x l.
Proof.
  induction l as [| y l IH]; simpl; [tauto |].
  rewrite filter_In, IH, negb_true_iff, eqb_neq.
  destruct (eqb y x) eqn:E.
  - apply eqb_eq in E. subst. tauto.
  - apply eqb_neq in E. split; [tauto |].
    intros [X | X]; [congruence | right; split; [assumption | congruence]].
Qed.

Lemma NoDup_distinct {A} `{Eqb A} (l : list A) : NoDup (distinct l).
Proof.
  induction l as [| y l IH]; simpl; constructor.
  - rewrite filter_In, negb_true_iff, eqb_neq. tauto.
  - apply NoDup_filter. assumption.
Qed.

(** *** Positions *)

Lemma indices_from_spec {A} (p : A -> bool) (xs : list A) : forall start i,
  In i (map fst (filter (fun ie => p (snd ie)) (combine (seq start (length xs)) xs)))
  <-> start <= i /\ exists x, nth_error xs (i - start) = Some x /\ p x = true.
Proof.
  induction xs as [| x xs IH]; intros start i.
  - simpl. split; [tauto |]. intros [_ [y [Hy _]]].
    destruct (i - start); discriminate.
  - cbn [length seq combine filter snd].
    assert (Hrest : In i (map fst (filter (fun ie => p (snd ie))
                                     (combine (seq (S start) (length xs)) xs)))
                    <-> start < i /\ exists y, nth_error xs (i - S start) = Some y /\ p y = true).
    { rewrite IH. reflexivity. }
    assert (Hshift : start < i -> i - start = S (i - S start)) by lia.
    destruct (p x) eqn:Ep; cbn [map fst In]; rewrite ?Hrest.
    + split.
      * intros [<- | [Hlt [y Hy]]].
        -- split; [lia |]. exists x. rewrite Nat.sub_diag. auto.
        -- split; [lia |]. exists y. rewrite (Hshift Hlt). exact Hy.
      * intros [Hle [y [Hy Hp]]].
        destruct (Nat.eq_dec start i) as [-> | Hne]; [left; reflexivity |].
        right. assert (Hlt : start < i) by lia. split; [assumption |].
        exists y. rewrite (Hshift Hlt) in Hy. auto.
    + split.
      * intros [Hlt [y Hy]]. split; [lia |]. exists y. rewrite (Hshift Hlt). exact Hy.
      * intros [Hle [y [Hy Hp]]].
        destruct (Nat.eq_dec start i) as [-> | Hne].
        -- rewrite Nat.sub_diag in Hy. simpl in Hy. inversion Hy; congruence.
        -- assert (Hlt : start < i) by lia. split; [assumption |].
           exists y. rewrite (Hshift Hlt) in Hy. auto.
Qed.

Lemma indices_where_In {A} (p : A -> bool) (xs : list A) i :
  In i (indices_where p xs) <-> exists x, nth_error xs i = Some x /\ p x = true.
Proof.
  unfold indices_where. rewrite indices_from_spec, Nat.sub_0_r.
  split; [tauto | intro; split; [lia | assumption]].
Qed.

Lemma indices_from_sorted {A} (p : A -> bool) (xs : list A) : forall start,
  StronglySorted lt
    (map fst (filter (fun ie => p (snd ie)) (combine (seq start (length xs)) xs))).
Proof.
  induction xs as [| x xs IH]; intro start; [constructor |].
  cbn [length seq combine filter snd].
  destruct (p x); cbn [map fst]; [| apply IH].
  constructor; [apply IH |].
  apply Forall_forall. intros i Hi. apply indices_from_spec in Hi. lia.
Qed.

Lemma indices_where_sorted {A} (p : A -> bool) (xs : list A) :
  StronglySorted lt (indices_where p xs).
Proof. apply indices_from_sorted. Qed.

Lemma adjacent_nth {A} (xs : list A) i a b :
  nth_error (adjacent xs) i = Some (a, b)
  <-> nth_error xs i = Some a /\ nth_error xs (S i) = Some b.
Proof.
  unfold adjacent. destruct xs as [| x xs];
    [destruct i; simpl; (split; [discriminate | intros [X _]; discriminate]) |].
  cbn [tl]. revert x i. induction xs as [| y xs IH]; intros x i.
  - destruct i as [| i]; simpl; split; try discriminate.
    + intros [_ X]; discriminate.
    + intros [X _]. destruct i; discriminate.
  - destruct i as [| i].
    + simpl. split; [intro X; inversion X; auto | intros [X Y]; inversion X; inversion Y; reflexivity].
    + change (nth_error (combine (x :: y :: xs) (y :: xs)) (S i))
        with (nth_error (combine (y :: xs) xs) i).
      rewrite IH. reflexivity.
Qed.

(** The condition of the specification on a pair of positions: the slice
    has no repeated activity, and every transition at a position of
    [[s, f)] is an edge of the graph. *)
Definition cycle_condition (es : dict edge (nat * nat)) (tr : trace) (s f : nat) : Prop :=
  f - s = length (distinct (slice s f tr)) /\
  forall i a b,
    s <= i < f -> nth_error tr i = Some a -> nth_error tr (S i) = Some b ->
    In (a, b) (keys es).

Lemma check_edges_spec bad s f :
  StronglySorted lt bad ->
  check_edges bad s f = true <-> forall i, In i bad -> ~ (s <= i < f).
Proof.
  induction 1 as [| ind rest Hs IH Hall]; simpl.
  - split; [intros _ i [] | reflexivity].
  - rewrite Forall_forall in Hall.
    destruct (f <=? ind) eqn:Ef.
    + apply Nat.leb_le in Ef. split; [| reflexivity].
      intros _ i [<- | Hi]; [lia |]. specialize (Hall i Hi). lia.
    + apply Nat.leb_gt in Ef. destruct (s <=? ind) eqn:Es.
      * apply Nat.leb_le in Es. split; [discriminate |].
        intro Hno. exfalso. apply (Hno ind); [left; reflexivity | lia].
      * apply Nat.leb_gt in Es. rewrite IH. split.
        -- intros Hno i [<- | Hi]; [lia | auto].
        -- intros Hno i Hi. apply Hno. right; assumption.
Qed.

Lemma is_counted_spec es tr s f :
  is_counted es tr s f = true <-> cycle_condition es tr s f.
Proof.
  unfold is_counted, cycle_condition.
  rewrite andb_true_iff, Nat.eqb_eq. unfold bad_edges.
  rewrite (check_edges_spec s f (indices_where_sorted _ _)).
  apply and_iff_compat_l. split.
  - intros Hno i a b Hi Ha Hb.
    destruct (mem (a, b) es) eqn:Em; [apply mem_keys; assumption |].
    exfalso. apply (Hno i); [| assumption].
    apply indices_where_In. exists (a, b). split.
    + apply adjacent_nth. auto.
    + rewrite Em. reflexivity.
  - intros Hall i Hi Hin. apply indices_where_In in Hi.
    destruct Hi as [[a b] [Hnth Hp]]. apply adjacent_nth in Hnth.
    destruct Hnth as [Ha Hb]. specialize (Hall i a b Hin Ha Hb).
    apply mem_keys in Hall. rewrite Hall in Hp. discriminate.
Qed.

(** *** Occurrences *)

(** The pairs of consecutive occurrences of the retained nodes in a trace. *)
Definition candidates (ns : dict value (nat * Z)) (tr : trace) : list (nat * nat) :=
  flat_map (fun node => adjacent (indices_where (fun e => eqb e node) tr)) (keys ns).

(** The cycle occurrences counted in a trace, in the order of the scan. *)
Definition counted_cycles (ns : dict value (nat * Z)) (es : dict edge (nat * nat))
  (tr : trace) : list cycle :=
  map (fun sf => slice (fst sf) (snd sf) tr)
      (filter (fun sf => is_counted es tr (fst sf) (snd sf)) (candidates ns tr)).

Definition occurrences (c : cycle) (l : list cycle) : nat :=
  length (filter (eqb c) l).

Lemma scan_node_fold es tr node st :
  scan_node es tr node st
  = fold_left (fun st c => record_cycle c st)
      (map (fun sf => slice (fst sf) (snd sf) tr)
           (filter (fun sf => is_counted es tr (fst sf) (snd sf))
                   (adjacent (indices_where (fun e => eqb e node) tr)))) st.
Proof.
  unfold scan_node.
  generalize (adjacent (indices_where (fun e => eqb e node) tr)). intro l.
  revert st. induction l as [| [s f] l IH]; intro st; [reflexivity |].
  cbn [fold_left filter fst snd].
  destruct (is_counted es tr s f); cbn [map fold_left fst snd]; apply IH.
Qed.

Lemma scan_case_cycles_fold ns es cycles tr :
  scan_case_cycles ns es cycles tr
  = fst (fold_left (fun st c => record_cycle c st) (counted_cycles ns es tr)
           (cycles, [])).
Proof.
  unfold scan_case_cycles, counted_cycles, candidates. f_equal.
  generalize (cycles, @nil (list value)). generalize (keys ns). intro l.
  induction l as [| node l IH]; intro st; [reflexivity |].
  cbn [fold_left flat_map]. rewrite filter_app, map_app, fold_left_app.
  rewrite IH, scan_node_fold. reflexivity.
Qed.

Lemma elem_add {A} `{Eqb A} (x y : A) s : elem x (add y s) = elem x s || eqb x y.
Proof.
  unfold add. destruct (elem y s) eqn:E.
  - destruct (eqb x y) eqn:Exy; [| rewrite orb_false_r; reflexivity].
    apply eqb_eq in Exy. subst. rewrite E. reflexivity.
  - unfold elem. rewrite existsb_app. simpl. rewrite orb_false_r. reflexivity.
Qed.

(** The entry of a cycle after [m] more occurrences within one case. *)
Definition bump_cycle (old : option (nat * nat)) (m : nat) (seen : bool)
  : option (nat * nat) :=
  match m with
  | 0 => old
  | S _ => Some (match old with
                 | None => (m, if seen then 0 else 1)
                 | Some (n, k) => (n + m, if seen then k else S k)
                 end)
  end.

Definition next_entry (old : option (nat * nat)) (seen : bool) : nat * nat :=
  match old with
  | None => (1, if seen then 0 else 1)
  | Some (n, k) => (S n, if seen then k else S k)
  end.

Lemma record_cycle_eq c cycles seen :
  record_cycle c (cycles, seen)
  = (set c (next_entry (get c cycles) (elem c seen)) cycles,
     if elem c seen then seen else add c seen).
Proof.
  unfold record_cycle, next_entry.
  destruct (get c cycles) as [[n k] |]; destruct (elem c seen); reflexivity.
Qed.

Lemma record_cycle_fold l : forall cycles seen c,
  let st' := fold_left (fun st c => record_cycle c st) l (cycles, seen) in
  get c (fst st') = bump_cycle (get c cycles) (occurrences c l) (elem c seen) /\
  elem c (snd st') = elem c seen || negb (occurrences c l =? 0).
Proof.
  induction l as [| c0 l IH]; intros cycles seen c.
  - simpl. rewrite orb_false_r. auto.
  - cbn [fold_left]. rewrite record_cycle_eq.
    match goal with
    | |- context [fold_left _ l (?cy, ?se)] => destruct (IH cy se c) as [IH1 IH2]
    end.
    cbv zeta in IH1, IH2 |- *.
    assert (Hocc : occurrences c (c0 :: l)
                   = (if eqb c c0 then S (occurrences c l) else occurrences c l)).
    { unfold occurrences. cbn [filter]. destruct (eqb c c0); reflexivity. }
    rewrite Hocc. clear Hocc.
    split; [etransitivity; [exact IH1 |] | etransitivity; [exact IH2 |]];
      clear IH1 IH2.
    + destruct (eqb c c0) eqn:Ec.
      * apply eqb_eq in Ec. subst c0. rewrite get_set_same.
        assert (Hseen : elem c (if elem c seen then seen else add c seen) = true).
        { destruct (elem c seen) eqn:E; [assumption |].
          rewrite elem_add, eqb_refl, orb_true_r. reflexivity. }
        rewrite Hseen.
        unfold next_entry. destruct (get c cycles) as [[n k] |];
          destruct (elem c seen); destruct (occurrences c l);
          cbn [bump_cycle]; do 2 f_equal; lia.
      * assert (Hne : c0 <> c) by (apply eqb_neq in Ec; congruence).
        rewrite (get_set_other _ _ Hne).
        destruct (elem c0 seen); [reflexivity |].
        rewrite elem_add, Ec, orb_false_r. reflexivity.
    + destruct (eqb c c0) eqn:Ec.
      * apply eqb_eq in Ec. subst c0. cbn [Nat.eqb negb]. rewrite orb_true_r.
        destruct (elem c seen) eqn:E; [rewrite E; reflexivity |].
        rewrite elem_add, eqb_refl, orb_true_r. reflexivity.
      * destruct (elem c0 seen); [reflexivity |].
        rewrite elem_add, Ec, orb_false_r. reflexivity.
Qed.

Lemma scan_case_cycles_get ns es cycles tr c :
  get c (scan_case_cycles ns es cycles tr)
  = LogModel.after_case (get c cycles) (Some true)
      (occurrences c (counted_cycles ns es tr)).
Proof.
  rewrite scan_case_cycles_fold.
  destruct (record_cycle_fold (counted_cycles ns es tr) cycles [] c) as [H1 _].
  cbv zeta in H1. rewrite H1. unfold bump_cycle, LogModel.after_case. simpl.
  destruct (occurrences c (counted_cycles ns es tr)) as [| m]; [reflexivity |].
  destruct (get c cycles) as [[n k] |]; reflexivity.
Qed.

Lemma after_log_step old m rest cs :
  (rest = 0 -> cs = 0) ->
  LogModel.after_log (LogModel.after_case old (Some true) m) rest cs
  = LogModel.after_log old (m + rest) (if negb (m =? 0) then S cs else cs).
Proof.
  intro Hz. destruct m as [| m]; cbn [Nat.eqb negb Nat.add]; [reflexivity |].
  unfold LogModel.after_log, LogModel.after_case.
  destruct old as [[n k] |]; destruct rest as [| r];
    try rewrite (Hz eq_refl); do 2 f_equal; lia.
Qed.

Lemma count_cycles_get ns es traces c : forall cycles,
  get c (fold_left (scan_case_cycles ns es) traces cycles)
  = LogModel.after_log (get c cycles)
      (list_sum (map (fun tr => occurrences c (counted_cycles ns es tr)) traces))
      (length (filter (fun tr => negb (occurrences c (counted_cycles ns es tr) =? 0))
                      traces)).
Proof.
  induction traces as [| tr traces IH]; intro cycles; [reflexivity |].
  cbn [fold_left]. rewrite IH, scan_case_cycles_get. clear IH.
  etransitivity; [apply after_log_step |].
  - clear. induction traces as [| t ts IHt]; simpl; [reflexivity |].
    destruct (occurrences c (counted_cycles ns es t)); simpl; [auto | discriminate].
  - cbn [map filter].
    destruct (occurrences c (counted_cycles ns es tr) =? 0); reflexivity.
Qed.

Lemma adjacent_sorted_In (l : list nat) s f :
  StronglySorted lt l ->
  In (s, f) (adjacent l) <->
  In s l /\ In f l /\ s < f /\ forall i, In i l -> ~ (s < i < f).
Proof.
  unfold adjacent. induction 1 as [| x l Hs IH Hall].
  - simpl. tauto.
  - rewrite Forall_forall in Hall. destruct l as [| y l'].
    + simpl. split; [tauto |]. intros [[<- | []] [[<- | []] [Hlt _]]]. lia.
    + cbn [tl combine] in *. split.
      * intros [Heq | Hin].
        -- inversion Heq; subst x y. pose proof (Hall f (or_introl eq_refl)).
           split; [left; reflexivity |]. split; [right; left; reflexivity |].
           split; [assumption |].
           intros i [<- | [<- | Hi]]; [lia | lia |].
           inversion Hs as [| ? ? _ Hall']; subst.
           rewrite Forall_forall in Hall'. specialize (Hall' i Hi). lia.
        -- apply IH in Hin. destruct Hin as [H1 [H2 [H3 H4]]].
           split; [right; assumption |]. split; [right; assumption |].
           split; [assumption |].
           intros i [<- | Hi]; [| auto]. specialize (Hall s H1). lia.
      * intros [H1 [H2 [H3 H4]]].
        destruct H1 as [<- | H1].
        -- left. destruct H2 as [<- | H2]; [lia |].
           assert (Hy : ~ (x < y < f)) by (apply H4; right; left; reflexivity).
           pose proof (Hall y (or_introl eq_refl)).
           destruct H2 as [<- | H2]; [reflexivity |].
           inversion Hs as [| ? ? _ Hall']; subst.
           rewrite Forall_forall in Hall'. specialize (Hall' f H2). lia.
        -- right. apply IH. split; [assumption |].
           destruct H2 as [<- | H2]; [specialize (Hall s H1); lia |].
           split; [assumption |]. split; [assumption |].
           intros i Hi. apply H4. right; assumption.
Qed.

(** The candidates are the pairs of consecutive occurrences of a retained
    node. *)
Lemma candidates_spec ns tr s f :
  In (s, f) (candidates ns tr) <->
  exists node,
    In node (keys ns) /\
    nth_error tr s = Some node /\ nth_error tr f = Some node /\
    s < f /\ forall i, s < i < f -> nth_error tr i <> Some node.
Proof.
  unfold candidates. rewrite in_flat_map.
  assert (Hocc : forall node i,
    In i (indices_where (fun e => eqb e node) tr) <-> nth_error tr i = Some node).
  { intros node i. rewrite indices_where_In. split.
    - intros [x [Hx Heq]]. apply eqb_eq in Heq. subst. assumption.
    - intro Hx. exists node. split; [assumption | apply eqb_refl]. }
  split; intros [node [Hnode H]]; exists node; (split; [assumption |]).
  - apply adjacent_sorted_In in H; [| apply indices_where_sorted].
    destruct H as [H1 [H2 [H3 H4]]]. rewrite Hocc in H1, H2.
    repeat split; try assumption.
    intros i Hi Hx. apply (H4 i); [apply Hocc |]; assumption.
  - destruct H as [H1 [H2 [H3 H4]]].
    apply adjacent_sorted_In; [apply indices_where_sorted |].
    rewrite !Hocc. repeat split; try assumption.
    intros i Hi Hbetween. apply Hocc in Hi. exact (H4 i Hbetween Hi).
Qed.

(** C2. In [find_cycles], the candidates of a trace are the pairs [(s, f)]
    of consecutive occurrences of a retained node; the slice [trace[s:f]] of a
    candidate is counted if and only if its length is the number of its
    distinct activities and every transition at a position of [[s, f)] is an
    edge of the graph.  The absolute frequency of a cycle is the number of
    its counted occurrences over all traces (one increment each), its
    distinct-case frequency the number of traces with at least one counted
    occurrence (at most one increment per case); a cycle without counted
    occurrence has no entry. *)
Theorem find_cycles_counting
  (ns : dict value (nat * Z)) (es : dict edge (nat * nat)) (traces : list trace) :
  (forall tr s f,
     In (s, f) (candidates ns tr) <->
     exists node,
       In node (keys ns) /\
       nth_error tr s = Some node /\ nth_error tr f = Some node /\
       s < f /\ forall i, s < i < f -> nth_error tr i <> Some node) /\
  (forall tr s f, is_counted es tr s f = true <-> cycle_condition es tr s f) /\
  forall c,
    let occ := fun tr => occurrences c (counted_cycles ns es tr) in
    get c (count_cycles ns es traces)
    = if list_sum (map occ traces) =? 0 then None
      else Some (list_sum (map occ traces),
                 length (filter (fun tr => negb (occ tr =? 0)) traces)).
Proof.
  split; [intros; apply candidates_spec |].
  split; [intros; apply is_counted_spec |].
  intros c occ. unfold count_cycles. rewrite count_cycles_get. subst occ.
  cbn [get]. unfold LogModel.after_log.
  destruct (list_sum _); reflexivity.
Qed.

(* ================================================================== *)
(** ** Rotations of a cycle *)

Lemma slice_to_end {A} i (c : list A) : slice i (length c) c = skipn i c.
Proof. unfold slice. apply firstn_all2. rewrite length_skipn. lia. Qed.

Lemma slice_from_start {A} i (c : list A) : slice 0 i c = firstn i c.
Proof. unfold slice. rewrite Nat.sub_0_r. reflexivity. Qed.

Lemma rotations_In r c :
  In r (rotations c) <-> exists i, i < length c /\ r = skipn i c ++ firstn i c.
Proof.
  unfold rotations. rewrite in_map_iff. split.
  - intros [i [<- Hi]]. apply in_seq in Hi. exists i.
    rewrite slice_to_end, slice_from_start. split; [lia | reflexivity].
  - intros [i [Hi ->]]. exists i.
    rewrite slice_to_end, slice_from_start. split; [reflexivity |].
    apply in_seq. lia.
Qed.

(** A rotation swaps a prefix and a suffix. *)
Lemma rotation_split r c :
  In r (rotations c) <-> c <> [] /\ exists u v, c = u ++ v /\ r = v ++ u.
Proof.
  rewrite rotations_In. split.
  - intros [i [Hi ->]]. split; [destruct c; [simpl in Hi; lia | discriminate] |].
    exists (firstn i c), (skipn i c). split; [| reflexivity].
    symmetry. apply firstn_skipn.
  - intros [Hne [u [v [-> ->]]]]. destruct v as [| x v].
    + exists 0. rewrite app_nil_r in *. split.
      * destruct u; [contradiction | simpl; lia].
      * simpl. rewrite app_nil_r. reflexivity.
    + exists (length u). split.
      * rewrite length_app. simpl. lia.
      * rewrite skipn_app, firstn_app, Nat.sub_diag, skipn_all, firstn_all.
        simpl. rewrite app_nil_r. reflexivity.
Qed.

Lemma rotation_refl c : c <> [] -> In c (rotations c).
Proof.
  intro Hne. apply rotation_split. split; [assumption |].
  exists [], c. rewrite app_nil_r. auto.
Qed.

Lemma rotation_nonempty r c : In r (rotations c) -> r <> [] /\ c <> [].
Proof.
  intro H. apply rotation_split in H. destruct H as [Hne [u [v [-> ->]]]].
  split; [| assumption].
  destruct u, v; try discriminate. contradiction.
Qed.

Lemma rotation_sym r c : In r (rotations c) -> In c (rotations r).
Proof.
  intro H. pose proof (rotation_nonempty _ _ H) as [Hr _].
  apply rotation_split in H. destruct H as [_ [u [v [-> ->]]]].
  apply rotation_split. split; [assumption |]. exists v, u. auto.
Qed.

Lemma rotation_trans a b c :
  In a (rotations b) -> In b (rotations c) -> In a (rotations c).
Proof.
  intros Hab Hbc.
  apply rotation_split in Hab. destruct Hab as [_ [u' [v' [Hb ->]]]].
  apply rotation_split in Hbc. destruct Hbc as [Hc [u [v [-> Hb']]]].
  apply rotation_split. split; [assumption |].
  rewrite Hb in Hb'. apply app_eq_app in Hb'.
  destruct Hb' as [l [[-> ->] | [-> ->]]].
  - exists l, (v' ++ v). rewrite <- !app_assoc. auto.
  - exists (u ++ u'), l. rewrite <- !app_assoc. auto.
Qed.

Lemma rotation_perm r c : In r (rotations c) -> Permutation r c.
Proof.
  intro H. apply rotation_split in H. destruct H as [_ [u [v [-> ->]]]].
  apply Permutation_app_comm.
Qed.

Lemma rotation_head i (c : cycle) d :
  i < length c -> nth 0 (skipn i c ++ firstn i c) d = nth i c d.
Proof.
  intro Hi.
  transitivity (nth i (firstn i c ++ skipn i c) d);
    [| rewrite firstn_skipn; reflexivity].
  assert (L : length (firstn i c) = i) by (rewrite length_firstn; lia).
  rewrite (app_nth2 (firstn i c)) by lia. rewrite L, Nat.sub_diag.
  destruct (skipn i c) as [| x l] eqn:E; [| reflexivity].
  exfalso. pose proof (length_skipn i c) as L'. rewrite E in L'. simpl in L'. lia.
Qed.

Lemma rotations_NoDup c : NoDup c -> NoDup (rotations c).
Proof.
  intro ND. unfold rotations. apply NoDup_map_NoDup_ForallPairs; [| apply seq_NoDup].
  intros i j Hi Hj Heq. apply in_seq in Hi. apply in_seq in Hj.
  rewrite !slice_to_end, !slice_from_start in Heq.
  apply (proj1 (NoDup_nth c (Str "")) ND); try lia.
  rewrite <- (@rotation_head i c (Str "")) by lia.
  rewrite <- (@rotation_head j c (Str "")) by lia.
  rewrite Heq. reflexivity.
Qed.

(** *** The counted cycles are duplicate-free and not empty *)

Lemma distinct_length_le {A} `{Eqb A} (l : list A) : length (distinct l) <= length l.
Proof.
  induction l as [| x l IH]; simpl; [lia |].
  pose proof (filter_length_le (fun y => negb (eqb y x)) (distinct l)). lia.
Qed.

Lemma filter_length_all {A} (p : A -> bool) (l : list A) :
  length (filter p l) = length l -> forall y, In y l -> p y = true.
Proof.
  induction l as [| x l IH]; simpl; [tauto |].
  pose proof (filter_length_le p l).
  destruct (p x) eqn:E; simpl; intros Hlen y [<- | Hy]; auto; lia.
Qed.

Lemma distinct_length_NoDup {A} `{Eqb A} (l : list A) :
  length (distinct l) = length l -> NoDup l.
Proof.
  induction l as [| x l IH]; simpl; intro Hlen; constructor.
  - pose proof (filter_length_le (fun y => negb (eqb y x)) (distinct l)).
    pose proof (distinct_length_le l).
    assert (Hf : length (filter (fun y => negb (eqb y x)) (distinct l))
                 = length (distinct l)) by lia.
    intro Hin. apply distinct_In in Hin.
    pose proof (filter_length_all _ _ Hf x Hin) as X. simpl in X.
    rewrite eqb_refl in X. discriminate.
  - apply IH.
    pose proof (filter_length_le (fun y => negb (eqb y x)) (distinct l)).
    pose proof (distinct_length_le l). lia.
Qed.

Lemma adjacent_sorted_lt (l : list nat) s f :
  StronglySorted lt l -> In (s, f) (adjacent l) -> s < f.
Proof.
  unfold adjacent. induction 1 as [| x l Hs IH Hall]; [intros [] |].
  destruct l as [| y l]; [intros [] |].
  cbn [tl combine]. intros [Heq | Hin].
  - inversion Heq; subst. inversion Hall; assumption.
  - apply IH. exact Hin.
Qed.

Lemma counted_cycles_shape ns es tr c :
  In c (counted_cycles ns es tr) -> c <> [] /\ NoDup c.
Proof.
  unfold counted_cycles, candidates. rewrite in_map_iff.
  intros [[s f] [<- Hin]]. apply filter_In in Hin. destruct Hin as [Hcand Hcnt].
  cbn [fst snd] in *.
  apply in_flat_map in Hcand. destruct Hcand as [node [_ Hadj]].
  apply adjacent_sorted_lt in Hadj; [| apply indices_where_sorted].
  apply is_counted_spec in Hcnt. destruct Hcnt as [Hlen _].
  pose proof (distinct_length_le (slice s f tr)) as Hle.
  assert (Hsl : length (slice s f tr) <= f - s).
  { unfold slice. rewrite length_firstn. lia. }
  split.
  - intro E. rewrite E in Hlen. simpl in Hlen. lia.
  - apply distinct_length_NoDup. lia.
Qed.

Lemma occurrences_In c l : occurrences c l <> 0 <-> In c l.
Proof.
  unfold occurrences. split.
  - intro Hne. destruct (filter (eqb c) l) as [| x r] eqn:E; [contradiction |].
    assert (Hx : In x (filter (eqb c) l)) by (rewrite E; left; reflexivity).
    apply filter_In in Hx. destruct Hx as [Hx Heq].
    apply eqb_eq in Heq. subst. assumption.
  - intros Hin Hz.
    assert (Hx : In c (filter (eqb c) l)).
    { apply filter_In. split; [assumption | apply eqb_refl]. }
    destruct (filter (eqb c) l); [contradiction | discriminate].
Qed.

Lemma count_cycles_keys ns es traces c :
  In c (keys (count_cycles ns es traces)) ->
  exists tr, In tr traces /\ In c (counted_cycles ns es tr).
Proof.
  intro Hin. apply get_Some_keys in Hin. destruct Hin as [v Hv].
  unfold count_cycles in Hv. rewrite count_cycles_get in Hv. cbn [get] in Hv.
  unfold LogModel.after_log in Hv.
  destruct (list_sum _) eqn:Esum; [discriminate |]. clear Hv.
  induction traces as [| tr traces IH]; [discriminate |].
  cbn [map list_sum fold_right] in Esum.
  destruct (occurrences c (counted_cycles ns es tr)) eqn:Eocc.
  - destruct IH as [tr' [Hin Hc]]; [exact Esum |]. exists tr'. split; [right |]; assumption.
  - exists tr. split; [left; reflexivity |]. apply occurrences_In. lia.
Qed.

Lemma count_cycles_shape ns es traces c :
  In c (keys (count_cycles ns es traces)) -> c <> [] /\ NoDup c.
Proof.
  intro Hin. apply count_cycles_keys in Hin. destruct Hin as [tr [_ Hc]].
  exact (counted_cycles_shape _ _ _ _ Hc).
Qed.

Lemma record_cycle_NoDup l : forall cycles seen,
  NoDup (keys cycles) ->
  NoDup (keys (fst (fold_left (fun st c => record_cycle c st) l (cycles, seen)))).
Proof.
  induction l as [| c l IH]; intros cycles seen ND; [exact ND |].
  cbn [fold_left]. rewrite record_cycle_eq. apply IH.
  apply NoDup_keys_set. assumption.
Qed.

Lemma count_cycles_NoDup ns es traces : NoDup (keys (count_cycles ns es traces)).
Proof.
  unfold count_cycles.
  assert (H : forall cycles, NoDup (keys cycles) ->
                NoDup (keys (fold_left (scan_case_cycles ns es) traces cycles))).
  { induction traces as [| tr traces IH]; intros cycles ND; [exact ND |].
    cbn [fold_left]. apply IH. rewrite scan_case_cycles_fold.
    apply record_cycle_NoDup. assumption. }
  apply H. constructor.
Qed.

(** *** Merging the rotations *)

(** The counts of a rotation class: the sums, over the entries of the raw
    mapping whose key is a rotation of [r], of the two counters. *)
Definition class_counts (raw : cycle_counts) (r : cycle) : nat * nat :=
  let members := filter (fun e => elem (fst e) (rotations r)) raw in
  (list_sum (map (fun e => fst (snd e)) members),
   list_sum (map (fun e => snd (snd e)) members)).

Lemma NoDup_keys_items {K V} (d : dict K V) : NoDup (keys d) -> NoDup d.
Proof. apply NoDup_map_inv. Qed.

Lemma sum_counts_class (raw : cycle_counts) cycle_seq r :
  NoDup (keys raw) -> NoDup cycle_seq ->
  (forall x, In x cycle_seq <-> In x (rotations r)) ->
  sum_counts raw cycle_seq = class_counts raw r.
Proof.
  intros NDraw NDseq Hseq. unfold sum_counts, class_counts.
  set (L1 := flat_map (fun c => match get c raw with
                                | Some v => [(c, v)]
                                | None => []
                                end) cycle_seq).
  set (L2 := filter (fun e => elem (fst e) (rotations r)) raw).
  assert (Hpresent : flat_map (fun c => match get c raw with
                                         | Some v => [v]
                                         | None => []
                                         end) cycle_seq = map snd L1).
  { subst L1. clear. induction cycle_seq as [| c l IH]; [reflexivity |].
    cbn [flat_map]. rewrite map_app, IH.
    destruct (get c raw); reflexivity. }
  rewrite Hpresent, !map_map.
  assert (HL1 : forall k v, In (k, v) L1 <-> In k cycle_seq /\ get k raw = Some v).
  { intros k v. subst L1. rewrite in_flat_map. split.
    - intros [c [Hc Hin]]. destruct (get c raw) as [w |] eqn:E; [| contradiction].
      destruct Hin as [Heq | []]. inversion Heq; subst. auto.
    - intros [Hk Hv]. exists k. split; [assumption |]. rewrite Hv. left; reflexivity. }
  assert (ND1 : NoDup L1).
  { subst L1. clear - NDseq. induction NDseq as [| c l Hc _ IH]; [constructor |].
    cbn [flat_map]. destruct (get c raw) as [v |]; [| exact IH].
    cbn [app]. constructor; [| exact IH].
    rewrite in_flat_map. intros [c' [Hc' Hin]].
    destruct (get c' raw); [| contradiction].
    destruct Hin as [Heq | []]. inversion Heq; subst. contradiction. }
  assert (ND2 : NoDup L2) by (apply NoDup_filter, NoDup_keys_items; assumption).
  assert (Hperm : Permutation L1 L2).
  { apply NoDup_Permutation; [assumption | assumption |].
    intros [k v]. rewrite HL1. subst L2. rewrite filter_In. cbn [fst].
    rewrite elem_In, Hseq. split.
    - intros [Hk Hv]. split; [apply get_In |]; assumption.
    - intros [Hin Hk]. split; [assumption | apply In_get; assumption]. }
  f_equal; apply Permutation_list_sum, Permutation_map; assumption.
Qed.

Lemma fold_add_In {A} `{Eqb A} (l : list A) : forall s x,
  In x (fold_left (fun s y => add y s) l s) <-> In x s \/ In x l.
Proof.
  induction l as [| y l IH]; intros s x; [simpl; tauto |].
  cbn [fold_left]. rewrite IH. unfold add.
  destruct (elem y s) eqn:E.
  - apply elem_In in E. simpl. split; [tauto |].
    intros [Hx | [<- | Hx]]; auto.
  - rewrite in_app_iff. simpl. tauto.
Qed.

Lemma rotation_ranks_keys order cycle_seq : forall d ranks,
  fold_left (fun acc c =>
    d <- acc ;; c0 <- hd_error c ;; i <- index_of c0 order ;; Some (set c i d))
    cycle_seq (Some d) = Some ranks ->
  NoDup (keys d) ->
  NoDup (keys ranks) /\ forall x, In x (keys ranks) <-> In x (keys d) \/ In x cycle_seq.
Proof.
  induction cycle_seq as [| c l IH]; intros d ranks Hf ND.
  - simpl in Hf. inversion Hf; subst. split; [assumption | simpl; tauto].
  - cbn [fold_left bind] in Hf.
    destruct (hd_error c) as [c0 |]; cbn [bind] in Hf.
    + destruct (index_of c0 order) as [i |]; cbn [bind] in Hf.
      * destruct (IH _ _ Hf (@NoDup_keys_set _ _ _ c i d ND)) as [ND' Hin].
        split; [assumption |]. intro x. rewrite Hin, keys_set.
        destruct (mem c d) eqn:Em.
        -- apply mem_keys in Em. simpl. split; [tauto |].
           intros [Hx | [<- | Hx]]; auto.
        -- rewrite in_app_iff. simpl. tauto.
      * exfalso. clear - Hf. induction l; simpl in Hf; [discriminate | auto].
    + exfalso. clear - Hf. induction l; simpl in Hf; [discriminate | auto].
Qed.

Lemma min_key_In {K} `{Eqb K} (d : dict K nat) k : min_key d = Some k -> In k (keys d).
Proof.
  unfold min_key. destruct (keys d) as [| k0 ks] eqn:E; [discriminate |].
  assert (Hfold : forall l best r,
    fold_left (fun best k =>
      b <- best ;; vb <- get b d ;; vk <- get k d ;;
      Some (if vk <? vb then k else b)) l (Some best) = Some r ->
    r = best \/ In r l).
  { induction l as [| x l IH]; intros best r Hf.
    - simpl in Hf. inversion Hf. auto.
    - cbn [fold_left bind] in Hf.
      destruct (get best d) as [vb |]; cbn [bind] in Hf;
        [| exfalso; clear - Hf; induction l; simpl in Hf; [discriminate | auto]].
      destruct (get x d) as [vk |]; cbn [bind] in Hf;
        [| exfalso; clear - Hf; induction l; simpl in Hf; [discriminate | auto]].
      apply IH in Hf. destruct (vk <? vb); simpl; destruct Hf; subst; auto. }
  intro Hm. apply Hfold in Hm. simpl. destruct Hm; auto.
Qed.

(** The state of the merging loop after the keys [done] of the raw mapping:
    [left] holds the rotations of the keys seen so far, and [sum_cycles] one
    entry for each of their rotation classes. *)
Record merge_inv (raw : cycle_counts) (done : list cycle)
  (st : cycle_counts * list cycle) : Prop := {
  inv_left : forall x, In x (snd st) <-> exists c, In c done /\ In x (rotations c);
  inv_nodup : NoDup (keys (fst st));
  inv_entry : forall r, In r (keys (fst st)) ->
                (exists c, In c done /\ In r (rotations c)) /\
                get r (fst st) = Some (class_counts raw r);
  inv_cover : forall c, In c done ->
                exists r, In r (keys (fst st)) /\ In r (rotations c);
  inv_unique : forall r r', In r (keys (fst st)) -> In r' (keys (fst st)) ->
                 In r' (rotations r) -> r' = r
}.

Lemma merge_inv_init raw : merge_inv raw [] merge_init.
Proof.
  constructor; simpl.
  - intro x. split; [tauto | intros [c [[] _]]].
  - constructor.
  - intros r [].
  - intros c [].
  - intros r r' [].
Qed.

(** The representative and the rotations that one pass of the loop uses. *)
Lemma merge_representative order c rep cycle_seq :
  c <> [] -> NoDup c ->
  match order with
  | Some ordered_nodes =>
      ranks <- rotation_ranks ordered_nodes (rotations c) ;;
      rep <- min_key ranks ;;
      Some (rep, keys ranks)
  | None => Some (c, rotations c)
  end = Some (rep, cycle_seq) ->
  NoDup cycle_seq /\
  (forall x, In x cycle_seq <-> In x (rotations c)) /\
  In rep (rotations c).
Proof.
  intros Hne ND. destruct order as [ordered_nodes |].
  - destruct (rotation_ranks ordered_nodes (rotations c)) as [ranks |] eqn:Er;
      [| discriminate].
    cbn [bind]. destruct (min_key ranks) as [k |] eqn:Ek; [| discriminate].
    cbn [bind]. intro X. inversion X; subst k cycle_seq. clear X.
    unfold rotation_ranks in Er.
    destruct (rotation_ranks_keys _ _ _ Er (NoDup_nil _)) as [NDk Hin].
    assert (Hin' : forall x, In x (keys ranks) <-> In x (rotations c)).
    { intro x. rewrite Hin. simpl. tauto. }
    split; [assumption |]. split; [assumption |].
    apply Hin'. apply min_key_In. assumption.
  - intro X. inversion X; subst.
    split; [apply rotations_NoDup; assumption |].
    split; [tauto | apply rotation_refl; assumption].
Qed.

Lemma merge_cycle_step raw order done c st st' :
  NoDup (keys raw) ->
  c <> [] -> NoDup c ->
  merge_inv raw done st ->
  merge_cycle raw order c st = Some st' ->
  merge_inv raw (done ++ [c]) st'.
Proof.
  intros NDraw Hne NDc [Hleft Hnd Hentry Hcover Huniq].
  destruct st as [sum_cycles left_]. cbn [fst snd] in *.
  unfold merge_cycle.
  assert (Hdone : forall x, In x (done ++ [c]) <-> In x done \/ x = c).
  { intro x. rewrite in_app_iff. simpl. intuition congruence. }
  destruct (elem c left_) eqn:Eleft.
  - (* a rotation of [c] was processed earlier *)
    intro X. inversion X; subst st'. clear X. cbn [fst snd].
    apply elem_In, Hleft in Eleft. destruct Eleft as [c0 [Hc0 Hrot]].
    constructor; cbn [fst snd].
    + intro x. rewrite Hleft. split.
      * intros [c' [Hc' Hx]]. exists c'. rewrite Hdone. auto.
      * intros [c' [Hc' Hx]]. apply Hdone in Hc'. destruct Hc' as [Hc' | ->].
        -- eauto.
        -- exists c0. split; [assumption |]. eapply rotation_trans; eassumption.
    + assumption.
    + intros r Hr. destruct (Hentry r Hr) as [[c' [Hc' Hx]] Hget].
      split; [| assumption]. exists c'. rewrite Hdone. auto.
    + intros c' Hc'. apply Hdone in Hc'. destruct Hc' as [Hc' | ->]; [auto |].
      destruct (Hcover c0 Hc0) as [r [Hr Hrc0]]. exists r. split; [assumption |].
      eapply rotation_trans; [eassumption |]. apply rotation_sym. assumption.
    + assumption.
  - (* a new rotation class *)
    destruct (match order with
              | Some ordered_nodes =>
                  ranks <- rotation_ranks ordered_nodes (rotations c) ;;
                  rep <- min_key ranks ;; Some (rep, keys ranks)
              | None => Some (c, rotations c)
              end) as [[rep cycle_seq] |] eqn:Erep; [| discriminate].
    cbn [bind]. intro X. inversion X; subst st'. clear X. cbn [fst snd].
    destruct (merge_representative _ Hne NDc Erep) as [NDseq [Hseq Hrep]].
    assert (Hnew : forall c0, In c0 done -> ~ In rep (rotations c0)).
    { intros c0 Hc0 Hrot.
      assert (Hc : In c left_).
      { apply Hleft. exists c0. split; [assumption |].
        eapply rotation_trans; [| eassumption]. apply rotation_sym. assumption. }
      apply elem_In in Hc. congruence. }
    assert (Hfresh : ~ In rep (keys sum_cycles)).
    { intro Hr. destruct (Hentry rep Hr) as [[c0 [Hc0 Hrot]] _].
      exact (Hnew c0 Hc0 Hrot). }
    assert (Hkeys : forall x, In x (keys (set rep (sum_counts raw cycle_seq) sum_cycles))
                              <-> In x (keys sum_cycles) \/ x = rep).
    { intro x. rewrite keys_set.
      destruct (mem rep sum_cycles) eqn:Em.
      - apply mem_keys in Em. contradiction.
      - rewrite in_app_iff. simpl. intuition congruence. }
    constructor; cbn [fst snd].
    + intro x. rewrite fold_add_In, Hleft, Hseq. split.
      * intros [[c' [Hc' Hx]] | Hx].
        -- exists c'. rewrite Hdone. auto.
        -- exists c. rewrite Hdone. auto.
      * intros [c' [Hc' Hx]]. apply Hdone in Hc'. destruct Hc' as [Hc' | ->]; eauto.
    + apply NoDup_keys_set. assumption.
    + intros r Hr. apply Hkeys in Hr. destruct Hr as [Hr | ->].
      * destruct (Hentry r Hr) as [[c' [Hc' Hx]] Hget]. split.
        -- exists c'. rewrite Hdone. auto.
        -- rewrite get_set_other; [assumption | congruence].
      * split.
        -- exists c. rewrite Hdone. auto.
        -- rewrite get_set_same. f_equal.
           apply sum_counts_class; [assumption | assumption |].
           intro x. rewrite Hseq. split; intro Hx.
           ++ eapply rotation_trans; [eassumption |]. apply rotation_sym. assumption.
           ++ eapply rotation_trans; eassumption.
    + intros c' Hc'. apply Hdone in Hc'. destruct Hc' as [Hc' | ->].
      * destruct (Hcover c' Hc') as [r [Hr Hrot]]. exists r.
        rewrite Hkeys. auto.
      * exists rep. rewrite Hkeys. auto.
    + intros r r' Hr Hr' Hrot. apply Hkeys in Hr. apply Hkeys in Hr'.
      destruct Hr as [Hr | ->]; destruct Hr' as [Hr' | ->]; auto.
      * exfalso. destruct (Hentry r Hr) as [[c0 [Hc0 Hrc0]] _].
        apply (Hnew c0 Hc0). eapply rotation_trans; eassumption.
      * exfalso. destruct (Hentry r' Hr') as [[c0 [Hc0 Hrc0]] _].
        apply (Hnew c0 Hc0). eapply rotation_trans; [| eassumption].
        apply rotation_sym. assumption.
Qed.

Lemma merge_fold raw order l : forall done st st',
  NoDup (keys raw) ->
  (forall c, In c l -> c <> [] /\ NoDup c) ->
  merge_inv raw done st ->
  fold_left (fun acc c => st <- acc ;; merge_cycle raw order c st) l (Some st)
  = Some st' ->
  merge_inv raw (done ++ l) st'.
Proof.
  induction l as [| c l IH]; intros done st st' NDraw Hshape Hinv Hf.
  - simpl in Hf. inversion Hf; subst. rewrite app_nil_r. assumption.
  - cbn [fold_left bind] in Hf.
    destruct (merge_cycle raw order c st) as [st1 |] eqn:E1.
    + replace (done ++ c :: l) with ((done ++ [c]) ++ l)
        by (rewrite <- app_assoc; reflexivity).
      apply (IH _ st1 _ NDraw); [intros; apply Hshape; right; assumption | | exact Hf].
      destruct (Hshape c (or_introl eq_refl)) as [Hne NDc].
      exact (merge_cycle_step order NDraw Hne NDc Hinv E1).
    + exfalso. clear - Hf. induction l; simpl in Hf; [discriminate | auto].
Qed.

Lemma merge_rotations_total raw :
  exists res, merge_rotations raw None = Some res.
Proof.
  unfold merge_rotations.
  assert (H : forall l st, exists st',
    fold_left (fun acc c => st <- acc ;; merge_cycle raw None c st) l (Some st)
    = Some st').
  { induction l as [| c l IH]; intro st; [exists st; reflexivity |].
    cbn [fold_left bind]. unfold merge_cycle at 2. destruct st as [sum_cycles left_].
    destruct (elem c left_); cbn [bind]; apply IH. }
  destruct (H (keys raw) merge_init) as [st' E]. rewrite E. simpl. eauto.
Qed.

(** C4, as the code has it.  With [ordered = False] the mapping returned by
    [find_cycles] has, for every counted cycle, exactly one entry that is a
    rotation of it, and the two counts of an entry are the sums of the counts
    of the counted cycles that are rotations of it; without [pre_traverse]
    the merge never raises.  With [ordered = True] nothing is merged: the
    mapping returned is the one of the counting pass. *)
Theorem find_cycles_rotations
  (ns : dict value (nat * Z)) (es : dict edge (nat * nat)) (traces : list trace)
  (order : option (list value)) :
  let raw := count_cycles ns es traces in
  find_cycles_from ns es traces order true = Some raw /\
  (exists res, find_cycles_from ns es traces None false = Some res) /\
  forall res,
    find_cycles_from ns es traces order false = Some res ->
    NoDup (keys res) /\
    (forall c, In c (keys raw) ->
       exists r, In r (keys res) /\ In r (rotations c) /\
                 forall r', In r' (keys res) -> In r' (rotations c) -> r' = r) /\
    (forall r, In r (keys res) ->
       (exists c, In c (keys raw) /\ In r (rotations c)) /\
       get r res = Some (class_counts raw r)).
Proof.
  intro raw. split; [reflexivity |]. split; [apply merge_rotations_total |].
  intros res Hres. unfold find_cycles_from in Hres. cbn [negb] in Hres.
  fold raw in Hres. unfold merge_rotations in Hres.
  destruct (fold_left _ (keys raw) (Some merge_init)) as [st |] eqn:Ef;
    [| discriminate].
  cbn [bind] in Hres. inversion Hres; subst res. clear Hres.
  assert (Hinv : merge_inv raw ([] ++ keys raw) st).
  { apply (merge_fold order (keys raw) (done := []) (st := merge_init)).
    - apply count_cycles_NoDup.
    - intros c Hc. exact (count_cycles_shape _ _ _ _ Hc).
    - apply merge_inv_init.
    - exact Ef. }
  cbn [app] in Hinv. destruct Hinv as [_ Hnd Hentry Hcover Huniq].
  split; [assumption |]. split; [| assumption].
  intros c Hc. destruct (Hcover c Hc) as [r [Hr Hrot]].
  exists r. split; [assumption |]. split; [assumption |].
  intros r' Hr' Hrot'. apply (Huniq r r' Hr Hr').
  eapply rotation_trans; [eassumption |]. apply rotation_sym. assumption.
Qed.

(* ================================================================== *)
(** ** Replay score *)

(** The words of the specification: the retained events of a trace, the
    forced transitions met from a position, and the saturating skip flag. *)
Definition retained (ns : dict value (nat * Z)) (e : value) : bool := mem e ns.

Definition retained_events (ns : dict value (nat * Z)) (tr : trace) : list value :=
  filter (retained ns) tr.

Fixpoint forced_transitions (ns : dict value (nat * Z)) (es : dict edge (nat * nat))
  (position : value) (events : trace) : nat :=
  match events with
  | [] => 0
  | e :: rest =>
      if retained ns e then
        if mem (position, e) es then forced_transitions ns es e rest
        else S (forced_transitions ns es position rest)
      else forced_transitions ns es position rest
  end.

Definition skipped_after (ns : dict value (nat * Z)) (events : trace) : nat :=
  if existsb (fun e => negb (retained ns e)) events then 1 else 0.

(** An event of a replayed log is an activity label, a string. *)
Definition is_label (v : value) : Prop :=
  match v with Str _ => True | Tuple _ => False end.

(** The score of one trace, as the specification words it. *)
Definition trace_score_spec (ns : dict value (nat * Z)) (es : dict edge (nat * nat))
  (alpha beta : Q) (tr : trace) (score : Q) : Prop :=
  (Forall (fun e => retained ns e = false) tr -> score = 0%Q) /\
  (forall pre first rest,
     tr = pre ++ first :: rest ->
     Forall (fun e => retained ns e = false) pre ->
     retained ns first = true ->
     score = replay_formula alpha beta
               (length (retained_events ns tr))
               (skipped_after ns rest)
               (forced_transitions ns es first rest)
               (length tr)).

Lemma is_replayed_label ns es e :
  is_label e -> is_replayed_element ns es e = retained ns e.
Proof. destruct e; simpl; [reflexivity | contradiction]. Qed.

Lemma skip_noise_none ns es tr :
  Forall is_label tr ->
  Forall (fun e => retained ns e = false) tr ->
  skip_noise ns es tr = None.
Proof.
  induction 1 as [| e tr He _ IH]; intro Hall; [reflexivity |].
  inversion Hall; subst. simpl. rewrite (@is_replayed_label ns es _ He), H1. auto.
Qed.

Lemma skip_noise_first ns es pre first rest :
  Forall is_label (pre ++ first :: rest) ->
  Forall (fun e => retained ns e = false) pre ->
  retained ns first = true ->
  skip_noise ns es (pre ++ first :: rest) = Some (first, rest).
Proof.
  induction pre as [| e pre IH]; simpl; intros Hl Hpre Hfirst.
  - inversion Hl; subst. rewrite (@is_replayed_label ns es _ H1), Hfirst. reflexivity.
  - inversion Hl; subst. inversion Hpre; subst.
    rewrite (@is_replayed_label ns es _ H1), H3. auto.
Qed.

Lemma replay_loop ns es rest : forall st,
  Forall is_label rest ->
  let st' := fold_left (replay_step ns es) rest st in
  z st' = z st + length (retained_events ns rest) /\
  phi st' = phi st + forced_transitions ns es (actual_node st) rest /\
  delta st' = (if existsb (fun e => negb (retained ns e)) rest then 1 else delta st).
Proof.
  induction rest as [| e rest IH]; intros st Hl; simpl.
  - repeat split; lia.
  - inversion Hl; subst. specialize (IH (replay_step ns es st e) H2).
    simpl in IH. destruct IH as [Hz [Hphi Hdelta]].
    rewrite Hz, Hphi, Hdelta. unfold replay_step.
    rewrite (@is_replayed_label ns es _ H1). unfold retained_events. simpl.
    destruct (retained ns e) eqn:Er; simpl.
    + destruct (mem (actual_node st, e) es) eqn:Ee; simpl;
        repeat split; try lia.
    + repeat split; try lia.
      destruct (existsb (fun e0 => negb (retained ns e0)) rest); reflexivity.
Qed.

Lemma retained_events_prefix ns pre rest :
  Forall (fun e => retained ns e = false) pre ->
  retained_events ns (pre ++ rest) = retained_events ns rest.
Proof.
  induction 1 as [| e pre He _ IH]; [reflexivity |].
  unfold retained_events in *. simpl. rewrite He. exact IH.
Qed.

Lemma trace_replayability_score_spec ns es alpha beta tr :
  tr <> [] -> Forall is_label tr ->
  exists score,
    trace_replayability_score ns es alpha beta tr = Some score /\
    trace_score_spec ns es alpha beta tr score.
Proof.
  intros Hne Hl. unfold trace_replayability_score.
  destruct tr as [| e0 tr0]; [contradiction |].
  set (tr := e0 :: tr0) in *.
  destruct (skip_noise ns es tr) as [[event rest] |] eqn:Eskip.
  - eexists. split; [reflexivity |]. split.
    + intro Hall. rewrite (@skip_noise_none ns es _ Hl Hall) in Eskip. discriminate.
    + intros pre first rest' Heq Hpre Hfirst.
      rewrite Heq in Eskip, Hl.
      rewrite (@skip_noise_first ns es _ _ _ Hl Hpre Hfirst) in Eskip.
      inversion Eskip; subst event rest'.
      assert (Hrest : Forall is_label rest).
      { apply Forall_app in Hl. destruct Hl as [_ Hl]. inversion Hl; assumption. }
      destruct (@replay_loop ns es rest
                  {| z := 1; delta := 0; phi := 0; actual_node := first |} Hrest)
        as [Hz [Hphi Hdelta]].
      simpl in Hz, Hphi, Hdelta. rewrite Hz, Hphi, Hdelta.
      rewrite Heq, (@retained_events_prefix ns pre (first :: rest) Hpre).
      unfold retained_events, skipped_after. simpl. rewrite Hfirst. reflexivity.
  - exists 0%Q. split; [reflexivity |]. split; [reflexivity |].
    intros pre first rest Heq Hpre Hfirst.
    rewrite Heq in Eskip, Hl.
    rewrite (@skip_noise_first ns es _ _ _ Hl Hpre Hfirst) in Eskip. discriminate.
Qed.

(** C5. On a log of non-empty traces of activity labels, every trace has a
    score: 0 when none of its events is a retained node, and otherwise
    |z/len - alpha*delta - beta*phi/len| with z the number of retained events
    (the first one and every later one), phi the forced transitions from the
    current position, and delta 1 exactly when some event after the first
    retained one is not retained; [replayability_score] returns the sum of
    these scores divided by the number of cases. *)
Theorem replayability_score_formula
  (g : Graph) (log : Log) (alpha beta : Q)
  (ns : dict value (nat * Z)) (es : dict edge (nat * nat)) :
  nodes g = Some ns -> edges g = Some es ->
  Forall (fun tr => tr <> [] /\ Forall is_label tr) (values (flat_log log)) ->
  0 < length (cases log) ->
  exists scores,
    Forall2 (trace_score_spec ns es alpha beta) (values (flat_log log)) scores /\
    replayability_score g log alpha beta
    = Some (fold_left Qplus scores 0 / Qnat (length (cases log)))%Q.
Proof.
  intros Hns Hes Hwf Hn. unfold replayability_score. rewrite Hns, Hes. simpl.
  assert (Hfold : forall traces acc,
    Forall (fun tr => tr <> [] /\ Forall is_label tr) traces ->
    exists scores,
      Forall2 (trace_score_spec ns es alpha beta) traces scores /\
      fold_left (fun acc tr =>
                   s <- acc ;; t <- trace_replayability_score ns es alpha beta tr ;;
                   Some (s + t)%Q) traces (Some acc)
      = Some (fold_left Qplus scores acc)).
  { induction traces as [| tr traces IH]; intros acc Hall.
    - exists []. split; [constructor | reflexivity].
    - inversion Hall as [| ? ? [Hne Hl] Hrest]; subst.
      destruct (@trace_replayability_score_spec ns es alpha beta tr Hne Hl)
        as [score [Escore Hspec]].
      destruct (IH (acc + score)%Q Hrest) as [scores [HF2 Efold]].
      exists (score :: scores). split; [constructor; assumption |].
      simpl. rewrite Escore. simpl. exact Efold. }
  destruct (Hfold (values (flat_log log)) 0%Q Hwf) as [scores [HF2 Efold]].
  exists scores. split; [assumption |].
  rewrite Efold. simpl. unfold pydiv. rewrite (Qnat_eq_0 Hn). reflexivity.
Qed.

(* ================================================================== *)
(** ** Fitness *)

Lemma digits_fuel_bound fuel : forall n, n <= fuel -> n < 10 ^ digits_fuel fuel n.
Proof.
  induction fuel as [| fuel IH]; intros n Hn.
  - simpl. lia.
  - cbn [digits_fuel]. destruct (n <? 10) eqn:E.
    + apply Nat.ltb_lt in E. simpl. lia.
    + apply Nat.ltb_ge in E.
      assert (Hdiv : n / 10 <= fuel).
      { pose proof (Nat.div_lt n 10). lia. }
      specialize (IH (n / 10) Hdiv).
      pose proof (Nat.div_mod_eq n 10) as Hm.
      pose proof (Nat.mod_upper_bound n 10).
      rewrite Nat.pow_succ_r'.
      set (p := 10 ^ digits_fuel fuel (n / 10)) in *.
      lia.
Qed.

Lemma decimal_digits_bound n : n < 10 ^ decimal_digits n.
Proof. apply digits_fuel_bound. lia. Qed.

Lemma digits_fuel_lower fuel : forall n,
  n <= fuel -> 1 <= n -> 10 ^ (digits_fuel fuel n - 1) <= n.
Proof.
  induction fuel as [| fuel IH]; intros n Hn H1; [lia |].
  cbn [digits_fuel]. destruct (n <? 10) eqn:E.
  - simpl. lia.
  - apply Nat.ltb_ge in E.
    assert (Hdiv : n / 10 <= fuel).
    { pose proof (Nat.div_lt n 10). lia. }
    assert (H1' : 1 <= n / 10).
    { pose proof (Nat.Div0.div_le_mono 10 n 10 E) as H.
      rewrite Nat.div_same in H; lia. }
    specialize (IH (n / 10) Hdiv H1').
    pose proof (Nat.div_mod_eq n 10) as Hm.
    assert (Hd : 1 <= digits_fuel fuel (n / 10)).
    { destruct fuel; cbn [digits_fuel]; [lia |]. destruct (n / 10 <? 10); lia. }
    replace (S (digits_fuel fuel (n / 10)) - 1)
      with (S (digits_fuel fuel (n / 10) - 1)) by lia.
    rewrite Nat.pow_succ_r'.
    set (p := 10 ^ (digits_fuel fuel (n / 10) - 1)) in *.
    lia.
Qed.

(** [decimal_digits n] is the length of the decimal numeral of [n]. *)
Lemma decimal_digits_exact n :
  1 <= decimal_digits n /\
  n < 10 ^ decimal_digits n /\
  (1 <= n -> 10 ^ (decimal_digits n - 1) <= n).
Proof.
  split; [| split; [apply decimal_digits_bound | apply digits_fuel_lower; lia]].
  unfold decimal_digits. destruct n; cbn [digits_fuel]; [lia |].
  destruct (S n <? 10); lia.
Qed.

Lemma eps_of_pos n : (0 < eps_of n)%Q.
Proof.
  unfold eps_of. apply Qlt_shift_div_l.
  - change 0%Q with (inject_Z 0). rewrite <- Zlt_Qlt. apply Z.pow_pos_nonneg; lia.
  - rewrite Qmult_0_l. reflexivity.
Qed.

Lemma eps_of_le_ratio k n : 1 <= k -> 0 < n -> (eps_of n <= Qnat k / Qnat n)%Q.
Proof.
  intros Hk Hn. unfold eps_of.
  pose proof (decimal_digits_bound n) as Hd.
  set (d := decimal_digits n) in *.
  assert (HD : (Z.of_nat n < 10 ^ Z.of_nat d)%Z).
  { replace (10 ^ Z.of_nat d)%Z with (Z.of_nat (10 ^ d)); [lia |].
    rewrite Nat2Z.inj_pow. reflexivity. }
  assert (Hn' : (0 < Qnat n)%Q).
  { unfold Qnat. change 0%Q with (inject_Z 0). rewrite <- Zlt_Qlt. lia. }
  assert (HD' : (0 < inject_Z (10 ^ Z.of_nat d))%Q).
  { change 0%Q with (inject_Z 0). rewrite <- Zlt_Qlt. lia. }
  apply Qle_shift_div_r; [assumption |].
  apply Qle_trans with (Qnat k * inject_Z (10 ^ Z.of_nat d) / Qnat n)%Q.
  - apply Qle_shift_div_l; [assumption |].
    rewrite Qmult_1_l. unfold Qnat. rewrite <- inject_Z_mult.
    rewrite <- Zle_Qle. nia.
  - apply Qle_lteq. right. field.
    intro X. rewrite X in Hn'. exact (Qlt_irrefl _ Hn').
Qed.

Lemma eps_of_le_1 n : (eps_of n <= 1)%Q.
Proof.
  unfold eps_of.
  assert (HD : (1 <= 10 ^ Z.of_nat (decimal_digits n))%Z).
  { pose proof (Z.pow_pos_nonneg 10 (Z.of_nat (decimal_digits n))). lia. }
  apply Qle_shift_div_r.
  - change 0%Q with (inject_Z 0). rewrite <- Zlt_Qlt. lia.
  - rewrite Qmult_1_l. change 1%Q with (inject_Z 1). rewrite <- Zle_Qle. exact HD.
Qed.

Lemma pydiv_Some a b q : pydiv a b = Some q -> ~ (b == 0)%Q /\ q = (a / b)%Q.
Proof.
  unfold pydiv. destruct (Qeq_bool b 0) eqn:E; [discriminate |].
  intro X. inversion X. split; [| reflexivity].
  intro Y. apply Qeq_bool_iff in Y. congruence.
Qed.

Lemma Qnat_nonneg n : (0 <= Qnat n)%Q.
Proof. unfold Qnat. change 0%Q with (inject_Z 0). rewrite <- Zle_Qle. lia. Qed.

Lemma Qnat_nonzero n : ~ (Qnat n == 0)%Q -> 0 < n.
Proof.
  intro X. destruct n; [| lia]. exfalso. apply X. reflexivity.
Qed.

(** Every entry of the transition table was observed in at least one case. *)
Definition observed_entries (T : LogModel.table) : Prop :=
  forall a b cnt, LogModel.get2 a b T = Some cnt -> 1 <= snd cnt.

Lemma case_count_pos a b traces :
  LogModel.abs_count a b traces <> 0 -> 1 <= LogModel.case_count a b traces.
Proof.
  unfold LogModel.abs_count, LogModel.case_count.
  induction traces as [| tr traces IH]; simpl; [congruence |].
  destruct (LogModel.count_adj a b tr); simpl; [exact IH | lia].
Qed.

(** The tables that [Log.transit_matrix] builds are of this kind. *)
Lemma transit_matrix_observed log T :
  LogModel.transit_matrix log = Some T -> observed_entries T.
Proof.
  unfold LogModel.transit_matrix. intro HT.
  assert (S0 : LogModel.sync [] []) by (split; intros; simpl; tauto).
  assert (A0 : LogModel.all_true []) by (intros x y f; discriminate).
  destruct (LogModel.scan_log_spec (values (flat_log log)) S0 A0) as [st [E HV]].
  assert (E' : LogModel.scan_log (values (flat_log log)) LogModel.empty_state
               = Some st) by exact E.
  rewrite E' in HT. simpl in HT. inversion HT; subst T. clear HT.
  intros a b cnt Hget. rewrite HV in Hget. simpl in Hget.
  unfold LogModel.after_log in Hget.
  destruct (LogModel.abs_count a b (values (flat_log log))) eqn:Eabs;
    [discriminate |].
  inversion Hget; subst cnt. cbn [snd].
  apply case_count_pos. rewrite Eabs. discriminate.
Qed.

Lemma loss_nonneg ADS T n a b l : loss ADS T n a b = Some l -> (0 <= l)%Q.
Proof.
  unfold loss. destruct (LogModel.get2 a b ADS) as [rel |]; [| discriminate]. simpl.
  destruct (String.eqb rel "A"); [intro X; inversion X; discriminate |].
  destruct (String.eqb rel "S").
  - destruct (LogModel.get2 a b T) as [cnt |]; [| discriminate]. simpl.
    intro X. apply pydiv_Some in X. destruct X as [Hn ->].
    apply Qnat_nonzero in Hn.
    apply Qle_shift_div_l.
    + unfold Qnat. change 0%Q with (inject_Z 0). rewrite <- Zlt_Qlt. lia.
    + rewrite Qmult_0_l. apply Qnat_nonneg.
  - intro X. inversion X. apply Qlt_le_weak, eps_of_pos.
Qed.

Lemma loss_ge_eps ADS T n a b l :
  observed_entries T -> loss ADS T n a b = Some l -> (eps_of n <= l)%Q.
Proof.
  intro HT. unfold loss.
  destruct (LogModel.get2 a b ADS) as [rel |]; [| discriminate]. simpl.
  destruct (String.eqb rel "A"); [intro X; inversion X; apply eps_of_le_1 |].
  destruct (String.eqb rel "S").
  - destruct (LogModel.get2 a b T) as [cnt |] eqn:Ecnt; [| discriminate]. simpl.
    intro X. apply pydiv_Some in X. destruct X as [Hn ->].
    apply Qnat_nonzero in Hn. apply eps_of_le_ratio; [| assumption].
    exact (HT _ _ _ Ecnt).
  - intro X. inversion X. apply Qle_refl.
Qed.

Lemma Qnat_S n : (Qnat (S n) == Qnat n + 1)%Q.
Proof.
  unfold Qnat. rewrite Nat2Z.inj_succ. unfold Z.succ.
  rewrite inject_Z_plus. reflexivity.
Qed.

Lemma fold_add_loss_None ADS T n es :
  fold_left (add_loss ADS T n) es None = None.
Proof. induction es as [| e es IH]; simpl; auto. Qed.

(** A run of [losses += loss(...)] over transitions whose loss is at least
    [c] adds at least [c] per transition. *)
Lemma fold_add_loss_bound ADS T n (c : Q) es : forall a v,
  (forall e l, In e es -> loss ADS T n (fst e) (snd e) = Some l -> (c <= l)%Q) ->
  fold_left (add_loss ADS T n) es (Some a) = Some v ->
  (a + Qnat (length es) * c <= v)%Q /\
  Forall (fun e => exists l, loss ADS T n (fst e) (snd e) = Some l /\ (c <= l)%Q) es.
Proof.
  induction es as [| e es IH]; intros a v Hc Hfold.
  - simpl in *. inversion Hfold; subst. split; [| constructor].
    change (Qnat 0) with 0%Q. lra.
  - simpl in Hfold.
    destruct (loss ADS T n (fst e) (snd e)) as [l |] eqn:El.
    + simpl in Hfold.
      assert (Hl : (c <= l)%Q) by (apply (Hc e l); [left; reflexivity | assumption]).
      destruct (IH (a + l)%Q v) as [Hv Hall].
      * intros e' l' Hin. apply Hc. right; assumption.
      * assumption.
      * split; [| constructor; eauto].
        cbn [length]. rewrite Qnat_S. lra.
    + simpl in Hfold. rewrite fold_add_loss_None in Hfold. discriminate.
Qed.

Lemma fold_add_loss_mono ADS T n es a v :
  fold_left (add_loss ADS T n) es (Some a) = Some v -> (a <= v)%Q.
Proof.
  intro Hfold.
  destruct (@fold_add_loss_bound ADS T n 0%Q es a v) as [Hv _]; [| assumption | lra].
  intros e l _ Hl. exact (loss_nonneg _ _ _ _ _ Hl).
Qed.

Lemma trace_loss_None ADS T n edges1 tr : trace_loss ADS T n edges1 None tr = None.
Proof.
  unfold trace_loss. destruct (hd_error tr); [| reflexivity]. simpl.
  rewrite fold_add_loss_None. reflexivity.
Qed.

Lemma trace_loss_mono ADS T n edges1 tr a v :
  trace_loss ADS T n edges1 (Some a) tr = Some v -> (a <= v)%Q.
Proof.
  unfold trace_loss. destruct (hd_error tr) as [first |]; [| discriminate]. simpl.
  destruct (loss ADS T n start first) as [l1 |] eqn:E1; simpl.
  - pose proof (loss_nonneg _ _ _ _ _ E1) as H1.
    destruct (fold_left (add_loss ADS T n)
                (filter (fun e => negb (elem e edges1)) (adjacent tr))
                (Some (a + l1)%Q)) as [m |] eqn:Em; simpl.
    + apply fold_add_loss_mono in Em.
      destruct (loss ADS T n (last tr first) end_) as [l2 |] eqn:E2; simpl;
        [| discriminate].
      pose proof (loss_nonneg _ _ _ _ _ E2) as H2.
      intro X; inversion X; subst. lra.
    + discriminate.
  - rewrite fold_add_loss_None. discriminate.
Qed.

Lemma fold_trace_loss_mono ADS T n edges1 traces : forall a v,
  fold_left (trace_loss ADS T n edges1) traces (Some a) = Some v -> (a <= v)%Q.
Proof.
  induction traces as [| tr traces IH]; intros a v Hfold; simpl in Hfold.
  - inversion Hfold; subst. lra.
  - destruct (trace_loss ADS T n edges1 (Some a) tr) as [m |] eqn:Em.
    + apply trace_loss_mono in Em. apply IH in Hfold. lra.
    + exfalso. clear - Hfold.
      assert (X : forall trs, fold_left (trace_loss ADS T n edges1) trs None = None).
      { induction trs as [| t trs IHt]; simpl; [reflexivity |].
        rewrite trace_loss_None. exact IHt. }
      rewrite X in Hfold. discriminate.
Qed.

(** The transitions of a trace, with the virtual boundary activities. *)
Definition boundary_transitions (tr : trace) : list edge :=
  match tr with
  | [] => []
  | first :: _ => [(start, first); (last tr first, end_)]
  end.

Definition trace_transitions (tr : trace) : list edge :=
  match tr with
  | [] => []
  | first :: _ => (start, first) :: adjacent tr ++ [(last tr first, end_)]
  end.

(** A model replays a log perfectly when every transition of every trace,
    boundary transitions included, is one of its expanded edges. *)
Definition replays_perfectly (edges1 : list edge) (traces : list trace) : Prop :=
  Forall (fun tr => tr <> [] /\ Forall (fun e => In e edges1) (trace_transitions tr))
         traces.

Lemma trace_loss_perfect ADS T n edges1 acc tr :
  tr <> [] -> Forall (fun e => In e edges1) (trace_transitions tr) ->
  trace_loss ADS T n edges1 acc tr
  = fold_left (add_loss ADS T n) (boundary_transitions tr) acc.
Proof.
  intros Hne Hall. destruct tr as [| first tr']; [contradiction |].
  unfold trace_loss, boundary_transitions. cbn [hd_error bind].
  unfold trace_transitions in Hall.
  inversion Hall as [| ? ? _ Hrest]; subst.
  apply Forall_app in Hrest. destruct Hrest as [Hadj _].
  assert (E : filter (fun e => negb (elem e edges1)) (adjacent (first :: tr')) = []).
  { clear - Hadj. induction Hadj as [| e l He _ IHl]; [reflexivity |].
    cbn [filter]. apply elem_In in He. rewrite He. exact IHl. }
  rewrite E. reflexivity.
Qed.

Lemma fold_trace_loss_perfect ADS T n edges1 traces : forall acc,
  replays_perfectly edges1 traces ->
  fold_left (trace_loss ADS T n edges1) traces acc
  = fold_left (add_loss ADS T n) (flat_map boundary_transitions traces) acc.
Proof.
  induction traces as [| tr traces IH]; intros acc Hp; [reflexivity |].
  inversion Hp as [| ? ? [Hne Hall] Hrest]; subst.
  simpl. rewrite fold_left_app, (@trace_loss_perfect ADS T n edges1 acc tr Hne Hall).
  apply IH. assumption.
Qed.

Lemma expand_edge_nonempty e l : expand_edge e = Some l -> l <> [].
Proof.
  destruct e as [[s0 | e0] [s1 | e1]]; simpl.
  - intro X; inversion X; discriminate.
  - unfold inner_edges. destruct e1 as [| x e1]; simpl; [discriminate |].
    intro X; inversion X; discriminate.
  - unfold inner_edges. destruct e0 as [| x e0]; simpl; [discriminate |].
    intro X; inversion X; discriminate.
  - destruct e0 as [| x e0]; simpl; [discriminate |].
    destruct e1 as [| y e1]; simpl; [discriminate |].
    intro X; inversion X; discriminate.
Qed.

Lemma expand_edges_nonempty es edges1 :
  es <> [] -> expand_edges es = Some edges1 -> edges1 <> [].
Proof.
  intros Hne. unfold expand_edges.
  assert (Hfold : forall es l l',
    fold_left (fun acc e => l <- acc ;; x <- expand_edge e ;; Some (l ++ x))
      es (Some l) = Some l' ->
    es <> [] \/ l <> [] -> l' <> []).
  { clear. induction es as [| e es IH]; intros l l' Hf Hor; simpl in Hf.
    - inversion Hf; subst. destruct Hor; [contradiction | assumption].
    - destruct (expand_edge e) as [x |] eqn:Ex; simpl in Hf.
      + apply (IH _ _ Hf). right. apply expand_edge_nonempty in Ex.
        destruct l; [assumption | discriminate].
      + exfalso. clear - Hf. induction es; simpl in Hf; [discriminate | auto]. }
  destruct (fold_left _ es (Some [])) as [l |] eqn:El; simpl; [| discriminate].
  intro X; inversion X; subst.
  specialize (Hfold es [] l El (or_introl Hne)).
  destruct l; [contradiction | discriminate].
Qed.

Section FitnessFacts.
Context {helpers : Helpers}.

(** The table and the classification that [fitness] works with. *)
Definition fitness_T (log : Log) (T : option LogModel.table) : LogModel.table :=
  match T with Some t => t | None => TransitionMatrix_T log end.

Definition fitness_ADS (log : Log) (T : option LogModel.table)
  (ADS : option (dict value (dict value string))) : dict value (dict value string) :=
  match ADS with Some a => a | None => ADS_matrix log (fitness_T log T) end.



(** C10. When every entry of the transition table was observed in some case
    and the graph has an edge, the value that [fitness] returns is strictly
    positive: the expanded edge set is not empty, every expanded edge has a
    loss of at least eps = 10^(-digits of the number of cases) > 0, and the
    value is at least eps times the number of expanded edges. *)
Theorem fitness_positive
  (g : Graph) (log : Log) (T : option LogModel.table)
  (ADS : option (dict value (dict value string)))
  (es : dict edge (nat * nat)) (v : Q) :
  observed_entries (fitness_T log T) ->
  edges g = Some es -> es <> [] ->
  fitness g log T ADS = Some v ->
  let eps := eps_of (length (cases log)) in
  exists edges1,
    expand_edges (keys es) = Some edges1 /\
    edges1 <> [] /\
    Forall (fun e => exists l,
              loss (fitness_ADS log T ADS) (fitness_T log T) (length (cases log))
                   (fst e) (snd e) = Some l /\ (eps <= l)%Q) edges1 /\
    (0 < eps)%Q /\
    (Qnat (length edges1) * eps <= v)%Q /\
    (0 < v)%Q.
Proof.
  intros HT Hes Hne Hv eps. unfold fitness in Hv.
  fold (fitness_T log T) in Hv. fold (fitness_ADS log T ADS) in Hv.
  rewrite Hes in Hv. simpl in Hv. unfold fitness_from in Hv.
  destruct (expand_edges (keys es)) as [edges1 |] eqn:Ee; [| discriminate].
  simpl in Hv. exists edges1. split; [reflexivity |].
  assert (Hne1 : edges1 <> []).
  { apply (@expand_edges_nonempty (keys es)); [| assumption].
    destruct es; [contradiction | discriminate]. }
  split; [assumption |].
  destruct (fold_left (trace_loss _ _ _ edges1) (values (flat_log log)) (Some 0%Q))
    as [m |] eqn:Em; [| rewrite fold_add_loss_None in Hv; discriminate].
  apply fold_trace_loss_mono in Em.
  destruct (@fold_add_loss_bound (fitness_ADS log T ADS) (fitness_T log T)
              (length (cases log)) eps edges1 m v) as [Hbound Hall];
    [| assumption |].
  { intros e l _ Hl. exact (@loss_ge_eps _ _ _ _ _ _ HT Hl). }
  pose proof (eps_of_pos (length (cases log))) as Heps. fold eps in Heps.
  split; [assumption |]. split; [assumption |].
  assert (Hlen : (1 <= Qnat (length edges1))%Q).
  { destruct edges1 as [| e edges1]; [contradiction |].
    cbn [length]. rewrite Qnat_S. pose proof (Qnat_nonneg (length edges1)). lra. }
  split; [lra |].
  assert ((eps <= Qnat (length edges1) * eps)%Q) by nra.
  lra.
Qed.

End FitnessFacts.

(* ================================================================== *)
(** ** Concrete instances *)

(** A small instance of the helper interface, for running the methods on
    examples: significance is 1 everywhere, nothing is filtered or repaired,
    the incidence matrix lists the successors of each source, and the
    transition matrix has no boundary activities. *)
Definition plain_helpers : Helpers := {|
  matrix := LogModel.table;
  node_significance := fun log => map (fun a => (a, 1%Q)) (activities log);
  dict_normalization := fun d => d;
  dict_normalization_nested := fun d => d;
  transit_matrix_pm := fun _ T => T;
  edge_sig := fun _ _ _ _ => [];
  rel_sig_t := unit;
  rel_sig := fun _ _ => tt;
  conflict_resolution := fun _ => [];
  edge_filtering := fun _ transitions _ _ => transitions;
  incidence_matrix := fun transitions =>
    fold_left (fun G e =>
      set (fst e) (match get (fst e) G with
                   | Some l => l ++ [snd e]
                   | None => [snd e]
                   end) G) transitions [];
  check_feasibility := fun _ transitions _ _ _ _ => Some transitions;
  reconstruct_log := fun log _ _ => Some (flat_log log);
  TransitionMatrix_update := fun fl =>
    option_map fst (LogModel.scan_log (values fl) LogModel.empty_state);
  node_significance_filtered := fun _ _ _ _ _ => Some [];
  T_filtered := fun _ T _ _ _ => Some T;
  filter_connections := fun log _ => Some (flat_log log, activities log);
  add_frq := fun ns _ _ _ _ => ns;
  TransitionMatrix_T := fun _ => [];
  ADS_matrix := fun _ _ => []
|}.

(** The graph and the tables of the scenario, with the virtual boundary
    activities. *)
Definition T_xy : LogModel.table :=
  [(start, [(vx, (2, 2))]);
   (vx, [(vy, (3, 2))]);
   (vy, [(vx, (1, 1)); (end_, (2, 2))])].

Definition ns_xy : dict value (nat * Z) := [(vx, (3, 2%Z)); (vy, (3, 2%Z))].

Definition es_xy : dict edge (nat * nat) :=
  [((start, vx), (2, 2)); ((vx, vy), (3, 2)); ((vy, vx), (1, 1)); ((vy, end_), (2, 2))].

Definition g_xy : Graph := {| nodes := Some ns_xy; edges := Some es_xy |}.

(** The hypothesis of C1 at [path_rate = 100] on the scenario's table. *)
Lemma update_path_rate_100_keeps_all_witness :
  In (vy, end_)
     (select_transitions (helpers := plain_helpers) T_xy [vx; vy] 100 tt [] [] [])
  <->
  (exists cnt, LogModel.get2 vy end_ T_xy = Some cnt) /\
  In vy ([vx; vy] ++ [start; end_]) /\
  In end_ ([vx; vy] ++ [start; end_]).
Proof.
  apply (update_path_rate_100_keeps_all (helpers := plain_helpers)).
  reflexivity.
Defined.

Example early_stop_xy :
  select_transitions (helpers := plain_helpers) T_xy [vx; vy] 100 tt [] [] []
  = [(start, vx); (vx, vy); (vy, vx); (vy, end_)].
Proof. reflexivity. Qed.

(** The hypothesis of C9 at [agg_type = 'middle']. *)
Lemma aggregate_rejects_invalid_witness :
  exists e,
    aggregate (helpers := plain_helpers) g_xy log_xy 100 100 "middle" "all"
              false false 0.5 = (Some e, g_xy) /\
    (forall SC fl T,
       find_states (helpers := plain_helpers) g_xy log_xy false false 0.5 = Some SC ->
       reconstruct_log (Helpers := plain_helpers) log_xy SC false = Some fl ->
       TransitionMatrix_update (Helpers := plain_helpers) fl = Some T ->
       e = ValueError "Invalid aggregation type" \/
       e = ValueError "Invalid heuristic").
Proof.
  apply (aggregate_rejects_invalid (helpers := plain_helpers)).
  left. simpl. intuition discriminate.
Defined.

Example aggregate_middle :
  aggregate (helpers := plain_helpers) g_xy log_xy 100 100 "middle" "all"
            false false 0.5
  = (Some (ValueError "Invalid aggregation type"), g_xy).
Proof. reflexivity. Qed.

(** A valid call, by contrast, replaces the graph. *)
Example aggregate_outer_updates :
  aggregate (helpers := plain_helpers) g_xy log_xy 100 100 "outer" "all"
            false false 2
  = (None, {| nodes := Some [(vx, (3, 2%Z)); (vy, (1, 2%Z))];
              edges := Some [((vx, vy), (3, 2)); ((vy, vx), (1, 1))] |}).
Proof. reflexivity. Qed.

Definition ADS_xy : dict value (dict value string) :=
  [(start, [(vx, "A"%string)]);
   (vx, [(vy, "A"%string)]);
   (vy, [(vx, "S"%string); (end_, "A"%string)])].

(** A log in which the cycle (x, y) occurs in one case of two. *)
Definition log_half : Log :=
  {| flat_log := [("A"%string, [vx; vy; vx]); ("B"%string, [vx; vy])];
     cases := ["A"%string; "B"%string];
     activities := [vx; vy] |}.

(** The hypotheses of C3 on [log_half]. *)
Lemma find_states_significant_witness :
  exists SC,
    find_states (helpers := plain_helpers) g_xy log_half false false 0.5 = Some SC /\
    (forall c,
       In c SC <->
       exists abs_freq case_freq,
         In (c, (abs_freq, case_freq)) [([vx; vy], (1, 1))] /\
         1 < length c /\
         (Qnat case_freq / Qnat (length (cases log_half)) >= 0.5)%Q) /\
    (length (cases log_half) = 2 -> (0.5 == 0.5)%Q ->
     forall c abs_freq,
       In (c, (abs_freq, 1)) [([vx; vy], (1, 1))] -> 1 < length c -> In c SC).
Proof.
  apply (@find_states_significant plain_helpers g_xy log_half false false
           0.5 [([vx; vy], (1, 1))]).
  - reflexivity.
  - simpl. lia.
Defined.

(** The boundary: 1 of 2 cases is significant at 0.5 and not above it. *)
Example find_states_boundary_equal :
  find_states (helpers := plain_helpers) g_xy log_half false false 0.5
  = Some [[vx; vy]].
Proof. reflexivity. Qed.

Example find_states_boundary_below :
  find_states (helpers := plain_helpers) g_xy log_half false false 0.51 = Some [].
Proof. reflexivity. Qed.

(** The hypotheses of C5 on the scenario. *)
Lemma replayability_score_formula_witness :
  exists scores,
    Forall2 (trace_score_spec ns_xy es_xy 0.1 1) (values (flat_log log_xy)) scores /\
    replayability_score g_xy log_xy 0.1 1
    = Some (fold_left Qplus scores 0 / Qnat (length (cases log_xy)))%Q.
Proof.
  apply (@replayability_score_formula g_xy log_xy 0.1 1 ns_xy es_xy).
  - reflexivity.
  - reflexivity.
  - repeat constructor; discriminate.
  - simpl. lia.
Defined.

(** A trace with noise before the first retained event ("z"), a forced
    transition (y, y) and a skipped event ("w"):
    |4/6 - 0.1 * 1 - 1 * 1/6| = 2/5. *)
Example trace_score_with_noise :
  option_map Qred
    (trace_replayability_score ns_xy es_xy 0.1 1 [Str "z"; vx; vy; vy; Str "w"; vx])
  = Some (2 # 5)%Q.
Proof. reflexivity. Qed.

Example trace_score_unretained :
  trace_replayability_score ns_xy es_xy 0.1 1 [Str "z"; Str "w"] = Some 0%Q.
Proof. reflexivity. Qed.

(** A table whose entries all have a positive case count. *)
Definition all_observed (T : LogModel.table) : bool :=
  forallb (fun row => forallb (fun e => 1 <=? snd (snd e)) (snd row)) T.

Lemma all_observed_entries T : all_observed T = true -> observed_entries T.
Proof.
  unfold all_observed, observed_entries, LogModel.get2.
  intros Hall a b cnt Hget.
  destruct (get a T) as [row |] eqn:Erow; [| discriminate]. simpl in Hget.
  apply get_In in Erow. apply get_In in Hget.
  rewrite forallb_forall in Hall. specialize (Hall _ Erow). cbn [snd] in Hall.
  rewrite forallb_forall in Hall. specialize (Hall _ Hget). cbn [snd] in Hall.
  apply Nat.leb_le in Hall. exact Hall.
Defined.



(** The hypotheses of C10 on the scenario. *)
Lemma fitness_positive_witness :
  exists edges1,
    expand_edges (keys es_xy) = Some edges1 /\
    edges1 <> [] /\
    Forall (fun e => exists l,
              loss (fitness_ADS (helpers := plain_helpers) log_xy (Some T_xy) (Some ADS_xy))
                   (fitness_T (helpers := plain_helpers) log_xy (Some T_xy))
                   (length (cases log_xy)) (fst e) (snd e) = Some l /\
              (eps_of (length (cases log_xy)) <= l)%Q) edges1 /\
    (0 < eps_of (length (cases log_xy)))%Q /\
    (Qnat (length edges1) * eps_of (length (cases log_xy)) <= 15 # 2)%Q /\
    (0 < 15 # 2)%Q.
Proof.
  apply (@fitness_positive plain_helpers g_xy log_xy (Some T_xy)
           (Some ADS_xy) es_xy (15 # 2)%Q).
  - apply all_observed_entries. reflexivity.
  - reflexivity.
  - discriminate.
  - reflexivity.
Defined.

Example fitness_xy :
  fitness (helpers := plain_helpers) g_xy log_xy (Some T_xy) (Some ADS_xy)
  = Some (15 # 2)%Q.
Proof. reflexivity. Qed.

Example eps_of_2_cases : eps_of 2 = (1 / 10)%Q.
Proof. reflexivity. Qed.

(** The counting pass on the scenario: case A = (x, y, x, y) holds the cycle
    (x, y) at positions 0-2 and its rotation (y, x) at positions 1-3. *)
Example count_cycles_xy :
  count_cycles ns_xy es_xy (values (flat_log log_xy))
  = [([vx; vy], (1, 1)); ([vy; vx], (1, 1))].
Proof. reflexivity. Qed.

(** A self-loop (x, x) and the transitions through "z" are not edges: the
    slices that contain them are not counted. *)
Example count_cycles_bad_edges :
  count_cycles ns_xy es_xy [[vx; vy; vx; vy; vx; vx; vy; Str "z"; vx]]
  = [([vx; vy], (2, 1)); ([vy; vx], (1, 1))].
Proof. reflexivity. Qed.

Example find_cycles_merged_xy :
  find_cycles (helpers := plain_helpers) g_xy log_xy false false
  = Some [([vx; vy], (2, 2))].
Proof. reflexivity. Qed.

(** C4, the claim as stated fails for [ordered = True]: the mapping returned
    on the scenario keeps (x, y) and its rotation (y, x) as two entries. *)
Lemma find_cycles_ordered_keeps_rotations :
  exists cycles r1 r2,
    find_cycles (helpers := plain_helpers) g_xy log_xy false true = Some cycles /\
    In r1 (keys cycles) /\ In r2 (keys cycles) /\
    In r2 (rotations r1) /\ r1 <> r2.
Proof.
  exists [([vx; vy], (1, 1)); ([vy; vx], (1, 1))], [vx; vy], [vy; vx].
  split; [reflexivity |]. simpl. repeat split; auto. discriminate.
Qed.

Example find_nodes_order_xy :
  find_nodes_order (helpers := plain_helpers) g_xy = Some [start; vx; vy; end_].
Proof. reflexivity. Qed.

(** Without [pre_traverse] the representative of a class is its first
    counted rotation; with it, the rotation that starts nearest to 'start' in
    the traversal. *)
Definition g_yx : Graph :=
  {| nodes := Some [(vy, (3, 2%Z)); (vx, (3, 2%Z))]; edges := Some es_xy |}.

Example find_cycles_no_traverse :
  find_cycles (helpers := plain_helpers) g_yx log_xy false false
  = Some [([vy; vx], (2, 2))].
Proof. reflexivity. Qed.

Example find_cycles_pre_traverse :
  find_cycles (helpers := plain_helpers) g_yx log_xy true false
  = Some [([vx; vy], (2, 2))].
Proof. reflexivity. Qed.

(** Events that are tuples (the meta-states of an aggregated log) are looked up
    in the edges, not in the nodes: a meta-state node that is no edge is not
    replayed, and a pair of activities that is an edge is. *)
Example trace_score_tuple_events :
  trace_replayability_score [(Tuple [vx; Str "z"], (1, 1%Z))] es_xy 0.1 1
    [Tuple [vx; Str "z"]] = Some 0%Q /\
  is_replayed_element ns_xy es_xy (Tuple [vx; vy]) = true.
Proof. split; reflexivity. Qed.


(* ================================================================== *)
(** ** Further properties: the cycles that [find_cycles] reports *)

Lemma counted_cycles_In ns es tr c :
  In c (counted_cycles ns es tr) <->
  exists s f,
    In (s, f) (candidates ns tr) /\ cycle_condition es tr s f /\ c = slice s f tr.
Proof.
  unfold counted_cycles. rewrite in_map_iff. split.
  - intros [[s f] [<- Hin]]. apply filter_In in Hin. cbn [fst snd] in Hin.
    destruct Hin as [Hc Hcnt]. apply is_counted_spec in Hcnt. eauto.
  - intros [s [f [Hc [Hcond ->]]]]. exists (s, f). split; [reflexivity |].
    apply filter_In. cbn [fst snd]. split; [assumption |].
    apply is_counted_spec. assumption.
Qed.

Lemma slice_nth {A} (xs : list A) s f i :
  i < f - s -> nth_error (slice s f xs) i = nth_error xs (s + i).
Proof.
  intro Hi. unfold slice. rewrite nth_error_firstn.
  apply Nat.ltb_lt in Hi. rewrite Hi. apply nth_error_skipn.
Qed.

Lemma slice_length {A} (xs : list A) s f :
  f <= length xs -> length (slice s f xs) = f - s.
Proof. intro Hf. unfold slice. rewrite length_firstn, length_skipn. lia. Qed.

Lemma slice_decompose {A} (xs : list A) s f x :
  s <= f -> nth_error xs f = Some x ->
  xs = firstn s xs ++ slice s f xs ++ x :: skipn (S f) xs.
Proof.
  intros Hsf Hx.
  rewrite <- (firstn_skipn_middle f xs Hx) at 1.
  rewrite app_assoc. f_equal.
  rewrite <- (firstn_skipn s (firstn f xs)).
  rewrite firstn_firstn, Nat.min_l by lia. f_equal.
  unfold slice. clear. revert s f. induction xs as [| y xs IH]; intros s f.
  - rewrite firstn_nil, !skipn_nil, firstn_nil. reflexivity.
  - destruct s as [| s]; [rewrite Nat.sub_0_r; reflexivity |].
    destruct f as [| f]; [reflexivity |]. simpl. apply IH.
Qed.

(** A counted slice, closed by the node it starts with, only takes edges of
    the graph. *)
Lemma counted_cycle_closed_walk es tr s f node :
  s < f -> nth_error tr s = Some node -> nth_error tr f = Some node ->
  cycle_condition es tr s f ->
  forall e, In e (adjacent (slice s f tr ++ [node])) -> In e (keys es).
Proof.
  intros Hsf Hs Hf [_ Hedges] [a b] He.
  assert (Hlen : f < length tr) by (apply nth_error_Some; congruence).
  assert (Hsl : length (slice s f tr) = f - s) by (apply slice_length; lia).
  apply In_nth_error in He. destruct He as [i Hi].
  apply adjacent_nth in Hi. destruct Hi as [Ha Hb].
  assert (Hi : i < f - s).
  { assert (S i < length (slice s f tr ++ [node]))
      by (apply nth_error_Some; congruence).
    rewrite length_app, Hsl in H. simpl in H. lia. }
  apply (Hedges (s + i) a b); [lia | |].
  - rewrite nth_error_app1 in Ha by lia. rewrite slice_nth in Ha by lia. exact Ha.
  - destruct (Nat.eq_dec (S i) (f - s)) as [Heq | Hne].
    + rewrite nth_error_app2 in Hb by lia.
      rewrite Hsl, Heq, Nat.sub_diag in Hb. simpl in Hb.
      replace (S (s + i)) with f by lia. congruence.
    + rewrite nth_error_app1 in Hb by lia. rewrite slice_nth in Hb by lia.
      replace (S (s + i)) with (s + S i) by lia. exact Hb.
Qed.

(** X1. Every cycle that the counting pass of [find_cycles] records is a
    simple closed walk of the graph through a retained node: it starts with
    a retained node, repeats no activity, occurs in a trace followed by its
    first activity, and every transition along it, the closing one included,
    is an edge of the graph. *)
Theorem counted_cycles_are_simple_closed_walks
  (ns : dict value (nat * Z)) (es : dict edge (nat * nat)) (traces : list trace)
  (c : cycle) :
  In c (keys (count_cycles ns es traces)) ->
  exists node,
    hd_error c = Some node /\
    In node (keys ns) /\
    NoDup c /\
    (forall e, In e (adjacent (c ++ [node])) -> In e (keys es)) /\
    exists tr pre post, In tr traces /\ tr = pre ++ c ++ node :: post.
Proof.
  intro Hc. apply count_cycles_keys in Hc. destruct Hc as [tr [Htr Hc]].
  destruct (counted_cycles_shape _ _ _ _ Hc) as [_ ND].
  apply counted_cycles_In in Hc. destruct Hc as [s [f [Hcand [Hcond ->]]]].
  apply candidates_spec in Hcand.
  destruct Hcand as [node [Hnode [Hs [Hf [Hsf _]]]]].
  exists node. split; [| split; [assumption | split; [assumption | split]]].
  - rewrite <- (nth_error_0 (slice s f tr)).
    rewrite slice_nth by lia. rewrite Nat.add_0_r. assumption.
  - exact (counted_cycle_closed_walk Hsf Hs Hf Hcond).
  - exists tr, (firstn s tr), (skipn (S f) tr). split; [assumption |].
    apply slice_decompose; [lia | assumption].
Qed.

(** X2. In the counting pass of [find_cycles], the distinct-case frequency of
    a recorded cycle is at least 1, at most its absolute frequency and at
    most the number of traces. *)
Theorem counted_cycles_frequency_bounds
  (ns : dict value (nat * Z)) (es : dict edge (nat * nat)) (traces : list trace)
  (c : cycle) (abs_freq case_freq : nat) :
  get c (count_cycles ns es traces) = Some (abs_freq, case_freq) ->
  1 <= case_freq /\ case_freq <= abs_freq /\ case_freq <= length traces.
Proof.
  unfold count_cycles. rewrite count_cycles_get. cbn [get].
  unfold LogModel.after_log.
  set (occ := fun tr => occurrences c (counted_cycles ns es tr)).
  change (list_sum (map (fun tr => occurrences c (counted_cycles ns es tr)) traces))
    with (list_sum (map occ traces)).
  change (length (filter (fun tr => negb (occurrences c (counted_cycles ns es tr) =? 0))
                         traces))
    with (length (filter (fun tr => negb (occ tr =? 0)) traces)).
  assert (H : length (filter (fun tr => negb (occ tr =? 0)) traces)
              <= list_sum (map occ traces) /\
              (list_sum (map occ traces) <> 0 ->
               1 <= length (filter (fun tr => negb (occ tr =? 0)) traces))).
  { clear. induction traces as [| tr traces [IH1 IH2]]; simpl; [lia |].
    destruct (occ tr); simpl; lia. }
  pose proof (filter_length_le (fun tr => negb (occ tr =? 0)) traces) as Hle.
  destruct (list_sum (map occ traces)) eqn:E; [discriminate |].
  intro X. inversion X; subst. lia.
Qed.

Lemma adjacent_cons {A} (x y : A) l : adjacent (x :: y :: l) = (x, y) :: adjacent (y :: l).
Proof. reflexivity. Qed.

Lemma adjacent_app_cons {A} (l1 : list A) x l2 e :
  In e (adjacent (l1 ++ x :: l2)) <->
  In e (adjacent (l1 ++ [x])) \/ In e (adjacent (x :: l2)).
Proof.
  induction l1 as [| y l1 IH].
  - simpl. tauto.
  - destruct l1 as [| z l1].
    + cbn [app]. rewrite adjacent_cons. simpl. tauto.
    + cbn [app] in *. rewrite !adjacent_cons. simpl. rewrite IH. tauto.
Qed.

(** The transitions of a closed walk do not depend on where it starts. *)
Lemma closed_walk_rotation (u v : cycle) x y e :
  hd_error (u ++ v) = Some x -> hd_error (v ++ u) = Some y ->
  In e (adjacent ((u ++ v) ++ [x])) -> In e (adjacent ((v ++ u) ++ [y])).
Proof.
  destruct u as [| a u]; [rewrite app_nil_r; simpl; intros H1 H2; congruence |].
  destruct v as [| b v]; [rewrite app_nil_r; simpl; intros H1 H2; congruence |].
  cbn [app hd_error]. intros H1 H2. inversion H1; inversion H2; subst x y.
  change (a :: u ++ b :: v) with ((a :: u) ++ b :: v).
  change (b :: v ++ a :: u) with ((b :: v) ++ a :: u).
  rewrite <- !app_assoc. cbn [app].
  change (a :: u ++ b :: v ++ [a]) with ((a :: u) ++ b :: (v ++ [a])).
  change (b :: v ++ a :: u ++ [b]) with ((b :: v) ++ a :: (u ++ [b])).
  rewrite (adjacent_app_cons (a :: u) b (v ++ [a])).
  rewrite (adjacent_app_cons (b :: v) a (u ++ [b])).
  cbn [app]. tauto.
Qed.

Lemma rotation_closed_walk (es : dict edge (nat * nat)) r c x y :
  In r (rotations c) ->
  hd_error c = Some x -> hd_error r = Some y ->
  (forall e, In e (adjacent (c ++ [x])) -> In e (keys es)) ->
  forall e, In e (adjacent (r ++ [y])) -> In e (keys es).
Proof.
  intros Hrot Hx Hy Hwalk e He.
  apply rotation_sym in Hrot. apply rotation_split in Hrot.
  destruct Hrot as [_ [u [v [-> ->]]]].
  apply Hwalk. exact (closed_walk_rotation u v e Hy Hx He).
Qed.

Lemma counted_cycle_walk ns es traces c :
  In c (keys (count_cycles ns es traces)) ->
  exists node,
    hd_error c = Some node /\ NoDup c /\
    forall e, In e (adjacent (c ++ [node])) -> In e (keys es).
Proof.
  intro Hc. apply count_cycles_keys in Hc. destruct Hc as [tr [Htr Hc]].
  destruct (counted_cycles_shape _ _ _ _ Hc) as [_ ND].
  apply counted_cycles_In in Hc. destruct Hc as [s [f [Hcand [Hcond ->]]]].
  apply candidates_spec in Hcand.
  destruct Hcand as [node [Hnode [Hs [Hf [Hsf _]]]]].
  exists node. split; [| split; [assumption |]].
  - rewrite <- (nth_error_0 (slice s f tr)).
    rewrite slice_nth by lia. rewrite Nat.add_0_r. assumption.
  - exact (counted_cycle_closed_walk Hsf Hs Hf Hcond).
Qed.

(** Merged or not, the keys are rotations of counted cycles. *)
Lemma find_cycles_from_closed_walks
  (ns : dict value (nat * Z)) (es : dict edge (nat * nat)) (traces : list trace)
  (order : option (list value)) (ordered : bool) (res : cycle_counts) (r : cycle) :
  find_cycles_from ns es traces order ordered = Some res ->
  In r (keys res) ->
  exists node,
    hd_error r = Some node /\
    NoDup r /\
    forall e, In e (adjacent (r ++ [node])) -> In e (keys es).
Proof.
  intros Hres Hr.
  assert (Hraw : exists c, In c (keys (count_cycles ns es traces)) /\
                           In r (rotations c)).
  { unfold find_cycles_from in Hres. destruct ordered; cbn [negb] in Hres.
    - inversion Hres; subst res. exists r. split; [assumption |].
      apply rotation_refl. exact (proj1 (count_cycles_shape _ _ _ _ Hr)).
    - unfold merge_rotations in Hres.
      destruct (fold_left _ (keys (count_cycles ns es traces)) (Some merge_init))
        as [st |] eqn:Ef; [| discriminate].
      cbn [bind] in Hres. inversion Hres; subst res. clear Hres.
      assert (Hinv : merge_inv (count_cycles ns es traces)
                       ([] ++ keys (count_cycles ns es traces)) st).
      { apply (merge_fold order (keys (count_cycles ns es traces))
                 (done := []) (st := merge_init)).
        - apply count_cycles_NoDup.
        - intros c Hc. exact (count_cycles_shape _ _ _ _ Hc).
        - apply merge_inv_init.
        - exact Ef. }
      destruct (inv_entry Hinv r Hr) as [[c [Hc Hrot]] _]. eauto. }
  destruct Hraw as [c [Hc Hrot]].
  destruct (counted_cycle_walk ns es traces c Hc)
    as [x [Hx [ND Hwalk]]].
  destruct (rotation_nonempty _ _ Hrot) as [Hne _].
  destruct r as [| y r']; [contradiction |].
  exists y. split; [reflexivity |]. split.
  - apply (Permutation_NoDup (l := c)); [| assumption].
    apply Permutation_sym, rotation_perm. assumption.
  - exact (@rotation_closed_walk es (y :: r') c x y Hrot Hx eq_refl Hwalk).
Qed.

(** X3. Whatever [pre_traverse] and [ordered] are, every cycle of the mapping
    that [find_cycles] returns is a simple closed walk of the graph: it is
    not empty, repeats no activity, and every transition along it, the
    closing one included, is an edge of the graph. *)
Theorem find_cycles_keys_are_closed_walks {helpers : Helpers} (g : Graph) (log : Log)
  (pre_traverse ordered : bool) (es : dict edge (nat * nat))
  (res : cycle_counts) (r : cycle) :
  edges g = Some es ->
  find_cycles g log pre_traverse ordered = Some res ->
  In r (keys res) ->
  exists node,
    hd_error r = Some node /\
    NoDup r /\
    forall e, In e (adjacent (r ++ [node])) -> In e (keys es).
Proof.
  intros Hes Hres Hr. unfold find_cycles in Hres.
  destruct (nodes g) as [ns |]; [| discriminate]. rewrite Hes in Hres.
  cbn [bind] in Hres.
  destruct (if pre_traverse then option_map Some (find_nodes_order g) else Some None)
    as [order |]; [| discriminate].
  cbn [bind] in Hres.
  exact (@find_cycles_from_closed_walks ns es _ order ordered res r Hres Hr).
Qed.

Lemma find_cycles_merge_inv ns es traces order res :
  find_cycles_from ns es traces order false = Some res ->
  exists left_,
    merge_inv (count_cycles ns es traces) (keys (count_cycles ns es traces))
              (res, left_).
Proof.
  unfold find_cycles_from. cbn [negb]. unfold merge_rotations. intro Hres.
  destruct (fold_left _ (keys (count_cycles ns es traces)) (Some merge_init))
    as [[sum_cycles left_] |] eqn:Ef; [| discriminate].
  cbn [bind fst] in Hres. inversion Hres; subst res. exists left_.
  assert (Hinv : merge_inv (count_cycles ns es traces)
                   ([] ++ keys (count_cycles ns es traces)) (sum_cycles, left_)).
  { apply (merge_fold order (keys (count_cycles ns es traces))
             (done := []) (st := merge_init)).
    - apply count_cycles_NoDup.
    - intros c Hc. exact (count_cycles_shape _ _ _ _ Hc).
    - apply merge_inv_init.
    - exact Ef. }
  exact Hinv.
Qed.

Lemma list_sum_map_add {A} (g h : A -> nat) l :
  list_sum (map (fun r => g r + h r) l) = list_sum (map g l) + list_sum (map h l).
Proof. induction l as [| x l IH]; simpl; lia. Qed.

Lemma list_sum_indicator {A} (p : A -> bool) (x : nat) (l : list A) r0 :
  NoDup l -> In r0 l -> p r0 = true ->
  (forall r, In r l -> p r = true -> r = r0) ->
  list_sum (map (fun r => if p r then x else 0) l) = x.
Proof.
  induction 1 as [| r l Hr ND IH]; intros Hin Hp Huniq; [contradiction |].
  cbn [map list_sum fold_right]. change (fold_right Nat.add 0) with list_sum.
  destruct Hin as [-> | Hin].
  - rewrite Hp.
    assert (Hz : list_sum (map (fun r => if p r then x else 0) l) = 0).
    { clear IH. induction l as [| r l IHl]; [reflexivity |].
      cbn [map list_sum fold_right]. change (fold_right Nat.add 0) with list_sum.
      destruct (p r) eqn:E.
      - exfalso. apply Hr. left. apply Huniq; [right; left; reflexivity | assumption].
      - rewrite IHl; [reflexivity | | |].
        + intro X. apply Hr. right; assumption.
        + inversion ND; assumption.
        + intros r' Hr' Hp'. apply Huniq; [| assumption].
          destruct Hr' as [-> | Hr']; [left; reflexivity | right; right; assumption]. }
    rewrite Hz. lia.
  - destruct (p r) eqn:E.
    + exfalso. apply Hr. rewrite (Huniq r (or_introl eq_refl) E). assumption.
    + rewrite IH; auto. intros r' Hr'. apply Huniq. right; assumption.
Qed.

(** Summing, over a family of classes that partitions the entries, the sum
    of each class gives the sum over all entries. *)
Lemma list_sum_partition {A B} (p : A -> B -> bool) (f : B -> nat)
  (classes : list A) (entries : list B) :
  NoDup classes ->
  (forall e, In e entries ->
     exists r0, In r0 classes /\ p r0 e = true /\
                forall r, In r classes -> p r e = true -> r = r0) ->
  list_sum (map (fun r => list_sum (map f (filter (p r) entries))) classes)
  = list_sum (map f entries).
Proof.
  intros ND. induction entries as [| e entries IH]; intro Hpart.
  - clear. induction classes as [| r classes IHc]; [reflexivity |].
    simpl in *. exact IHc.
  - assert (Hstep : forall r,
      list_sum (map f (filter (p r) (e :: entries)))
      = (if p r e then f e else 0) + list_sum (map f (filter (p r) entries))).
    { intro r. cbn [filter]. destruct (p r e); reflexivity. }
    rewrite (map_ext _ _ Hstep), list_sum_map_add.
    destruct (Hpart e (or_introl eq_refl)) as [r0 [Hr0 [Hp Huniq]]].
    rewrite (list_sum_indicator (fun r => p r e) (f e) ND Hr0 Hp Huniq).
    rewrite IH; [reflexivity |].
    intros e' He'. apply Hpart. right; assumption.
Qed.

(** X4. With [ordered = False], merging the rotations neither loses nor
    invents occurrences: the absolute frequencies of the returned mapping add
    up to those of the counting pass, and so do the distinct-case
    frequencies. *)
Theorem find_cycles_merge_preserves_totals
  (ns : dict value (nat * Z)) (es : dict edge (nat * nat)) (traces : list trace)
  (order : option (list value)) (res : cycle_counts) :
  find_cycles_from ns es traces order false = Some res ->
  let raw := count_cycles ns es traces in
  list_sum (map (fun e => fst (snd e)) res) = list_sum (map (fun e => fst (snd e)) raw) /\
  list_sum (map (fun e => snd (snd e)) res) = list_sum (map (fun e => snd (snd e)) raw).
Proof.
  intros Hres raw. destruct (find_cycles_merge_inv _ _ _ _ Hres) as [left_ Hinv].
  fold raw in Hinv. destruct Hinv as [_ Hnd Hentry Hcover Huniq]. cbn [fst] in *.
  assert (Hval : forall e, In e res -> snd e = class_counts raw (fst e)).
  { intros [r v] He. cbn [fst snd].
    assert (Hr : In r (keys res)).
    { change r with (fst (r, v)). apply in_map. assumption. }
    destruct (Hentry r Hr) as [_ Hget].
    rewrite (@In_get _ _ _ r v res Hnd He) in Hget. congruence. }
  assert (Hpart : forall e, In e raw ->
    exists r0, In r0 (keys res) /\ elem (fst e) (rotations r0) = true /\
               forall r, In r (keys res) -> elem (fst e) (rotations r) = true ->
                         r = r0).
  { intros [c v] He. cbn [fst].
    assert (Hc : In c (keys raw)).
    { change c with (fst (c, v)). apply in_map. assumption. }
    destruct (Hcover c Hc) as [r0 [Hr0 Hrot]]. exists r0.
    split; [assumption |]. split; [apply elem_In, rotation_sym; assumption |].
    intros r Hr Hp. apply elem_In in Hp. apply (Huniq r0 r Hr0 Hr).
    eapply rotation_trans; apply rotation_sym; eassumption. }
  split.
  - transitivity (list_sum (map (fun r => fst (class_counts raw r)) (keys res))).
    + unfold keys. rewrite map_map. f_equal. apply map_ext_in.
      intros e He. rewrite (Hval e He). reflexivity.
    + unfold class_counts. cbn [fst].
      apply (list_sum_partition
               (fun r (e : cycle * (nat * nat)) => elem (fst e) (rotations r))
               (fun e => fst (snd e)) raw Hnd Hpart).
  - transitivity (list_sum (map (fun r => snd (class_counts raw r)) (keys res))).
    + unfold keys. rewrite map_map. f_equal. apply map_ext_in.
      intros e He. rewrite (Hval e He). reflexivity.
    + unfold class_counts. cbn [snd].
      apply (list_sum_partition
               (fun r (e : cycle * (nat * nat)) => elem (fst e) (rotations r))
               (fun e => snd (snd e)) raw Hnd Hpart).
Qed.


(* ================================================================== *)
(** ** Further properties: the traversal of [find_nodes_order] *)

(** The successors that [preorder_traversal] follows from a node. *)
Definition successors_of (G : dict value (list value)) (x : value) : list value :=
  match get x G with
  | Some l => l
  | None => []
  end.

(** [y] is reached from [x] along successors. *)
Inductive reaches (G : dict value (list value)) (x : value) : value -> Prop :=
| reaches_here : reaches G x x
| reaches_step y s : reaches G x y -> In s (successors_of G y) -> reaches G x s.

Lemma reaches_trans G x y w : reaches G x y -> reaches G y w -> reaches G x w.
Proof.
  intros Hxy Hyw. induction Hyw as [| w s _ IH Hs]; [assumption |].
  eapply reaches_step; eassumption.
Qed.

(** What one call of [preorder_traversal] on an unvisited node leaves. *)
Record traversal_post (G : dict value (list value)) (node : value)
  (st st' : dict value bool * list value) : Prop := {
  tp_mono : forall x, get x (fst st) = Some true -> get x (fst st') = Some true;
  tp_back : forall x, get x (fst st') = Some false -> get x (fst st) = Some false;
  tp_new : exists new,
    snd st' = snd st ++ node :: new /\
    NoDup (node :: new) /\
    (forall x, In x (node :: new) ->
       get x (fst st) = Some false /\ get x (fst st') = Some true /\
       reaches G node x /\
       forall s, In s (successors_of G x) -> get s (fst st') = Some true) /\
    (forall x, get x (fst st') = Some true ->
       get x (fst st) = Some true \/ In x (node :: new))
}.

Lemma get_set_true_cases (k x : value) (visited : dict value bool) b :
  get x (set k true visited) = Some b ->
  (x = k /\ b = true) \/ (x <> k /\ get x visited = Some b).
Proof.
  destruct (eqb x k) eqn:E.
  - apply eqb_eq in E. subst. rewrite get_set_same. intro X; inversion X; auto.
  - apply eqb_neq in E. rewrite get_set_other by congruence. auto.
Qed.

Lemma preorder_traversal_post fuel G : forall node st st',
  get node (fst st) = Some false ->
  preorder_traversal fuel G node st = Visited st' ->
  traversal_post G node st st'.
Proof.
  induction fuel as [| fuel IH]; intros node st st' Hnode Hrun; [discriminate |].
  cbn [preorder_traversal] in Hrun. fold (successors_of G node) in Hrun.
  destruct st as [visited ordered]. cbn [fst snd] in *.
  set (visited1 := set node true visited) in *.
  (* the loop over the successors, from any state reached so far *)
  assert (Hloop : forall succs done cur new,
    successors_of G node = done ++ succs ->
    snd cur = ordered ++ node :: new ->
    NoDup (node :: new) ->
    (forall x, get x visited1 = Some true -> get x (fst cur) = Some true) ->
    (forall x, get x (fst cur) = Some false -> get x visited1 = Some false) ->
    (forall x, In x new ->
       get x visited1 = Some false /\ get x (fst cur) = Some true /\
       reaches G node x /\
       forall s, In s (successors_of G x) -> get s (fst cur) = Some true) ->
    (forall x, get x (fst cur) = Some true ->
       get x visited1 = Some true \/ In x new) ->
    (forall s, In s done -> get s (fst cur) = Some true) ->
    fold_left (fun acc successor =>
      match acc with
      | Visited st =>
          match get successor (fst st) with
          | None => KeyMissing
          | Some seen =>
              if negb seen then preorder_traversal fuel G successor st
              else Visited st
          end
      | KeyMissing => KeyMissing
      | Unfinished => Unfinished
      end) succs (Visited cur) = Visited st' ->
    traversal_post G node (visited, ordered) st').
  { induction succs as [| s succs IHs];
      intros done cur new Hsplit Hord ND Hmono Hback Hnew Hacc Hdone Hfold.
    - (* every successor has been handled *)
      cbn [fold_left] in Hfold. inversion Hfold; subst st'. clear Hfold.
      rewrite app_nil_r in Hsplit.
      constructor; cbn [fst snd].
      + intros x Hx. apply Hmono. unfold visited1.
        destruct (eqb x node) eqn:E.
        * apply eqb_eq in E. subst. apply get_set_same.
        * apply eqb_neq in E. rewrite get_set_other by congruence. assumption.
      + intros x Hx. apply Hback in Hx. unfold visited1 in Hx.
        apply get_set_true_cases in Hx. destruct Hx as [[_ X] | [_ X]];
          [discriminate | assumption].
      + exists new. split; [assumption |]. split; [assumption |]. split.
        * intros x [<- | Hx].
          -- split; [assumption |].
             split; [apply Hmono; apply get_set_same |].
             split; [constructor |].
             intros s Hs. apply Hdone. rewrite <- Hsplit. assumption.
          -- destruct (Hnew x Hx) as [H1 [H2 [H3 H4]]].
             unfold visited1 in H1. apply get_set_true_cases in H1.
             destruct H1 as [[_ X] | [_ X]]; [discriminate | auto].
        * intros x Hx. apply Hacc in Hx. destruct Hx as [Hx | Hx]; [| right; right; assumption].
          unfold visited1 in Hx. apply get_set_true_cases in Hx.
          destruct Hx as [[-> _] | [_ Hx]]; [right; left; reflexivity | left; assumption].
    - (* one more successor *)
      cbn [fold_left] in Hfold.
      assert (Hsplit' : successors_of G node = (done ++ [s]) ++ succs)
        by (rewrite <- app_assoc; exact Hsplit).
      destruct (get s (fst cur)) as [[|] |] eqn:Es; cbn [negb] in Hfold.
      + (* already visited *)
        apply (IHs (done ++ [s]) cur new); try assumption.
        intros s' Hs'. apply in_app_iff in Hs'.
        destruct Hs' as [Hs' | [<- | []]]; auto.
      + (* visit it *)
        destruct (preorder_traversal fuel G s cur) as [cur' | |] eqn:Ecall.
        * destruct (IH s cur cur' Es Ecall) as [Cmono Cback [new' [Cord [CND [Cnew Cacc]]]]].
          assert (Hs_reach : reaches G node s).
          { eapply reaches_step; [apply reaches_here |].
            rewrite Hsplit. apply in_app_iff. right; left; reflexivity. }
          apply (IHs (done ++ [s]) cur' (new ++ s :: new')); try assumption.
          -- rewrite Cord, Hord, <- app_assoc. reflexivity.
          -- (* the nodes added by the call were unvisited before it *)
             change (node :: new ++ s :: new') with ((node :: new) ++ s :: new').
             apply NoDup_app; [assumption | assumption |].
             intros x Hx Hx'.
             destruct (Cnew x Hx') as [Hfalse _].
             assert (Htrue : get x (fst cur) = Some true).
             { destruct Hx as [<- | Hx].
               - apply Hmono. apply get_set_same.
               - exact (proj1 (proj2 (Hnew x Hx))). }
             congruence.
          -- intros x Hx. apply Cmono, Hmono. assumption.
          -- intros x Hx. apply Hback, Cback. assumption.
          -- intros x Hx. apply in_app_iff in Hx. destruct Hx as [Hx | Hx].
             ++ destruct (Hnew x Hx) as [H1 [H2 [H3 H4]]].
                split; [assumption |]. split; [apply Cmono; assumption |].
                split; [assumption |]. intros s' Hs'. apply Cmono. auto.
             ++ destruct (Cnew x Hx) as [H1 [H2 [H3 H4]]].
                split; [apply Hback; assumption |]. split; [assumption |].
                split; [eapply reaches_trans; eassumption | assumption].
          -- intros x Hx. apply Cacc in Hx. destruct Hx as [Hx | Hx].
             ++ apply Hacc in Hx. destruct Hx as [Hx | Hx]; [left; assumption |].
                right. apply in_app_iff. left; assumption.
             ++ right. apply in_app_iff. right; assumption.
          -- intros s' Hs'. apply in_app_iff in Hs'.
             destruct Hs' as [Hs' | [<- | []]].
             ++ apply Cmono. auto.
             ++ exact (proj1 (proj2 (Cnew s (or_introl eq_refl)))).
        * exfalso. clear - Hfold. induction succs; simpl in Hfold; [discriminate | auto].
        * exfalso. clear - Hfold. induction succs; simpl in Hfold; [discriminate | auto].
      + exfalso. clear - Hfold. induction succs; simpl in Hfold; [discriminate | auto]. }
  apply (Hloop (successors_of G node) [] (visited1, ordered ++ [node]) []).
  - reflexivity.
  - reflexivity.
  - constructor; [intros [] | constructor].
  - auto.
  - auto.
  - intros x [].
  - auto.
  - intros s [].
  - exact Hrun.
Qed.

(** [dict.fromkeys(nodes, False)] *)
Lemma fromkeys_get (l : list value) (x : value) : forall d : dict value bool,
  (forall b, get x d = Some b -> b = false) ->
  (forall b, get x (fold_left (fun d n => set n false d) l d) = Some b -> b = false) /\
  (get x (fold_left (fun d n => set n false d) l d) <> None <->
   In x l \/ get x d <> None).
Proof.
  induction l as [| n l IH]; intros d Hd; cbn [fold_left].
  - split; [assumption |]. simpl. tauto.
  - assert (Hd' : forall b, get x (set n false d) = Some b -> b = false).
    { intros b Hb. destruct (eqb x n) eqn:E.
      - apply eqb_eq in E. subst. rewrite get_set_same in Hb. congruence.
      - apply eqb_neq in E. rewrite get_set_other in Hb by congruence. auto. }
    destruct (IH _ Hd') as [IH1 IH2]. split; [assumption |].
    rewrite IH2. cbn [In]. destruct (eqb x n) eqn:E.
    + apply eqb_eq in E. subst. rewrite get_set_same. split; [auto | intros _; right; discriminate].
    + apply eqb_neq in E. rewrite get_set_other by congruence.
      split; [tauto |]. intros [[X | X] | X]; [congruence | tauto | tauto].
Qed.

(** The traversal never removes a key of [visited]. *)
Lemma preorder_traversal_keys fuel G : forall node st st',
  preorder_traversal fuel G node st = Visited st' ->
  forall x, get x (fst st) <> None -> get x (fst st') <> None.
Proof.
  induction fuel as [| fuel IH]; intros node st st' Hrun; [discriminate |].
  cbn [preorder_traversal] in Hrun. fold (successors_of G node) in Hrun.
  revert Hrun. generalize (successors_of G node). intros succs Hrun x Hx.
  assert (Hx1 : get x (fst (set node true (fst st), snd st ++ [node])) <> None).
  { cbn [fst]. destruct (eqb x node) eqn:E.
    - apply eqb_eq in E. subst. rewrite get_set_same. discriminate.
    - apply eqb_neq in E. rewrite get_set_other by congruence. assumption. }
  revert Hrun Hx1. generalize (set node true (fst st), snd st ++ [node]).
  induction succs as [| s succs IHs]; intros cur Hrun Hcur.
  - cbn [fold_left] in Hrun. inversion Hrun; subst. assumption.
  - cbn [fold_left] in Hrun.
    destruct (get s (fst cur)) as [[|] |] eqn:Es; cbn [negb] in Hrun.
    + exact (IHs cur Hrun Hcur).
    + destruct (preorder_traversal fuel G s cur) as [cur' | |] eqn:Ecall.
      * apply (IHs cur' Hrun). exact (IH s cur cur' Ecall x Hcur).
      * exfalso. clear - Hrun. induction succs; simpl in Hrun; [discriminate | auto].
      * exfalso. clear - Hrun. induction succs; simpl in Hrun; [discriminate | auto].
    + exfalso. clear - Hrun. induction succs; simpl in Hrun; [discriminate | auto].
Qed.

(** [visited[successor]] raises no [KeyError] when every node reached from
    the root is a key of [visited]. *)
Lemma preorder_traversal_no_KeyError fuel G root : forall node st,
  reaches G root node ->
  (forall x, reaches G root x -> get x (fst st) <> None) ->
  preorder_traversal fuel G node st <> KeyMissing.
Proof.
  induction fuel as [| fuel IH]; intros node st Hnode Hdom; [discriminate |].
  cbn [preorder_traversal]. fold (successors_of G node).
  assert (Hsuccs : forall s, In s (successors_of G node) -> reaches G root s).
  { intros s Hs. eapply reaches_step; eassumption. }
  revert Hsuccs. generalize (successors_of G node). intros succs Hsuccs.
  assert (Hdom1 : forall x, reaches G root x ->
            get x (fst (set node true (fst st), snd st ++ [node])) <> None).
  { intros x Hx. cbn [fst]. destruct (eqb x node) eqn:E.
    - apply eqb_eq in E. subst. rewrite get_set_same. discriminate.
    - apply eqb_neq in E. rewrite get_set_other by congruence. auto. }
  revert Hdom1. generalize (set node true (fst st), snd st ++ [node]).
  induction succs as [| s succs IHs]; intros cur Hcur; cbn [fold_left]; [discriminate |].
  assert (Hs : reaches G root s) by (apply Hsuccs; left; reflexivity).
  assert (Hrest : forall s', In s' succs -> reaches G root s')
    by (intros s' Hs'; apply Hsuccs; right; assumption).
  destruct (get s (fst cur)) as [[|] |] eqn:Es; cbn [negb].
  - exact (IHs Hrest cur Hcur).
  - destruct (preorder_traversal fuel G s cur) as [cur' | |] eqn:Ecall.
    + apply (IHs Hrest cur'). intros x Hx.
      exact (preorder_traversal_keys _ _ _ _ Ecall x (Hcur x Hx)).
    + exfalso. exact (IH s cur Hs Hcur Ecall).
    + clear. induction succs; simpl; [discriminate | assumption].
  - exfalso. exact (Hcur s Hs Es).
Qed.

(** The traversal from ['start'] over [dict.fromkeys(nodes, False)]. *)
Lemma traversal_from_start G (nodes_ : list value) st :
  In start nodes_ ->
  preorder_traversal (S (length nodes_)) G start
    (fold_left (fun d n => set n false d) nodes_ [], []) = Visited st ->
  hd_error (snd st) = Some start /\
  NoDup (snd st) /\
  (forall x, In x (snd st) <-> reaches G start x) /\
  (forall x, In x (snd st) -> In x nodes_).
Proof.
  intros Hin Ecall.
  set (visited := fold_left (fun d n => set n false d) nodes_ []) in *.
  assert (Hfalse : forall x b, get x visited = Some b -> b = false).
  { intros x. apply (fromkeys_get nodes_ x []). intros b X. discriminate X. }
  assert (Hdom : forall x, get x visited <> None <-> In x nodes_).
  { intro x. unfold visited.
    rewrite (proj2 (fromkeys_get nodes_ x [] (fun b X => ltac:(discriminate X)))).
    simpl. split; [intros [X | X]; [assumption | congruence] | auto]. }
  assert (Hstart : get start (fst (visited, @nil value)) = Some false).
  { cbn [fst]. destruct (get start visited) as [b |] eqn:E.
    - rewrite (Hfalse _ _ E). reflexivity.
    - exfalso. apply (proj2 (Hdom start)); assumption. }
  destruct (@preorder_traversal_post _ G start (visited, []) st Hstart Ecall)
    as [_ _ [new [Hord [ND [Hnew Hacc]]]]].
  cbn [fst snd app] in *. rewrite Hord.
  split; [reflexivity |]. split; [assumption |]. split.
  - intro x. split.
    + intro Hx. exact (proj1 (proj2 (proj2 (Hnew x Hx)))).
    + intro Hx. induction Hx as [| y s _ IH Hs]; [left; reflexivity |].
      destruct (Hnew y IH) as [_ [_ [_ Hclosed]]].
      destruct (Hacc s (Hclosed s Hs)) as [X | X]; [| assumption].
      apply Hfalse in X. discriminate.
  - intros x Hx. destruct (Hnew x Hx) as [X _].
    apply (proj1 (Hdom x)). congruence.
Qed.

(** X5. When [find_nodes_order] returns, its list starts with ['start'],
    names no node twice, and holds exactly the nodes reached from ['start']
    along the successor lists of the incidence matrix of the edges; each of
    them is ['start'], ['end'] or a node of the graph. *)
Theorem find_nodes_order_reachable {helpers : Helpers} (g : Graph)
  (es : dict edge (nat * nat)) (ns : dict value (nat * Z)) (order : list value) :
  edges g = Some es -> nodes g = Some ns ->
  find_nodes_order g = Some order ->
  hd_error order = Some start /\
  NoDup order /\
  (forall x, In x order <-> reaches (incidence_matrix (keys es)) start x) /\
  (forall x, In x order -> In x (start :: end_ :: keys ns)).
Proof.
  intros Hes Hns Hrun. unfold find_nodes_order in Hrun.
  rewrite Hes, Hns in Hrun. cbn [bind] in Hrun.
  destruct (preorder_traversal (S (length ([start; end_] ++ keys ns)))
              (incidence_matrix (keys es)) start
              (fold_left (fun d n => set n false d) ([start; end_] ++ keys ns) [], []))
    as [st | |] eqn:Ecall; [| discriminate | discriminate].
  inversion Hrun; subst order.
  apply (@traversal_from_start _ ([start; end_] ++ keys ns) st); [left; reflexivity | exact Ecall].
Qed.

(** X6. [find_nodes_order] raises (the [KeyError] of [visited[successor]])
    exactly when some node reached from ['start'] is neither ['start'],
    ['end'] nor a node of the graph. *)
Theorem find_nodes_order_raises_iff {helpers : Helpers} (g : Graph)
  (es : dict edge (nat * nat)) (ns : dict value (nat * Z)) :
  edges g = Some es -> nodes g = Some ns ->
  (find_nodes_order g <> None <->
   forall x, reaches (incidence_matrix (keys es)) start x ->
             In x (start :: end_ :: keys ns)).
Proof.
  intros Hes Hns. unfold find_nodes_order. rewrite Hes, Hns. cbn [bind].
  set (G := incidence_matrix (keys es)) in *.
  set (nodes_ := [start; end_] ++ keys ns) in *.
  pose proof (preorder_traversal_finishes G nodes_) as Hfin.
  pose proof (@preorder_traversal_no_KeyError (S (length nodes_)) G start start
                (fold_left (fun d n => set n false d) nodes_ [], [])
                (reaches_here G start)) as Hkey.
  destruct (preorder_traversal (S (length nodes_)) G start
              (fold_left (fun d n => set n false d) nodes_ [], [])) as [st | |] eqn:Ecall.
  - split; [| discriminate]. intros _ x Hx.
    assert (Hstart : In start nodes_) by (left; reflexivity).
    destruct (@traversal_from_start G nodes_ st Hstart Ecall)
      as [_ [_ [Hreach Hin]]].
    apply Hin, Hreach. assumption.
  - split; [congruence |]. intros Hall. exfalso. apply Hkey; [| reflexivity].
    intros x Hx. cbn [fst].
    apply (proj2 (fromkeys_get nodes_ x [] (fun b X => ltac:(discriminate X)))).
    left. apply Hall. assumption.
  - congruence.
Qed.

(* ================================================================== *)
(** ** Further properties: the range of [replayability_score] *)

Lemma skip_noise_split ns es tr event rest :
  skip_noise ns es tr = Some (event, rest) ->
  exists pre, tr = pre ++ event :: rest /\
    is_replayed_element ns es event = true /\
    Forall (fun e => is_replayed_element ns es e = false) pre.
Proof.
  induction tr as [| e tr IH]; simpl; [discriminate |].
  destruct (is_replayed_element ns es e) eqn:E.
  - intro X. inversion X; subst. exists []. auto.
  - intro X. destruct (IH X) as [pre [-> [H1 H2]]].
    exists (e :: pre). auto.
Qed.

(** The counters of the replay loop: [phi] counts some of the events that
    [z] counts after the first, and [delta] is a flag. *)
Lemma replay_loop_bounds ns es rest : forall st,
  phi st < z st -> delta st <= 1 ->
  let st' := fold_left (replay_step ns es) rest st in
  phi st' < z st' /\ delta st' <= 1 /\
  z st' <= z st + length rest /\ phi st <= phi st'.
Proof.
  induction rest as [| e rest IH]; intros st Hphi Hdelta; cbn [fold_left length].
  - cbv zeta. lia.
  - assert (H1 : phi (replay_step ns es st e) < z (replay_step ns es st e) /\
                 delta (replay_step ns es st e) <= 1 /\
                 z (replay_step ns es st e) <= S (z st) /\
                 phi st <= phi (replay_step ns es st e)).
    { unfold replay_step. destruct (is_replayed_element ns es e); [| simpl; lia].
      destruct (is_replayed_element ns es (Tuple [actual_node st; e])); simpl; lia. }
    destruct H1 as [A [B [C D]]]. specialize (IH _ A B). cbv zeta in *. lia.
Qed.

Lemma Qnat_le a b : a <= b -> (Qnat a <= Qnat b)%Q.
Proof. intro H. unfold Qnat. rewrite <- Zle_Qle. lia. Qed.

Lemma Qnat_lt a b : a < b -> (Qnat a < Qnat b)%Q.
Proof. intro H. unfold Qnat. rewrite <- Zlt_Qlt. lia. Qed.

Lemma Qnat_ratio a b n :
  0 < n -> a <= b -> b <= n ->
  (0 <= Qnat a / Qnat n /\ Qnat a / Qnat n <= Qnat b / Qnat n /\
   Qnat b / Qnat n <= 1)%Q.
Proof.
  intros Hn Hab Hbn.
  assert (Hpos : (0 < Qnat n)%Q) by (apply (Qnat_lt Hn)).
  split; [| split].
  - apply Qle_shift_div_l; [assumption |]. rewrite Qmult_0_l. apply Qnat_nonneg.
  - apply Qle_shift_div_l; [assumption |].
    unfold Qdiv. rewrite <- Qmult_assoc, (Qmult_comm (/ Qnat n)), Qmult_inv_r, Qmult_1_r.
    + apply Qnat_le. assumption.
    + intro X. rewrite X in Hpos. discriminate.
  - apply Qle_shift_div_r; [assumption |]. rewrite Qmult_1_l. apply Qnat_le. assumption.
Qed.

Lemma Qnat_ratio_lt a b n :
  0 < n -> a < b -> (Qnat a / Qnat n < Qnat b / Qnat n)%Q.
Proof.
  intros Hn Hab.
  assert (Hpos : (0 < Qnat n)%Q) by (apply (Qnat_lt Hn)).
  apply Qlt_shift_div_l; [assumption |].
  unfold Qdiv. rewrite <- Qmult_assoc, (Qmult_comm (/ Qnat n)), Qmult_inv_r, Qmult_1_r.
  - apply Qnat_lt. assumption.
  - intro X. rewrite X in Hpos. discriminate.
Qed.

Lemma Qnat_ratio_1 n : 0 < n -> (Qnat n / Qnat n == 1)%Q.
Proof.
  intro Hn. unfold Qdiv. apply Qmult_inv_r.
  intro X. pose proof (Qnat_lt Hn) as Hpos. rewrite X in Hpos. discriminate.
Qed.

(** The expression under [abs] in line 453, with the two quotients named. *)
Lemma replay_formula_eq alpha beta z_ delta_ phi_ n :
  (Qnat z_ / Qnat n - alpha * Qnat delta_ - beta * Qnat phi_ / Qnat n
   == Qnat z_ / Qnat n - alpha * Qnat delta_ - beta * (Qnat phi_ / Qnat n))%Q.
Proof. unfold Qdiv. ring. Qed.

Lemma replay_formula_range alpha beta z_ delta_ phi_ n :
  (0 <= alpha)%Q -> (alpha <= 1)%Q -> (0 <= beta)%Q -> (beta <= 1)%Q ->
  0 < n -> phi_ <= z_ -> z_ <= n -> delta_ <= 1 ->
  (0 <= replay_formula alpha beta z_ delta_ phi_ n /\
   replay_formula alpha beta z_ delta_ phi_ n <= 1)%Q.
Proof.
  intros Ha0 Ha1 Hb0 Hb1 Hn Hphi Hz Hdelta. unfold replay_formula.
  split; [apply Qabs_nonneg |].
  apply Qabs_Qle_condition. rewrite replay_formula_eq.
  destruct (Qnat_ratio Hn Hphi Hz) as [P0 [P1 P2]].
  set (zn := (Qnat z_ / Qnat n)%Q) in *. set (pn := (Qnat phi_ / Qnat n)%Q) in *.
  assert (Hd : delta_ = 0 \/ delta_ = 1) by lia.
  destruct Hd as [-> | ->].
  - change (Qnat 0) with 0%Q. split; nra.
  - change (Qnat 1) with 1%Q. split; nra.
Qed.

Lemma trace_replayability_score_range ns es alpha beta tr :
  (0 <= alpha)%Q -> (alpha <= 1)%Q -> (0 <= beta)%Q -> (beta <= 1)%Q ->
  tr <> [] ->
  exists score,
    trace_replayability_score ns es alpha beta tr = Some score /\
    (0 <= score)%Q /\ (score <= 1)%Q.
Proof.
  intros Ha0 Ha1 Hb0 Hb1 Hne. unfold trace_replayability_score.
  destruct tr as [| e0 tr0]; [contradiction |].
  set (tr := e0 :: tr0) in *.
  destruct (skip_noise ns es tr) as [[event rest] |] eqn:Eskip.
  - eexists. split; [reflexivity |].
    destruct (skip_noise_split _ _ _ Eskip) as [pre [Etr _]].
    pose proof (@replay_loop_bounds ns es rest
                  {| z := 1; delta := 0; phi := 0; actual_node := event |}) as Hb.
    cbn [z delta phi] in Hb. specialize (Hb ltac:(lia) ltac:(lia)). cbv zeta in Hb.
    destruct Hb as [B1 [B2 [B3 _]]].
    assert (Hlen : length tr = length pre + S (length rest)).
    { rewrite Etr, length_app. reflexivity. }
    apply replay_formula_range; try assumption; lia.
  - exists 0%Q. split; [reflexivity |]. split; [apply Qle_refl | discriminate].
Qed.

(** X7. With both weights between 0 and 1 and a log without empty traces,
    [replayability_score] returns a value between 0 and 1. *)
Theorem replayability_score_range (g : Graph) (log : Log) (alpha beta : Q)
  (ns : dict value (nat * Z)) (es : dict edge (nat * nat)) :
  nodes g = Some ns -> edges g = Some es ->
  wf_log log -> cases log <> [] ->
  Forall (fun tr => tr <> []) (values (flat_log log)) ->
  (0 <= alpha)%Q -> (alpha <= 1)%Q -> (0 <= beta)%Q -> (beta <= 1)%Q ->
  exists score,
    replayability_score g log alpha beta = Some score /\
    (0 <= score)%Q /\ (score <= 1)%Q.
Proof.
  intros Hns Hes Hwf Hcases Hall Ha0 Ha1 Hb0 Hb1.
  unfold replayability_score. rewrite Hns, Hes. cbn [bind].
  assert (Hfold : forall traces acc,
    Forall (fun tr : trace => tr <> []) traces ->
    exists total,
      fold_left (fun acc tr =>
                   s <- acc ;; t <- trace_replayability_score ns es alpha beta tr ;;
                   Some (s + t)%Q) traces (Some acc) = Some total /\
      (acc <= total)%Q /\ (total <= acc + Qnat (length traces))%Q).
  { induction traces as [| tr traces IH]; intros acc Htr.
    - exists acc. split; [reflexivity |]. change (Qnat (length [])) with 0%Q.
      split; lra.
    - inversion Htr as [| ? ? Hne Hrest]; subst.
      destruct (@trace_replayability_score_range ns es alpha beta tr Ha0 Ha1 Hb0 Hb1 Hne)
        as [score [Escore [S0 S1]]].
      destruct (IH (acc + score)%Q Hrest) as [total [Efold [T0 T1]]].
      exists total. cbn [fold_left bind]. rewrite Escore. cbn [bind].
      split; [exact Efold |]. cbn [length]. rewrite Qnat_S. split; lra. }
  destruct (Hfold (values (flat_log log)) 0%Q Hall) as [total [Efold [T0 T1]]].
  rewrite Efold. cbn [bind].
  assert (Hn : 0 < length (cases log)) by (destruct (cases log); [congruence | simpl; lia]).
  assert (Hlen : length (values (flat_log log)) = length (cases log)).
  { rewrite (wf_log_length Hwf). unfold values. apply length_map. }
  rewrite Hlen in T1.
  unfold pydiv. rewrite (Qnat_eq_0 Hn). eexists. split; [reflexivity |].
  pose proof (Qnat_lt Hn) as Hpos. change (Qnat 0) with 0%Q in Hpos.
  split.
  - apply Qle_shift_div_l; [assumption | lra].
  - apply Qle_shift_div_r; [assumption | lra].
Qed.

(** *** Traces that are replayed without loss *)

(** The loop counts every event and no forced transition exactly when every
    event is replayed and every step follows an edge. *)
Lemma replay_loop_perfect ns es rest : forall st,
  phi st < z st -> delta st <= 1 ->
  let st' := fold_left (replay_step ns es) rest st in
  ((z st' = z st + length rest /\ phi st' = phi st) <->
   (Forall (fun e => is_replayed_element ns es e = true) rest /\
    Forall (fun e => mem e es = true) (adjacent (actual_node st :: rest))))
  /\ (Forall (fun e => is_replayed_element ns es e = true) rest ->
      delta st' = delta st).
Proof.
  induction rest as [| e rest IH]; intros st Hphi Hdelta; cbn [fold_left length].
  - cbv zeta. split; [| reflexivity].
    split; [intros _; split; constructor | intros _; lia].
  - cbv zeta.
    destruct (is_replayed_element ns es e) eqn:Ee.
    + destruct (mem (actual_node st, e) es) eqn:Eedge.
      * (* the step follows an edge *)
        assert (Estep : replay_step ns es st e
                  = {| z := S (z st); delta := delta st; phi := phi st;
                       actual_node := e |}).
        { unfold replay_step. rewrite Ee. cbn [is_replayed_element].
          rewrite Eedge. reflexivity. }
        rewrite Estep.
        destruct (IH {| z := S (z st); delta := delta st; phi := phi st;
                        actual_node := e |}) as [IH1 IH2]; cbn [z delta phi]; [lia | lia |].
        cbn [z delta phi actual_node] in IH1, IH2. cbv zeta in IH1, IH2.
        split.
        -- rewrite adjacent_cons, !Forall_cons_iff. split.
           ++ intros [A B]. destruct (proj1 IH1) as [C D]; [lia | auto].
           ++ intros [[_ A] [_ B]]. destruct (proj2 IH1 (conj A B)). lia.
        -- intro Hall. apply IH2. inversion Hall; assumption.
      * (* a forced transition *)
        assert (Estep : replay_step ns es st e
                  = {| z := S (z st); delta := delta st; phi := S (phi st);
                       actual_node := actual_node st |}).
        { unfold replay_step. rewrite Ee. cbn [is_replayed_element].
          rewrite Eedge. reflexivity. }
        rewrite Estep.
        pose proof (@replay_loop_bounds ns es rest
                      {| z := S (z st); delta := delta st; phi := S (phi st);
                         actual_node := actual_node st |}) as Hb.
        cbn [z delta phi] in Hb. specialize (Hb ltac:(lia) ltac:(lia)). cbv zeta in Hb.
        destruct (IH {| z := S (z st); delta := delta st; phi := S (phi st);
                        actual_node := actual_node st |}) as [_ IH2];
          cbn [z delta phi]; [lia | lia |].
        cbn [delta] in IH2. cbv zeta in IH2.
        split.
        -- split; [intros [_ A]; lia |].
           rewrite adjacent_cons, !Forall_cons_iff. intros [_ [A _]]. congruence.
        -- intro Hall. apply IH2. inversion Hall; assumption.
    + (* a skipped event *)
      assert (Estep : replay_step ns es st e
                = {| z := z st; delta := 1; phi := phi st;
                     actual_node := actual_node st |}).
      { unfold replay_step. rewrite Ee. reflexivity. }
      rewrite Estep.
      pose proof (@replay_loop_bounds ns es rest
                    {| z := z st; delta := 1; phi := phi st;
                       actual_node := actual_node st |}) as Hb.
      cbn [z delta phi] in Hb. specialize (Hb ltac:(lia) ltac:(lia)). cbv zeta in Hb.
      split.
      * split; [intros [A _]; lia |].
        rewrite !Forall_cons_iff. intros [[A _] _]. congruence.
      * intro Hall. inversion Hall; congruence.
Qed.

(** An event that is not replayed is not counted by [z]. *)
Lemma replay_loop_z_le ns es rest : forall st,
  z (fold_left (replay_step ns es) rest st) <= z st + length rest.
Proof.
  induction rest as [| e rest IH]; intro st; cbn [fold_left length]; [lia |].
  specialize (IH (replay_step ns es st e)).
  assert (H1 : z (replay_step ns es st e) <= S (z st)).
  { unfold replay_step. destruct (is_replayed_element ns es e); [| simpl; lia].
    destruct (is_replayed_element ns es (Tuple [actual_node st; e])); simpl; lia. }
  lia.
Qed.

Lemma replay_loop_skipped ns es rest : forall st,
  Exists (fun e => is_replayed_element ns es e = false) rest ->
  z (fold_left (replay_step ns es) rest st) < z st + length rest.
Proof.
  induction rest as [| e rest IH]; intros st Hex; [inversion Hex |].
  cbn [fold_left length].
  destruct (is_replayed_element ns es e) eqn:Ee.
  - inversion Hex as [? ? Hhead | ? ? Htail]; subst; [congruence |].
    specialize (IH (replay_step ns es st e) Htail).
    assert (H1 : z (replay_step ns es st e) = S (z st)).
    { unfold replay_step. rewrite Ee.
      destruct (is_replayed_element ns es (Tuple [actual_node st; e])); reflexivity. }
    lia.
  - pose proof (replay_loop_z_le ns es rest (replay_step ns es st e)) as Hle.
    assert (H1 : z (replay_step ns es st e) = z st).
    { unfold replay_step. rewrite Ee. reflexivity. }
    lia.
Qed.

(** With fewer counted events than the trace has, the score stays below 1. *)
Lemma replay_formula_lt_1 alpha beta z_ delta_ phi_ n :
  (0 <= alpha)%Q -> (alpha <= 1)%Q -> (0 <= beta)%Q -> (beta <= 1)%Q ->
  0 < n -> phi_ < z_ -> z_ < n -> delta_ <= 1 ->
  (replay_formula alpha beta z_ delta_ phi_ n < 1)%Q.
Proof.
  intros Ha0 Ha1 Hb0 Hb1 Hn Hphi Hz Hdelta. unfold replay_formula.
  apply Qabs_Qlt_condition. rewrite replay_formula_eq.
  destruct (@Qnat_ratio phi_ z_ n Hn ltac:(lia) ltac:(lia)) as [P0 _].
  pose proof (Qnat_ratio_lt Hn Hphi) as P1.
  assert (Pz : (Qnat z_ / Qnat n < 1)%Q).
  { rewrite <- (Qnat_ratio_1 Hn). apply Qnat_ratio_lt; assumption. }
  set (zn := (Qnat z_ / Qnat n)%Q) in *. set (pn := (Qnat phi_ / Qnat n)%Q) in *.
  assert (Hd : delta_ = 0 \/ delta_ = 1) by lia.
  destruct Hd as [-> | ->].
  - change (Qnat 0) with 0%Q. split; nra.
  - change (Qnat 1) with 1%Q. split; nra.
Qed.

(** X8. With both weights between 0 and 1, a trace whose events are all
    replayed and whose pairs of consecutive events are all edges of the graph
    scores 1, and a trace with an event that is not replayed scores less
    than 1. *)
Theorem trace_replayability_score_perfect
  (ns : dict value (nat * Z)) (es : dict edge (nat * nat)) (alpha beta : Q)
  (tr : trace) (score : Q) :
  (0 <= alpha)%Q -> (alpha <= 1)%Q -> (0 <= beta)%Q -> (beta <= 1)%Q ->
  trace_replayability_score ns es alpha beta tr = Some score ->
  (Forall (fun e => is_replayed_element ns es e = true) tr /\
   Forall (fun e => mem e es = true) (adjacent tr) -> (score == 1)%Q) /\
  (Exists (fun e => is_replayed_element ns es e = false) tr -> (score < 1)%Q).
Proof.
  intros Ha0 Ha1 Hb0 Hb1 Hrun. unfold trace_replayability_score in Hrun.
  destruct tr as [| e0 tr0]; [discriminate |].
  set (tr := e0 :: tr0) in *.
  destruct (skip_noise ns es tr) as [[event rest] |] eqn:Eskip.
  - destruct (skip_noise_split _ _ _ Eskip) as [pre [Etr [Hevent Hpre]]].
    clearbody tr.
    set (st0 := {| z := 1; delta := 0; phi := 0; actual_node := event |}) in *.
    pose proof (@replay_loop_bounds ns es rest st0) as Hb.
    cbn [z delta phi st0] in Hb. specialize (Hb ltac:(lia) ltac:(lia)). cbv zeta in Hb.
    destruct Hb as [B1 [B2 [B3 _]]].
    destruct (@replay_loop_perfect ns es rest st0) as [Hperfect Hflag];
      [cbn; lia | cbn; lia |].
    cbn [z delta phi actual_node st0] in Hperfect, Hflag. cbv zeta in Hperfect, Hflag.
    fold st0 in Hperfect, Hflag, B1, B2, B3.
    pose proof (@replay_loop_skipped ns es rest st0) as Hskipped.
    cbn [z st0] in Hskipped. fold st0 in Hskipped.
    set (st' := fold_left (replay_step ns es) rest st0) in *.
    assert (Hlen : length tr = length pre + S (length rest)).
    { rewrite Etr, length_app. reflexivity. }
    inversion Hrun; subst score. clear Hrun.
    split.
    + intros [Hall Hedges]. rewrite Etr in Hall, Hedges.
      assert (Epre : pre = []).
      { destruct pre as [| p pre]; [reflexivity |].
        inversion Hall; subst. inversion Hpre; subst. congruence. }
      subst pre. cbn [app length] in *.
      inversion Hall as [| ? ? _ Hrest]; subst.
      destruct (proj2 Hperfect (conj Hrest Hedges)) as [Ez Ep].
      rewrite (Hflag Hrest), Ez, Ep, Hlen. unfold replay_formula.
      change (1 + length rest) with (S (length rest)).
      rewrite (@Qnat_ratio_1 (S (length rest)) ltac:(lia)).
      change (Qnat 0) with 0%Q.
      assert (E : (1 - alpha * 0 - beta * 0 / Qnat (S (length rest)) == 1)%Q)
        by (unfold Qdiv; ring).
      rewrite E. reflexivity.
    + intro Hex. rewrite Etr in Hex.
      apply replay_formula_lt_1; try assumption; try lia.
      destruct pre as [| p pre]; [| cbn [length] in Hlen; lia].
      cbn [app length] in Hex, Hlen.
      inversion Hex as [? ? Hhead | ? ? Htail]; subst; [congruence |].
      specialize (Hskipped Htail). lia.
  - inversion Hrun; subst score. split; [| intros _; reflexivity].
    intros [Hall _]. exfalso. inversion Hall; subst.
    unfold tr in Eskip. cbn [skip_noise] in Eskip.
    match goal with H : is_replayed_element ns es e0 = true |- _ => rewrite H in Eskip end.
    discriminate.
Qed.

(* ================================================================== *)
(** ** Further properties: the nodes and edges that [update] assigns *)

(** Line 57: the activities that reach the threshold. *)
Lemma retained_activities_In (S_norm : dict value Q) (threshold : Q) :
  forall (candidates_ activities_ : list value),
  fold_right (fun a acc =>
    l <- acc ;; s <- get a S_norm ;;
    Some (if Qle_bool threshold s then a :: l else l)) (Some []) candidates_
  = Some activities_ ->
  forall a, In a activities_ <->
    In a candidates_ /\ exists s, get a S_norm = Some s /\ (threshold <= s)%Q.
Proof.
  induction candidates_ as [| c cs IH]; intros acts Hrun a; cbn [fold_right] in Hrun.
  - inversion Hrun; subst. simpl. tauto.
  - destruct (fold_right _ (Some []) cs) as [l |] eqn:El; [| discriminate].
    cbn [bind] in Hrun. destruct (get c S_norm) as [s |] eqn:Es; [| discriminate].
    cbn [bind] in Hrun. inversion Hrun; subst acts. clear Hrun.
    specialize (IH l eq_refl a).
    destruct (Qle_bool threshold s) eqn:Ele.
    + cbn [In]. rewrite IH. split.
      * intros [<- | [H1 H2]]; [| tauto].
        split; [left; reflexivity |]. exists s. split; [assumption |].
        apply Qle_bool_iff. assumption.
      * intros [[<- | H1] H2]; [left; reflexivity | right; tauto].
    + rewrite IH. cbn [In]. split; [tauto |].
      intros [[<- | H1] H2]; [| tauto].
      exfalso. destruct H2 as [s' [Hs' Hle]].
      assert (s' = s) by congruence. subst s'.
      apply Qle_bool_iff in Hle. congruence.
Qed.

(** Lines 94-95: the dictionary built over the retained activities. *)
Lemma activities_dict_spec {R : Type} (T : dict value R) (S : dict value Q)
  (f : R -> Q -> nat * Z) : forall (activities_ : list value) (d0 d : dict value (nat * Z)),
  fold_left (fun acc a =>
    d <- acc ;; row <- get a T ;; s <- get a S ;; Some (set a (f row s) d))
    activities_ (Some d0) = Some d ->
  (forall a, In a activities_ ->
     exists row s, get a T = Some row /\ get a S = Some s /\ get a d = Some (f row s)) /\
  (forall a, ~ In a activities_ -> get a d = get a d0).
Proof.
  induction activities_ as [| c cs IH]; intros d0 d Hrun; cbn [fold_left] in Hrun.
  - inversion Hrun; subst. split; [intros a [] | reflexivity].
  - cbn [bind] in Hrun.
    destruct (get c T) as [row |] eqn:Erow; cbn [bind] in Hrun.
    2: { exfalso. clear - Hrun. induction cs; simpl in Hrun; [discriminate | auto]. }
    destruct (get c S) as [s |] eqn:Es; cbn [bind] in Hrun.
    2: { exfalso. clear - Hrun. induction cs; simpl in Hrun; [discriminate | auto]. }
    destruct (IH _ _ Hrun) as [IH1 IH2]. split.
    + intros a Ha. destruct (elem a cs) eqn:E.
      * apply elem_In in E. auto.
      * assert (Hnot : ~ In a cs).
        { intro X. apply elem_In in X. congruence. }
        destruct Ha as [<- | Ha]; [| contradiction].
        exists row, s. rewrite (IH2 c Hnot), get_set_same. auto.
    + intros a Ha. rewrite IH2 by (intro X; apply Ha; right; assumption).
      apply get_set_other. intro X. apply Ha. left. assumption.
Qed.

(** Lines 96-99: every transition gets its entry of the table, or (0, 0). *)
Lemma transitions_dict_spec (T : LogModel.table) : forall (transitions : list edge)
  (d0 : dict edge (nat * nat)),
  let annotate := fun t : edge =>
    match LogModel.get2 (fst t) (snd t) T with Some cnt => cnt | None => (0, 0) end in
  let d := fold_left (fun d t => set t (annotate t) d) transitions d0 in
  (forall t, In t transitions -> get t d = Some (annotate t)) /\
  (forall t, ~ In t transitions -> get t d = get t d0).
Proof.
  induction transitions as [| c cs IH]; intros d0; cbn [fold_left].
  - cbv zeta. split; [intros t [] | reflexivity].
  - cbv zeta.
    set (annotate := fun t : edge =>
      match LogModel.get2 (fst t) (snd t) T with Some cnt => cnt | None => (0, 0) end).
    destruct (IH (set c (annotate c) d0)) as [IH1 IH2]. fold annotate in IH1, IH2.
    split.
    + intros t Ht. destruct (elem t cs) eqn:E.
      * apply elem_In in E. auto.
      * assert (Hnot : ~ In t cs).
        { intro X. apply elem_In in X. congruence. }
        destruct Ht as [<- | Ht]; [| contradiction].
        etransitivity; [exact (IH2 c Hnot) | apply get_set_same].
    + intros t Ht. etransitivity.
      * apply IH2. intro X. apply Ht. right. assumption.
      * apply get_set_other. intro X. apply Ht. left. assumption.
Qed.

(** The steps of [update], named: what a successful call has computed. *)
Lemma update_steps {helpers : Helpers} (log : Log) (activity_rate path_rate : Q)
  (T : LogModel.table + matrix) (S_node : option (dict value Q)) (g' : Graph) :
  update log activity_rate path_rate T S_node = Some g' ->
  let S := match S_node with
           | Some ((_ :: _) as s) => s
           | _ => node_significance log
           end in
  let S_norm := dict_normalization S in
  let T' := match T with inl d => d | inr m => transit_matrix_pm log m end in
  exists activities_ selected transitions ns' es',
    nodes g' = Some ns' /\ edges g' = Some es' /\
    (forall a, In a activities_ <->
       exists s, get a S_norm = Some s /\ (1 - activity_rate / 100 <= s)%Q) /\
    check_feasibility activities_ selected T' (incidence_matrix selected) S_norm
      (dict_normalization_nested
         (edge_sig T' (activities_ ++ [start]) (activities_ ++ [end_]) true))
    = Some transitions /\
    (forall a, In a activities_ ->
       exists row s, get a T' = Some row /\ get a S = Some s /\
         get a ns' = Some (list_sum (map fst (values row)),
                           py_int (s * Qnat (length (cases log))))) /\
    (forall a, ~ In a activities_ -> get a ns' = None) /\
    (forall t, In t transitions ->
       get t es' = Some (match LogModel.get2 (fst t) (snd t) T' with
                         | Some cnt => cnt
                         | None => (0, 0)
                         end)) /\
    (forall t, ~ In t transitions -> get t es' = None).
Proof.
  intros Hrun S S_norm T'. unfold update in Hrun.
  fold S in Hrun. fold S_norm in Hrun. fold T' in Hrun.
  destruct (fold_right _ (Some []) (keys S_norm)) as [activities_ |] eqn:Eacts;
    [| discriminate].
  cbn [bind] in Hrun.
  destruct (self_loop_significance T' activities_ (length (cases log))) as [S_loop |];
    [| discriminate].
  cbn [bind] in Hrun.
  match type of Hrun with
  | context [check_feasibility _ ?sel _ _ _ _] => set (selected := sel) in *
  end.
  destruct (check_feasibility activities_ selected T' (incidence_matrix selected) S_norm _)
    as [transitions |] eqn:Efeas; [| discriminate].
  cbn [bind] in Hrun.
  match type of Hrun with
  | context [fold_left ?f activities_ ?init] =>
      destruct (fold_left f activities_ init) as [ns' |] eqn:Ens; [| discriminate]
  end.
  cbn [bind] in Hrun. inversion Hrun; subst g'. clear Hrun.
  exists activities_, selected, transitions, ns'. eexists.
  cbn [nodes edges].
  split; [reflexivity |]. split; [reflexivity |].
  split.
  { intro a. rewrite (retained_activities_In _ _ _ Eacts a). split.
    - intros [_ X]. exact X.
    - intros [s [Hs Hle]]. split; [| eauto]. apply get_Some_keys. eauto. }
  split; [exact Efeas |].
  destruct (activities_dict_spec _ _ _ _ _ Ens) as [N1 N2].
  destruct (transitions_dict_spec T' transitions []) as [E1 E2].
  cbv zeta in E1, E2.
  split; [exact N1 |]. split; [exact N2 |]. split; [exact E1 | exact E2].
Qed.

(** The margin that covers the rounding of the threshold of line 57: for an
    [activity_rate] between 0 and 100 the double of [1 - activity_rate / 100]
    is within 2^-52 of the exact value. *)
Definition threshold_margin : Q := 1 # 1000000000.

(** X9. After a successful [update] with an [activity_rate] between 0 and
    100, every node is an activity whose normalized significance is not
    below [1 - activity_rate / 100] by more than the margin, and it carries
    the sum of the absolute counts of its row of the transition table as
    its first annotation; every activity whose normalized significance
    exceeds [1 - activity_rate / 100] by the margin is a node.  At
    [activity_rate = 100] and at [activity_rate = 0], where the threshold is
    0 and 1 without rounding, the nodes are exactly the activities whose
    normalized significance is at least the threshold. *)
Theorem update_nodes_threshold {helpers : Helpers} (log : Log)
  (activity_rate path_rate : Q)
  (T : LogModel.table + matrix) (S_node : option (dict value Q)) (g' : Graph) :
  (0 <= activity_rate)%Q -> (activity_rate <= 100)%Q ->
  update log activity_rate path_rate T S_node = Some g' ->
  let S := match S_node with
           | Some ((_ :: _) as s) => s
           | _ => node_significance log
           end in
  let S_norm := dict_normalization S in
  let T' := match T with inl d => d | inr m => transit_matrix_pm log m end in
  exists ns',
    nodes g' = Some ns' /\
    (forall a, In a (keys ns') ->
       exists s row k,
         get a S_norm = Some s /\
         (1 - activity_rate / 100 - threshold_margin <= s)%Q /\
         get a T' = Some row /\
         get a ns' = Some (list_sum (map fst (values row)), k)) /\
    (forall a s, get a S_norm = Some s ->
       (1 - activity_rate / 100 + threshold_margin <= s)%Q -> In a (keys ns')) /\
    ((activity_rate == 100)%Q ->
     forall a, In a (keys ns') <-> exists s, get a S_norm = Some s /\ (0 <= s)%Q) /\
    ((activity_rate == 0)%Q ->
     forall a, In a (keys ns') <-> exists s, get a S_norm = Some s /\ (1 <= s)%Q).
Proof.
  intros Hrate0 Hrate100 Hrun S S_norm T'.
  destruct (update_steps _ _ _ _ _ Hrun)
    as [acts [sel [trs [ns' [es' [Hns [_ [Hacts [_ [N1 [N2 _]]]]]]]]]]].
  fold S in Hacts, N1. fold S_norm in Hacts. fold T' in N1.
  assert (Hkeys : forall a, In a (keys ns') <-> In a acts).
  { intro a. rewrite <- get_Some_keys. split.
    - intros [v Hv]. destruct (elem a acts) eqn:E; [apply elem_In; assumption |].
      rewrite N2 in Hv; [discriminate |]. intro X. apply elem_In in X. congruence.
    - intro Ha. destruct (N1 a Ha) as [row [s [_ [_ X]]]]. eauto. }
  assert (Hmargin : (0 <= threshold_margin)%Q) by discriminate.
  exists ns'. split; [assumption |]. split; [| split; [| split]].
  - intros a Ha. apply Hkeys in Ha.
    destruct (proj1 (Hacts a) Ha) as [s [Hs Hle]].
    destruct (N1 a Ha) as [row [s0 [Hrow [_ Hnode]]]].
    exists s, row. eexists. split; [exact Hs |]. split; [lra |].
    split; [exact Hrow | exact Hnode].
  - intros a s Hs Hle. apply Hkeys, Hacts. exists s. split; [exact Hs | lra].
  - intros Hrate a. rewrite Hkeys, Hacts.
    assert (E : (1 - activity_rate / 100 == 0)%Q) by (rewrite Hrate; reflexivity).
    split; intros [s [Hs Hle]]; exists s; (split; [exact Hs | lra]).
  - intros Hrate a. rewrite Hkeys, Hacts.
    assert (E : (1 - activity_rate / 100 == 1)%Q) by (rewrite Hrate; reflexivity).
    split; intros [s [Hs Hle]]; exists s; (split; [exact Hs | lra]).
Qed.

(** X10. A larger [activity_rate] never loses a node: when two calls of
    [update] on the same log and significance succeed, the nodes of the call
    with the smaller rate are among the nodes of the other. *)
Theorem update_activity_rate_monotone {helpers : Helpers} (log : Log)
  (rate1 rate2 path_rate1 path_rate2 : Q) (T1 T2 : LogModel.table + matrix)
  (S_node : option (dict value Q)) (g1 g2 : Graph)
  (ns1 ns2 : dict value (nat * Z)) :
  (rate1 <= rate2)%Q ->
  update log rate1 path_rate1 T1 S_node = Some g1 ->
  update log rate2 path_rate2 T2 S_node = Some g2 ->
  nodes g1 = Some ns1 -> nodes g2 = Some ns2 ->
  forall a, In a (keys ns1) -> In a (keys ns2).
Proof.
  intros Hle Hrun1 Hrun2 Hns1 Hns2 a Ha.
  destruct (update_steps _ _ _ _ _ Hrun1)
    as [acts1 [_ [_ [ns1' [_ [Hns1' [_ [Hacts1 [_ [_ [M1 _]]]]]]]]]]].
  destruct (update_steps _ _ _ _ _ Hrun2)
    as [acts2 [_ [_ [ns2' [_ [Hns2' [_ [Hacts2 [_ [N2 _]]]]]]]]]].
  assert (ns1' = ns1) by congruence. assert (ns2' = ns2) by congruence. subst.
  apply get_Some_keys.
  assert (Hin1 : In a acts1).
  { destruct (elem a acts1) eqn:E; [apply elem_In; assumption |].
    apply get_Some_keys in Ha. destruct Ha as [v Hv].
    rewrite M1 in Hv; [discriminate |]. intro X. apply elem_In in X. congruence. }
  apply Hacts1 in Hin1. destruct Hin1 as [s [Hs Hthr]].
  assert (Hin2 : In a acts2).
  { apply Hacts2. exists s. split; [assumption |].
    assert ((1 - rate2 / 100 <= 1 - rate1 / 100)%Q).
    { unfold Qdiv. assert ((0 <= / 100)%Q) by discriminate. nra. }
    lra. }
  destruct (N2 a Hin2) as [row [s' [_ [_ X]]]]. eauto.
Qed.

(** X11. After a successful [update] the edges are exactly the transitions
    that the connectivity check leaves, and each carries its entry of the
    transition table, (0, 0) when the table has none. *)
Theorem update_edge_rule {helpers : Helpers} (log : Log) (activity_rate path_rate : Q)
  (T : LogModel.table + matrix) (S_node : option (dict value Q)) (g' : Graph) :
  update log activity_rate path_rate T S_node = Some g' ->
  let S_norm := dict_normalization
                  match S_node with
                  | Some ((_ :: _) as s) => s
                  | _ => node_significance log
                  end in
  let T' := match T with inl d => d | inr m => transit_matrix_pm log m end in
  exists activities_ selected transitions es',
    check_feasibility activities_ selected T' (incidence_matrix selected) S_norm
      (dict_normalization_nested
         (edge_sig T' (activities_ ++ [start]) (activities_ ++ [end_]) true))
    = Some transitions /\
    edges g' = Some es' /\
    (forall t, In t (keys es') <-> In t transitions) /\
    (forall a b row cnt, In (a, b) (keys es') ->
       get a T' = Some row -> get b row = Some cnt -> get (a, b) es' = Some cnt) /\
    (forall a b, In (a, b) (keys es') ->
       LogModel.get2 a b T' = None -> get (a, b) es' = Some (0, 0)).
Proof.
  intros Hrun S_norm T'.
  destruct (update_steps _ _ _ _ _ Hrun)
    as [acts [sel [trs [ns' [es' [_ [Hes [_ [Hfeas [_ [_ [E1 E2]]]]]]]]]]]].
  fold S_norm in Hfeas. fold T' in Hfeas, E1.
  assert (Hkeys : forall t, In t (keys es') <-> In t trs).
  { intro t. rewrite <- get_Some_keys. split.
    - intros [v Hv]. destruct (elem t trs) eqn:E; [apply elem_In; assumption |].
      rewrite E2 in Hv; [discriminate |]. intro X. apply elem_In in X. congruence.
    - intro Ht. rewrite (E1 t Ht). eauto. }
  exists acts, sel, trs, es'.
  split; [exact Hfeas |]. split; [exact Hes |]. split; [exact Hkeys |]. split.
  - intros a b row cnt Hin Hrow Hcnt. apply Hkeys in Hin. rewrite (E1 _ Hin).
    cbn [fst snd]. unfold LogModel.get2. rewrite Hrow. cbn [bind]. rewrite Hcnt.
    reflexivity.
  - intros a b Hin Hnone. apply Hkeys in Hin. rewrite (E1 _ Hin).
    cbn [fst snd]. rewrite Hnone. reflexivity.
Qed.

(* ================================================================== *)
(** ** Instances of the further properties *)

Lemma counted_cycles_are_simple_closed_walks_witness :
  exists node, hd_error [vx; vy] = Some node /\ In node (keys ns_xy) /\ NoDup [vx; vy] /\
    (forall e, In e (adjacent ([vx; vy] ++ [node])) -> In e (keys es_xy)) /\
    exists tr pre post,
      In tr (values (flat_log log_xy)) /\ tr = pre ++ [vx; vy] ++ node :: post.
Proof.
  apply (@counted_cycles_are_simple_closed_walks ns_xy es_xy
           (values (flat_log log_xy)) [vx; vy]).
  left. reflexivity.
Defined.

Lemma counted_cycles_frequency_bounds_witness :
  1 <= 1 /\ 1 <= 1 /\ 1 <= length (values (flat_log log_xy)).
Proof.
  apply (@counted_cycles_frequency_bounds ns_xy es_xy
           (values (flat_log log_xy)) [vx; vy] 1 1).
  reflexivity.
Defined.

Lemma find_cycles_keys_are_closed_walks_witness :
  exists node, hd_error [vx; vy] = Some node /\ NoDup [vx; vy] /\
    forall e, In e (adjacent ([vx; vy] ++ [node])) -> In e (keys es_xy).
Proof.
  apply (@find_cycles_keys_are_closed_walks plain_helpers g_xy log_xy true false
           es_xy [([vx; vy], (2, 2))] [vx; vy]).
  - reflexivity.
  - reflexivity.
  - left. reflexivity.
Defined.

Lemma find_cycles_merge_preserves_totals_witness :
  list_sum (map (fun e : cycle * (nat * nat) => fst (snd e)) [([vx; vy], (2, 2))])
  = list_sum (map (fun e => fst (snd e))
                (count_cycles ns_xy es_xy (values (flat_log log_xy)))) /\
  list_sum (map (fun e : cycle * (nat * nat) => snd (snd e)) [([vx; vy], (2, 2))])
  = list_sum (map (fun e => snd (snd e))
                (count_cycles ns_xy es_xy (values (flat_log log_xy)))).
Proof.
  apply (@find_cycles_merge_preserves_totals ns_xy es_xy (values (flat_log log_xy))
           None [([vx; vy], (2, 2))]).
  reflexivity.
Defined.

Lemma find_nodes_order_reachable_witness :
  hd_error [start; vx; vy; end_] = Some start /\
  NoDup [start; vx; vy; end_] /\
  (forall x, In x [start; vx; vy; end_] <->
     reaches (incidence_matrix (Helpers := plain_helpers) (keys es_xy)) start x) /\
  (forall x, In x [start; vx; vy; end_] -> In x (start :: end_ :: keys ns_xy)).
Proof.
  apply (@find_nodes_order_reachable plain_helpers g_xy es_xy ns_xy [start; vx; vy; end_]).
  - reflexivity.
  - reflexivity.
  - reflexivity.
Defined.

Lemma find_nodes_order_raises_iff_witness :
  find_nodes_order (helpers := plain_helpers) g_xy <> None <->
  forall x, reaches (incidence_matrix (Helpers := plain_helpers) (keys es_xy)) start x ->
            In x (start :: end_ :: keys ns_xy).
Proof.
  apply (@find_nodes_order_raises_iff plain_helpers g_xy es_xy ns_xy).
  - reflexivity.
  - reflexivity.
Defined.

(** An edge into "z", which is not a node: the traversal raises. *)
Example find_nodes_order_foreign_successor :
  find_nodes_order (helpers := plain_helpers)
    {| nodes := Some ns_xy; edges := Some (((vx, Str "z"), (1, 1)) :: es_xy) |}
  = None.
Proof. reflexivity. Qed.

(** ... unless nothing leads from 'start' to it. *)
Example find_nodes_order_unreached_successor :
  find_nodes_order (helpers := plain_helpers)
    {| nodes := Some ns_xy; edges := Some [((start, vy), (1, 1)); ((vx, Str "z"), (1, 1))] |}
  = Some [start; vy].
Proof. reflexivity. Qed.

Lemma replayability_score_range_witness :
  exists score,
    replayability_score g_xy log_xy 0.1 1 = Some score /\
    (0 <= score)%Q /\ (score <= 1)%Q.
Proof.
  apply (@replayability_score_range g_xy log_xy 0.1 1 ns_xy es_xy).
  - reflexivity.
  - reflexivity.
  - exact wf_log_xy.
  - discriminate.
  - repeat constructor; discriminate.
  - discriminate.
  - discriminate.
  - discriminate.
  - discriminate.
Defined.

Lemma trace_replayability_score_perfect_witness :
  (Forall (fun e => is_replayed_element ns_xy es_xy e = true) [vx; vy] /\
   Forall (fun e => mem e es_xy = true) (adjacent [vx; vy]) ->
   (replay_formula 0.1 1 2 0 0 2 == 1)%Q) /\
  (Exists (fun e => is_replayed_element ns_xy es_xy e = false) [vx; vy] ->
   (replay_formula 0.1 1 2 0 0 2 < 1)%Q).
Proof.
  apply (@trace_replayability_score_perfect ns_xy es_xy 0.1 1 [vx; vy]
           (replay_formula 0.1 1 2 0 0 2)).
  - discriminate.
  - discriminate.
  - discriminate.
  - discriminate.
  - reflexivity.
Defined.

(** A trace with an event "z" that is no node: two of its three events are
    counted and the flag of the skipped events is set. *)
Example trace_score_skipped_event :
  option_map Qred (trace_replayability_score ns_xy es_xy 0.1 1 [vx; Str "z"; vy])
  = Some (17 # 30)%Q.
Proof. reflexivity. Qed.

(** A trace with a step (y, y) that is no edge scores less. *)
Example trace_score_forced_transition :
  option_map Qred (trace_replayability_score ns_xy es_xy 0.1 1 [vx; vy; vy])
  = Some (2 # 3)%Q.
Proof. reflexivity. Qed.

(** A significance that retains "x" at [activity_rate = 50] and both
    activities at 100. *)
Definition S_x : dict value Q := [(vx, 1%Q); (vy, 0.4%Q)].

Definition g_x : Graph :=
  {| nodes := Some [(vx, (3, 2%Z))]; edges := Some [((start, vx), (2, 2))] |}.

Definition g_x_all : Graph :=
  {| nodes := Some [(vx, (3, 2%Z)); (vy, (3, 0%Z))]; edges := Some es_xy |}.

Example update_half :
  update (helpers := plain_helpers) log_xy 50 100 (inl T_xy) (Some S_x) = Some g_x.
Proof. reflexivity. Qed.

Example update_all :
  update (helpers := plain_helpers) log_xy 100 100 (inl T_xy) (Some S_x) = Some g_x_all.
Proof. reflexivity. Qed.

(** An empty significance is falsy: [node_significance] is used instead. *)
Example update_empty_significance :
  update (helpers := plain_helpers) log_xy 100 100 (inl T_xy) (Some [])
  = update (helpers := plain_helpers) log_xy 100 100 (inl T_xy) None.
Proof. reflexivity. Qed.

Lemma update_nodes_threshold_witness :
  exists ns',
    nodes g_x = Some ns' /\
    (forall a, In a (keys ns') ->
       exists s row k,
         get a (dict_normalization (Helpers := plain_helpers) S_x) = Some s /\
         (1 - 50 / 100 - threshold_margin <= s)%Q /\
         get a T_xy = Some row /\
         get a ns' = Some (list_sum (map fst (values row)), k)) /\
    (forall a s, get a (dict_normalization (Helpers := plain_helpers) S_x) = Some s ->
       (1 - 50 / 100 + threshold_margin <= s)%Q -> In a (keys ns')) /\
    ((50 == 100)%Q ->
     forall a, In a (keys ns') <->
       exists s, get a (dict_normalization (Helpers := plain_helpers) S_x) = Some s /\
                 (0 <= s)%Q) /\
    ((50 == 0)%Q ->
     forall a, In a (keys ns') <->
       exists s, get a (dict_normalization (Helpers := plain_helpers) S_x) = Some s /\
                 (1 <= s)%Q).
Proof.
  apply (@update_nodes_threshold plain_helpers log_xy 50 100 (inl T_xy) (Some S_x) g_x).
  - discriminate.
  - discriminate.
  - reflexivity.
Defined.

Lemma update_activity_rate_monotone_witness : In vx (keys [(vx, (3, 2%Z)); (vy, (3, 0%Z))]).
Proof.
  apply (@update_activity_rate_monotone plain_helpers log_xy 50 100 100 100
           (inl T_xy) (inl T_xy) (Some S_x) g_x g_x_all
           [(vx, (3, 2%Z))] [(vx, (3, 2%Z)); (vy, (3, 0%Z))]).
  - discriminate.
  - reflexivity.
  - reflexivity.
  - reflexivity.
  - reflexivity.
  - left. reflexivity.
Defined.

Lemma update_edge_rule_witness :
  exists activities_ selected transitions es',
    check_feasibility (Helpers := plain_helpers) activities_ selected T_xy
      (incidence_matrix (Helpers := plain_helpers) selected)
      (dict_normalization (Helpers := plain_helpers) S_x)
      (dict_normalization_nested (Helpers := plain_helpers)
         (edge_sig (Helpers := plain_helpers) T_xy
            (activities_ ++ [start]) (activities_ ++ [end_]) true))
    = Some transitions /\
    edges g_x_all = Some es' /\
    (forall t, In t (keys es') <-> In t transitions) /\
    (forall a b row cnt, In (a, b) (keys es') ->
       get a T_xy = Some row -> get b row = Some cnt -> get (a, b) es' = Some cnt) /\
    (forall a b, In (a, b) (keys es') ->
       LogModel.get2 a b T_xy = None -> get (a, b) es' = Some (0, 0)).
Proof.
  apply (@update_edge_rule plain_helpers log_xy 100 100 (inl T_xy) (Some S_x) g_x_all).
  reflexivity.
Defined.

(* ================================================================== *)
(** ** Further properties: the meta-states of [find_states] *)

(** Lines 329-330, for any number of cases. *)
Lemma find_states_from_In cycles case_cnt cycle_rel : forall SC,
  find_states_from cycles case_cnt cycle_rel = Some SC ->
  forall c, In c SC <->
    exists abs_freq case_freq q,
      In (c, (abs_freq, case_freq)) cycles /\ 1 < length c /\
      pydiv (Qnat case_freq) (Qnat case_cnt) = Some q /\ (cycle_rel <= q)%Q.
Proof.
  induction cycles as [| [c0 [n0 k0]] cycles IH]; intros SC Hrun c;
    cbn [find_states_from fold_right] in Hrun.
  - inversion Hrun; subst. split; [intros [] | intros [? [? [? [[] _]]]]].
  - fold (find_states_from cycles case_cnt cycle_rel) in Hrun.
    destruct (find_states_from cycles case_cnt cycle_rel) as [l |]; [| discriminate].
    cbn [bind] in Hrun. specialize (IH l eq_refl c).
    destruct (1 <? length c0) eqn:Elen.
    + apply Nat.ltb_lt in Elen.
      destruct (pydiv (Qnat k0) (Qnat case_cnt)) as [q0 |] eqn:Eq; [| discriminate].
      cbn [bind] in Hrun. inversion Hrun; subst SC. clear Hrun.
      destruct (Qle_bool cycle_rel q0) eqn:Ele.
      * apply Qle_bool_iff in Ele. cbn [In]. rewrite IH. split.
        -- intros [<- | [n [k [q [Hin Hc]]]]];
             [exists n0, k0, q0; auto | exists n, k, q; tauto].
        -- intros [n [k [q [[Heq | Hin] Hc]]]];
             [inversion Heq; auto | right; exists n, k, q; auto].
      * rewrite IH. split.
        -- intros [n [k [q [Hin Hc]]]]. exists n, k, q. cbn [In]. tauto.
        -- intros [n [k [q [[Heq | Hin] [Hlen [Hq Hle]]]]]]; [| exists n, k, q; auto].
           exfalso. inversion Heq; subst.
           assert (q = q0) by congruence. subst q.
           apply Qle_bool_iff in Hle. congruence.
    + apply Nat.ltb_ge in Elen. inversion Hrun; subst SC. clear Hrun.
      rewrite IH. split.
      * intros [n [k [q [Hin Hc]]]]. exists n, k, q. cbn [In]. tauto.
      * intros [n [k [q [[Heq | Hin] [Hlen Hc]]]]]; [| exists n, k, q; auto].
        exfalso. inversion Heq; subst. lia.
Qed.

(** X12. Every meta-state that [find_states] returns is a cycle of the
    model: it has at least two activities, repeats none, and every
    transition along it, the closing one included, is an edge of the graph. *)
Theorem find_states_are_model_cycles {helpers : Helpers} (g : Graph) (log : Log)
  (pre_traverse ordered : bool) (cycle_rel : Q) (es : dict edge (nat * nat))
  (SC : list cycle) (c : cycle) :
  edges g = Some es ->
  find_states g log pre_traverse ordered cycle_rel = Some SC ->
  In c SC ->
  1 < length c /\ NoDup c /\
  exists node, hd_error c = Some node /\
    forall e, In e (adjacent (c ++ [node])) -> In e (keys es).
Proof.
  intros Hes Hrun Hc. unfold find_states in Hrun.
  destruct (find_cycles g log pre_traverse ordered) as [cycles |] eqn:Ecycles;
    [| discriminate].
  cbn [bind] in Hrun.
  apply (find_states_from_In _ _ _ Hrun) in Hc.
  destruct Hc as [n [k [q [Hin [Hlen _]]]]].
  assert (Hkey : In c (keys cycles)).
  { change c with (fst (c, (n, k))). apply in_map. assumption. }
  unfold find_cycles in Ecycles.
  destruct (nodes g) as [ns |]; [| discriminate]. rewrite Hes in Ecycles.
  cbn [bind] in Ecycles.
  destruct (if pre_traverse then option_map Some (find_nodes_order g) else Some None)
    as [order |]; [| discriminate].
  cbn [bind] in Ecycles.
  destruct (@find_cycles_from_closed_walks ns es _ order ordered cycles c Ecycles Hkey)
    as [node [Hhd [ND Hwalk]]].
  split; [assumption |]. split; [assumption |]. eauto.
Qed.

(** X13. Raising [cycle_rel] never adds a meta-state: what [find_states]
    returns at the larger level is among what it returns at the smaller. *)
Theorem find_states_antimonotone {helpers : Helpers} (g : Graph) (log : Log)
  (pre_traverse ordered : bool) (rel1 rel2 : Q) (SC1 SC2 : list cycle) (c : cycle) :
  (rel1 <= rel2)%Q ->
  find_states g log pre_traverse ordered rel1 = Some SC1 ->
  find_states g log pre_traverse ordered rel2 = Some SC2 ->
  In c SC2 -> In c SC1.
Proof.
  intros Hle Hrun1 Hrun2 Hc. unfold find_states in Hrun1, Hrun2.
  destruct (find_cycles g log pre_traverse ordered) as [cycles |]; [| discriminate].
  cbn [bind] in Hrun1, Hrun2.
  apply (find_states_from_In _ _ _ Hrun2) in Hc.
  apply (find_states_from_In _ _ _ Hrun1).
  destruct Hc as [n [k [q [Hin [Hlen [Hq Hrel]]]]]].
  exists n, k, q. repeat split; try assumption. lra.
Qed.

Lemma find_states_are_model_cycles_witness :
  1 < length [vx; vy] /\ NoDup [vx; vy] /\
  exists node, hd_error [vx; vy] = Some node /\
    forall e, In e (adjacent ([vx; vy] ++ [node])) -> In e (keys es_xy).
Proof.
  apply (@find_states_are_model_cycles plain_helpers g_xy log_half false false 0.5
           es_xy [[vx; vy]] [vx; vy]).
  - reflexivity.
  - reflexivity.
  - left. reflexivity.
Defined.

Lemma find_states_antimonotone_witness : In [vx; vy] [[vx; vy]].
Proof.
  apply (@find_states_antimonotone plain_helpers g_xy log_half false false 0.25 0.5
           [[vx; vy]] [[vx; vy]] [vx; vy]).
  - discriminate.
  - reflexivity.
  - reflexivity.
  - left. reflexivity.
Defined.

(* ================================================================== *)
(** ** Further properties: the order of the cases in [transit_matrix] *)

Lemma abs_count_Permutation a b traces1 traces2 :
  Permutation traces1 traces2 ->
  LogModel.abs_count a b traces1 = LogModel.abs_count a b traces2.
Proof.
  unfold LogModel.abs_count.
  induction 1 as [| t l l' _ IH | t t' l | l l' l'' _ IH1 _ IH2]; simpl; lia.
Qed.

Lemma case_count_Permutation a b traces1 traces2 :
  Permutation traces1 traces2 ->
  LogModel.case_count a b traces1 = LogModel.case_count a b traces2.
Proof.
  unfold LogModel.case_count.
  induction 1 as [| t l l' _ IH | t t' l | l l' l'' _ IH1 _ IH2]; simpl.
  - reflexivity.
  - destruct (negb (LogModel.count_adj a b t =? 0)); simpl; lia.
  - destruct (negb (LogModel.count_adj a b t =? 0));
      destruct (negb (LogModel.count_adj a b t' =? 0)); reflexivity.
  - lia.
Qed.

(** X14. [transit_matrix] returns for every log, and the entries of its
    table do not depend on the order in which the cases are visited: two
    logs with the same traces in another order give the same [T[a][b]] for
    every pair. *)
Theorem transit_matrix_case_order (log1 log2 : Log) :
  Permutation (values (flat_log log1)) (values (flat_log log2)) ->
  exists T1 T2,
    LogModel.transit_matrix log1 = Some T1 /\
    LogModel.transit_matrix log2 = Some T2 /\
    forall a b, LogModel.get2 a b T1 = LogModel.get2 a b T2.
Proof.
  intro Hperm.
  assert (S0 : LogModel.sync [] []) by (split; intros; simpl; tauto).
  assert (A0 : LogModel.all_true []) by (intros x y f; discriminate).
  destruct (LogModel.scan_log_spec (values (flat_log log1)) S0 A0) as [st1 [E1 HV1]].
  destruct (LogModel.scan_log_spec (values (flat_log log2)) S0 A0) as [st2 [E2 HV2]].
  exists (fst st1), (fst st2). unfold LogModel.transit_matrix.
  assert (E1' : LogModel.scan_log (values (flat_log log1)) LogModel.empty_state = Some st1)
    by exact E1.
  assert (E2' : LogModel.scan_log (values (flat_log log2)) LogModel.empty_state = Some st2)
    by exact E2.
  rewrite E1', E2'. cbn [bind].
  split; [reflexivity |]. split; [reflexivity |].
  intros a b. rewrite HV1, HV2.
  rewrite (abs_count_Permutation a b Hperm), (case_count_Permutation a b Hperm).
  reflexivity.
Qed.

(** The scenario with its two cases in the other order. *)
Definition log_yx : Log :=
  {| flat_log := [("B"%string, [vx; vy]); ("A"%string, [vx; vy; vx; vy])];
     cases := ["B"%string; "A"%string];
     activities := [vx; vy] |}.

Lemma transit_matrix_case_order_witness :
  exists T1 T2,
    LogModel.transit_matrix log_xy = Some T1 /\
    LogModel.transit_matrix log_yx = Some T2 /\
    forall a b, LogModel.get2 a b T1 = LogModel.get2 a b T2.
Proof.
  apply (@transit_matrix_case_order log_xy log_yx).
  apply perm_swap.
Defined.

(* ================================================================== *)
(** ** The search for the rates: [optimize] (lines 104-171) *)

(** [step]: an int, a float, or a list of grid points. *)
Inductive step_arg : Type :=
| StepInt (n : Z)
| StepFloat (q : Q)
| StepList (points : list Q).

(** [range(0, 101, step)] for an int [step] other than 0: 0, step, 2 * step,
    ... below 101, and nothing for a negative step. *)
Definition py_range_0_101 (step : Z) : list Z :=
  if (0 <? step)%Z
  then map (fun i => (Z.of_nat i * step)%Z) (seq 0 (S (Z.to_nat (100 / step))))
  else [].

(** Lines 150-155.  For an int or a float, [100 // step] raises on 0 and the
    division by [(100 // step + 1) ** 2] raises when [100 // step] is -1,
    that is for [step <= -100]; [range] then refuses a float.  For a list,
    [100 / len(step)] raises on the empty list. *)
Definition grid_of (step : step_arg) : option (list Q) :=
  match step with
  | StepInt n =>
      if ((n =? 0) || (100 / n + 1 =? 0))%Z then None
      else Some (map inject_Z (py_range_0_101 n))
  | StepFloat _ => None
  | StepList points =>
      _ <- pydiv 100 (Qnat (length points)) ;; Some points
  end.

(** The keys of [Q_val] are pairs of numbers, equal when their components
    are. *)
Definition theta_eqb (x y : Q * Q) : bool :=
  Qeq_bool (fst x) (fst y) && Qeq_bool (snd x) (snd y).

(** [Q_val[theta] = v] *)
Fixpoint Q_val_set {V : Type} (theta : Q * Q) (v : V) (d : list ((Q * Q) * V))
  : list ((Q * Q) * V) :=
  match d with
  | [] => [(theta, v)]
  | (k, w) :: d' =>
      if theta_eqb theta k then (k, v) :: d' else (k, w) :: Q_val_set theta v d'
  end.

Definition Qlt_bool (x y : Q) : bool := negb (Qle_bool y x).

(** [max(Q_val, key=...)]: the first key with the largest value; the
    [ValueError] on an empty dictionary is [None]. *)
Definition py_max (scores : list ((Q * Q) * Q)) : option (Q * Q) :=
  match scores with
  | [] => None
  | first :: rest =>
      Some (fst (fold_left (fun best x => if Qlt_bool (snd best) (snd x) then x else best)
                   rest first))
  end.

(** Line 167: one entry of [Q_val] replaced by the value of the quality
    function. *)
Definition rescale (lambd max_compl : Q) (entry : (Q * Q) * (Q * Q))
  : option ((Q * Q) * Q) :=
  c <- pydiv (snd (snd entry)) max_compl ;;
  Some (fst entry, ((1 - lambd) * fst (snd entry) + lambd * (1 - c))%Q).

(** Lines 166-167. *)
Fixpoint rescale_all (lambd max_compl : Q) (Q_val : list ((Q * Q) * (Q * Q)))
  : option (list ((Q * Q) * Q)) :=
  match Q_val with
  | [] => Some []
  | entry :: rest =>
      e <- rescale lambd max_compl entry ;;
      l <- rescale_all lambd max_compl rest ;;
      Some (e :: l)
  end.

Section Optimize.
Context {helpers : Helpers}.

(** [ADS_matrix(log, T.T)] on the table of a [TransitionMatrix] object, whose
    result [optimize] never uses; [false]: the call raises. *)
Variable ADS_matrix_returns : Log -> matrix -> bool.

(** Lines 142-146: the two terms of the quality function on the graph that
    [update] has just built. *)
Definition quality_terms (log : Log) (g : Graph) : option (Q * Q) :=
  ns <- nodes g ;;
  es <- edges g ;;
  let n := length ns + 2 in
  let m := length es in
  alpha <- pydiv (0.5 * 1) (Qnat (length (activities log))) ;;
  beta <- pydiv 1 (Qnat (length (activities log))) ;;
  repl <- replayability_score g log alpha beta ;;
  Some (repl, (Qnat m / Qnat n)%Q).

(** The nested function [Q] (the name is taken by the rationals): what it
    returns, [None] when it raises, and the graph that it leaves. *)
Definition Q_ (g : Graph) (log : Log) (T : matrix) (theta1 theta2 : Q)
  : option (Q * Q) * Graph :=
  match update log theta1 theta2 (inr T) None with
  | None => (None, g)
  | Some g1 => (quality_terms log g1, g1)
  end.

(** Line 159, inside the two loops; nothing runs after an exception. *)
Definition eval_point (log : Log) (T : matrix)
  (acc : option (list ((Q * Q) * (Q * Q))) * Graph) (theta : Q * Q)
  : option (list ((Q * Q) * (Q * Q))) * Graph :=
  match fst acc with
  | None => acc
  | Some Q_val =>
      match Q_ (snd acc) log T (fst theta) (snd theta) with
      | (Some v, g1) => (Some (Q_val_set theta v Q_val), g1)
      | (None, g1) => (None, g1)
      end
  end.

(** [optimize]: the rates it returns, [None] when it raises, and the graph
    it leaves.  The progress messages of [verbose] are not modelled. *)
Definition optimize (g : Graph) (log : Log) (T : matrix) (lambd : Q) (step : step_arg)
  : option (Q * Q) * Graph :=
  if negb (ADS_matrix_returns log T) then (None, g) else
  match grid_of step with
  | None => (None, g)
  | Some grid =>
  match fold_left (eval_point log T) (list_prod grid grid) (Some [], g) with
  | (None, g1) => (None, g1)
  | (Some Q_val, g1) =>
  match Q_ g1 log T 100 100 with
  | (None, g2) => (None, g2)
  | (Some q, g2) =>
      let max_compl := snd q in
      match scores <- rescale_all lambd max_compl Q_val ;; py_max scores with
      | None => (None, g2)
      | Some Q_opt =>
          match update log (fst Q_opt) (snd Q_opt) (inr T) None with
          | None => (None, g2)
          | Some g3 => (Some Q_opt, g3)
          end
      end
  end end end.

End Optimize.

(** *** What [optimize] returns *)

(** Assigning a key keeps the entries of the other keys and stores the value
    under the key itself or under an equal key already present. *)
Lemma Q_val_set_In {V : Type} (theta : Q * Q) (v : V) (d : list ((Q * Q) * V)) k w :
  In (k, w) (Q_val_set theta v d) ->
  In (k, w) d \/
  (w = v /\ (k = theta \/ (theta_eqb theta k = true /\ exists w', In (k, w') d))).
Proof.
  induction d as [| [k0 w0] d IH]; cbn [Q_val_set].
  - intros [X | []]. inversion X; subst. right. auto.
  - destruct (theta_eqb theta k0) eqn:E.
    + intros [X | X].
      * inversion X; subst. right. split; [reflexivity |]. right.
        split; [assumption |]. exists w0. left. reflexivity.
      * left. right. assumption.
    + intros [X | X].
      * left. left. assumption.
      * destruct (IH X) as [Y | [-> [Y | [Y [w' Hw']]]]].
        -- left. right. assumption.
        -- right. auto.
        -- right. split; [reflexivity |]. right. split; [assumption |].
           exists w'. right. assumption.
Qed.

Lemma Q_val_set_keeps {V : Type} (theta : Q * Q) (v : V) (d : list ((Q * Q) * V)) k w :
  In (k, w) d -> exists w', In (k, w') (Q_val_set theta v d).
Proof.
  induction d as [| [k0 w0] d IH]; cbn [Q_val_set]; [intros [] |].
  destruct (theta_eqb theta k0) eqn:E.
  - intros [X | X].
    + inversion X; subst. exists v. left. reflexivity.
    + exists w. right. assumption.
  - intros [X | X].
    + exists w. left. assumption.
    + destruct (IH X) as [w' Hw']. exists w'. right. assumption.
Qed.

Lemma Q_val_set_has {V : Type} (theta : Q * Q) (v : V) (d : list ((Q * Q) * V)) :
  exists k, In (k, v) (Q_val_set theta v d) /\
    (k = theta \/ (theta_eqb theta k = true /\ exists w', In (k, w') d)).
Proof.
  induction d as [| [k0 w0] d IH]; cbn [Q_val_set].
  - exists theta. split; [left; reflexivity | left; reflexivity].
  - destruct (theta_eqb theta k0) eqn:E.
    + exists k0. split; [left; reflexivity |]. right. split; [assumption |].
      exists w0. left. reflexivity.
    + destruct IH as [k [Hin Hk]]. exists k. split; [right; assumption |].
      destruct Hk as [-> | [Hk [w' Hw']]]; [left; reflexivity |].
      right. split; [assumption |]. exists w'. right. assumption.
Qed.

(** Grid points that are equal as numbers are the same point. *)
Definition canonical (grid : list Q) : Prop :=
  forall x y, In x grid -> In y grid -> (x == y)%Q -> x = y.

Lemma canonical_points grid x y :
  canonical grid ->
  In x (list_prod grid grid) -> In y (list_prod grid grid) ->
  theta_eqb x y = true -> x = y.
Proof.
  intros Hc Hx Hy E. destruct x as [x1 x2], y as [y1 y2].
  apply in_prod_iff in Hx. apply in_prod_iff in Hy.
  unfold theta_eqb in E. cbn [fst snd] in E. apply andb_true_iff in E.
  destruct E as [E1 E2]. apply Qeq_bool_iff in E1. apply Qeq_bool_iff in E2.
  f_equal; apply Hc; tauto.
Qed.

Lemma py_range_canonical n : canonical (map inject_Z (py_range_0_101 n)).
Proof.
  intros x y Hx Hy E. apply in_map_iff in Hx. apply in_map_iff in Hy.
  destruct Hx as [a [<- _]]. destruct Hy as [b [<- _]].
  apply (proj1 (inject_Z_injective a b)) in E. subst. reflexivity.
Qed.

(** The grid of a list must not name a point twice in two ways; the grid of
    an int step never does. *)
Definition step_canonical (step : step_arg) : Prop :=
  match step with
  | StepList points => canonical points
  | _ => True
  end.

Lemma grid_of_canonical step grid :
  step_canonical step -> grid_of step = Some grid -> canonical grid.
Proof.
  destruct step as [n | q | points]; cbn [grid_of step_canonical]; intros Hc Hg.
  - destruct ((n =? 0) || (100 / n + 1 =? 0))%Z; [discriminate |].
    inversion Hg; subst. apply py_range_canonical.
  - discriminate.
  - destruct (pydiv 100 (Qnat (length points))); [| discriminate].
    cbn [bind] in Hg. inversion Hg; subst. assumption.
Qed.

Lemma py_max_spec scores k :
  py_max scores = Some k ->
  exists s, In (k, s) scores /\ forall k' s', In (k', s') scores -> (s' <= s)%Q.
Proof.
  destruct scores as [| first rest]; cbn [py_max]; [discriminate |].
  intro X. assert (Hk : fst (fold_left (fun best x => if Qlt_bool (snd best) (snd x) then x else best)
                          rest first) = k) by (inversion X; reflexivity).
  clear X.
  assert (Hloop : forall (rest : list ((Q * Q) * Q)) (best : (Q * Q) * Q) seen,
    In best seen -> (forall x, In x seen -> (snd x <= snd best)%Q) ->
    let best' := fold_left (fun best x => if Qlt_bool (snd best) (snd x) then x else best)
                   rest best in
    In best' (seen ++ rest) /\
    forall x, In x (seen ++ rest) -> (snd x <= snd best')%Q).
  { clear. induction rest as [| x rest IH]; intros best seen Hin Hmax; cbn [fold_left].
    - cbv zeta. rewrite app_nil_r. auto.
    - cbv zeta.
      replace (seen ++ x :: rest) with ((seen ++ [x]) ++ rest)
        by (rewrite <- app_assoc; reflexivity).
      destruct (Qlt_bool (snd best) (snd x)) eqn:E.
      + apply IH.
        * apply in_app_iff. right. left. reflexivity.
        * unfold Qlt_bool in E. apply negb_true_iff in E.
          assert (Hlt : ~ (snd x <= snd best)%Q).
          { intro Y. apply Qle_bool_iff in Y. congruence. }
          apply Qnot_le_lt in Hlt.
          intros y Hy. apply in_app_iff in Hy. destruct Hy as [Hy | [<- | []]].
          -- specialize (Hmax y Hy). lra.
          -- apply Qle_refl.
      + apply IH.
        * apply in_app_iff. left. assumption.
        * unfold Qlt_bool in E. apply negb_false_iff in E. apply Qle_bool_iff in E.
          intros y Hy. apply in_app_iff in Hy. destruct Hy as [Hy | [<- | []]]; auto. }
  destruct (Hloop rest first [first]) as [H1 H2].
  - left. reflexivity.
  - intros x [<- | []]. apply Qle_refl.
  - cbv zeta in H1, H2. cbn [app] in H1, H2.
    set (best := fold_left _ rest first) in *.
    exists (snd best). split.
    + subst k. destruct best. exact H1.
    + intros k' s' Hin. exact (H2 (k', s') Hin).
Qed.

Lemma rescale_all_spec lambd max_compl : forall Q_val scores,
  rescale_all lambd max_compl Q_val = Some scores ->
  (forall k v, In (k, v) Q_val ->
     exists s, rescale lambd max_compl (k, v) = Some (k, s) /\ In (k, s) scores) /\
  (forall k s, In (k, s) scores ->
     exists v, In (k, v) Q_val /\ rescale lambd max_compl (k, v) = Some (k, s)).
Proof.
  induction Q_val as [| [k0 v0] Q_val IH]; intros scores Hrun; cbn [rescale_all] in Hrun.
  - inversion Hrun; subst. split; [intros k v [] | intros k s []].
  - destruct (rescale lambd max_compl (k0, v0)) as [e |] eqn:Ee; [| discriminate].
    cbn [bind] in Hrun.
    destruct (rescale_all lambd max_compl Q_val) as [l |]; [| discriminate].
    cbn [bind] in Hrun. inversion Hrun; subst scores. clear Hrun.
    destruct (IH l eq_refl) as [IH1 IH2].
    assert (He : exists s0, e = (k0, s0)).
    { unfold rescale in Ee. cbn [fst snd] in Ee.
      destruct (pydiv (snd v0) max_compl); [| discriminate].
      cbn [bind] in Ee. inversion Ee. eauto. }
    destruct He as [s0 ->]. split.
    + intros k v [X | X].
      * inversion X; subst. exists s0. split; [assumption | left; reflexivity].
      * destruct (IH1 k v X) as [s [Hs Hin]]. exists s. split; [assumption | right; assumption].
    + intros k s [X | X].
      * inversion X; subst. exists v0. split; [left; reflexivity | assumption].
      * destruct (IH2 k s X) as [v [Hin Hv]]. exists v. split; [right; assumption | assumption].
Qed.

Section OptimizeFacts.
Context {helpers : Helpers}.
Variable ADS_matrix_returns : Log -> matrix -> bool.

(** What [Q(theta1, theta2, lambd)] returns: it does not depend on the graph
    that the call finds. *)
Definition Q_of (log : Log) (T : matrix) (theta : Q * Q) : option (Q * Q) :=
  match update log (fst theta) (snd theta) (inr T) None with
  | None => None
  | Some g1 => quality_terms log g1
  end.

(** Line 167: the value of the quality function at a point. *)
Definition objective (log : Log) (T : matrix) (lambd : Q) (theta : Q * Q) : option Q :=
  q <- Q_of log T theta ;;
  m <- Q_of log T (100, 100)%Q ;;
  c <- pydiv (snd q) (snd m) ;;
  Some ((1 - lambd) * fst q + lambd * (1 - c))%Q.

Lemma Q_fst g log T theta1 theta2 :
  fst (Q_ g log T theta1 theta2) = Q_of log T (theta1, theta2).
Proof.
  unfold Q_, Q_of. cbn [fst snd].
  destruct (update log theta1 theta2 (inr T) None); reflexivity.
Qed.

Lemma eval_point_raised log T points : forall g,
  fst (fold_left (eval_point log T) points (None, g)) = None.
Proof. induction points as [| p points IH]; intro g; [reflexivity | apply IH]. Qed.

(** The two loops of lines 157-159: every point gets an entry, and every
    entry holds what [Q] returns at its key. *)
Lemma eval_points_spec log T (P : list (Q * Q)) :
  (forall x y, In x P -> In y P -> theta_eqb x y = true -> x = y) ->
  forall points Q_val g Q_val' g',
  (forall k v, In (k, v) Q_val -> In k P /\ Q_of log T k = Some v) ->
  (forall theta, In theta points -> In theta P) ->
  fold_left (eval_point log T) points (Some Q_val, g) = (Some Q_val', g') ->
  (forall k v, In (k, v) Q_val' -> In k P /\ Q_of log T k = Some v) /\
  (forall theta, In theta points -> exists v, In (theta, v) Q_val').
Proof.
  intro Hcanon.
  assert (Hgen : forall points Q_val g Q_val' g',
    (forall k v, In (k, v) Q_val -> In k P /\ Q_of log T k = Some v) ->
    (forall theta, In theta points -> In theta P) ->
    fold_left (eval_point log T) points (Some Q_val, g) = (Some Q_val', g') ->
    (forall k v, In (k, v) Q_val' -> In k P /\ Q_of log T k = Some v) /\
    (forall theta, (In theta points \/ exists v, In (theta, v) Q_val) ->
                   exists v, In (theta, v) Q_val')).
  { induction points as [| p points IH]; intros Q_val g Q_val' g' Hinv HP Hrun;
      cbn [fold_left] in Hrun.
    - inversion Hrun; subst. split; [assumption |].
      intros theta [[] | X]; assumption.
    - unfold eval_point at 2 in Hrun. cbn [fst snd] in Hrun.
      pose proof (Q_fst g log T (fst p) (snd p)) as Hq.
      destruct (Q_ g log T (fst p) (snd p)) as [[v |] g1]; cbn [fst] in Hq.
      2: { pose proof (eval_point_raised log T points g1) as X.
           rewrite Hrun in X. discriminate. }
      assert (Hp : In p P) by (apply HP; left; reflexivity).
      assert (Hqp : Q_of log T p = Some v) by (destruct p; symmetry; exact Hq).
      destruct (IH (Q_val_set p v Q_val) g1 Q_val' g') as [IH1 IH2].
      + intros k w Hin. apply Q_val_set_In in Hin.
        destruct Hin as [Hin | [-> [-> | [E [w' Hw']]]]].
        * auto.
        * auto.
        * destruct (Hinv k w' Hw') as [Hk _].
          assert (p = k) by (apply Hcanon; assumption). subst k. auto.
      + intros theta Hth. apply HP. right. assumption.
      + exact Hrun.
      + split; [assumption |].
        intros theta [[<- | Hth] | [w Hw]].
        * apply IH2. right.
          destruct (Q_val_set_has p v Q_val) as [k [Hin [-> | [E [w' Hw']]]]]; [eauto |].
          destruct (Hinv k w' Hw') as [Hk _].
          assert (p = k) by (apply Hcanon; assumption). subst k. eauto.
        * apply IH2. left. assumption.
        * apply IH2. right. exact (Q_val_set_keeps p v Q_val _ _ Hw). }
  intros points Q_val g Q_val' g' Hinv HP Hrun.
  destruct (Hgen points Q_val g Q_val' g' Hinv HP Hrun) as [H1 H2].
  split; [assumption |]. intros theta Hth. apply H2. left. assumption.
Qed.

(** X15. When [optimize] returns, the rates it returns are a point of the
    grid, the graph it leaves is the one that [update] builds at these
    rates, and no point of the grid has a larger value of the quality
    function (1 - lambd) * replayability + lambd * (1 - complexity /
    max_compl). *)
Theorem optimize_returns_best_grid_point (g : Graph) (log : Log) (T : matrix)
  (lambd : Q) (step : step_arg) (grid : list Q) (rates : Q * Q) (g' : Graph) :
  step_canonical step ->
  grid_of step = Some grid ->
  optimize ADS_matrix_returns g log T lambd step = (Some rates, g') ->
  In rates (list_prod grid grid) /\
  update log (fst rates) (snd rates) (inr T) None = Some g' /\
  exists best,
    objective log T lambd rates = Some best /\
    forall theta, In theta (list_prod grid grid) ->
      exists v, objective log T lambd theta = Some v /\ (v <= best)%Q.
Proof.
  intros Hstep Hgrid Hrun. unfold optimize in Hrun.
  destruct (ADS_matrix_returns log T); cbn [negb] in Hrun; [| discriminate].
  rewrite Hgrid in Hrun.
  pose proof (grid_of_canonical _ Hstep Hgrid) as Hcanon.
  set (P := list_prod grid grid) in *.
  destruct (fold_left (eval_point log T) P (Some [], g)) as [[Q_val |] g1] eqn:Eloop;
    [| discriminate].
  destruct (@eval_points_spec log T P (fun x y => @canonical_points grid x y Hcanon)
              P [] g Q_val g1) as [Hval Hall].
  { intros k v []. }
  { auto. }
  { exact Eloop. }
  pose proof (Q_fst g1 log T 100 100) as Hmax.
  destruct (Q_ g1 log T 100 100) as [[q |] g2]; [| discriminate].
  cbn [fst] in Hmax. cbv zeta in Hrun.
  destruct (rescale_all lambd (snd q) Q_val) as [scores |] eqn:Escores;
    cbn [bind] in Hrun; [| discriminate].
  destruct (py_max scores) as [Q_opt |] eqn:Emax; [| discriminate].
  destruct (update log (fst Q_opt) (snd Q_opt) (inr T) None) as [g3 |] eqn:Eupd;
    [| discriminate].
  inversion Hrun; subst rates g'. clear Hrun.
  destruct (rescale_all_spec _ _ _ Escores) as [R1 R2].
  destruct (py_max_spec _ Emax) as [best [Hbest Hle]].
  assert (Hobj : forall k v s,
            Q_of log T k = Some v -> rescale lambd (snd q) (k, v) = Some (k, s) ->
            objective log T lambd k = Some s).
  { intros k v s Hk Hs. unfold objective. rewrite Hk, <- Hmax. cbn [bind].
    unfold rescale in Hs. cbn [fst snd] in Hs.
    destruct (pydiv (snd v) (snd q)) as [c |]; [| discriminate].
    cbn [bind] in *. inversion Hs. reflexivity. }
  destruct (R2 _ _ Hbest) as [v_opt [Hin_opt Hres_opt]].
  destruct (Hval _ _ Hin_opt) as [HP_opt HQ_opt].
  split; [assumption |]. split; [assumption |].
  exists best. split; [exact (Hobj _ _ _ HQ_opt Hres_opt) |].
  intros theta Hth. destruct (Hall theta Hth) as [v Hv].
  destruct (R1 _ _ Hv) as [s [Hs Hin]].
  exists s. split.
  - exact (Hobj _ _ _ (proj2 (Hval _ _ Hv)) Hs).
  - exact (Hle _ _ Hin).
Qed.

(** X16. [optimize] raises for every float step, for every int step that is
    not positive and for the empty list.  The graph is then as it was,
    except for an int step between -99 and -1: the grid is empty, and the
    call of [Q(100, 100, lambd)] that follows the loops has replaced the
    graph, when its [update] went through, before [max] raises. *)
Theorem optimize_unusable_step (g : Graph) (log : Log) (T : matrix) (lambd : Q)
  (step : step_arg) :
  match step with
  | StepInt n => (n <= 0)%Z
  | StepFloat _ => True
  | StepList points => points = []
  end ->
  exists g',
    optimize ADS_matrix_returns g log T lambd step = (None, g') /\
    (g' = g \/
     exists n, step = StepInt n /\ (-100 < n < 0)%Z /\
               ADS_matrix_returns log T = true /\
               update log 100 100 (inr T) None = Some g').
Proof.
  intro Hstep. unfold optimize.
  destruct (ADS_matrix_returns log T) eqn:Eads; cbn [negb]; [| eauto].
  destruct step as [n | q | points]; cbn [grid_of].
  - destruct ((n =? 0) || (100 / n + 1 =? 0))%Z eqn:E; [eauto |].
    apply orb_false_iff in E. destruct E as [E1 E2].
    apply Z.eqb_neq in E1. apply Z.eqb_neq in E2.
    assert (Hneg : (0 <? n)%Z = false) by (apply Z.ltb_ge; lia).
    assert (Hn : (-100 < n < 0)%Z).
    { split; [| lia].
      destruct (Z_lt_le_dec (-100) n) as [X | X]; [assumption |].
      exfalso. apply E2.
      assert (Hq : (100 / n = -1)%Z).
      { symmetry. apply (Z.div_unique_neg 100 n (-1) (100 + n)); lia. }
      lia. }
    unfold py_range_0_101. rewrite Hneg. cbn [map list_prod fold_left].
    unfold Q_. destruct (update log 100 100 (inr T) None) as [g1 |] eqn:Eupd; [| eauto].
    destruct (quality_terms log g1) as [q |].
    + cbn [rescale_all bind py_max]. exists g1. split; [reflexivity |].
      right. exists n. auto.
    + exists g1. split; [reflexivity |]. right. exists n. auto.
  - eauto.
  - subst points. cbn. eauto.
Qed.

End OptimizeFacts.

(** On the scenario, with the grid 0, 50, 100: the model without edges has
    the best value of the quality function at [lambd = 0.5]. *)
Definition g_no_edges : Graph := {| nodes := Some ns_xy; edges := Some [] |}.

Example optimize_xy :
  optimize (helpers := plain_helpers) (fun _ _ => true) g_xy log_xy T_xy 0.5 (StepInt 50)
  = (Some (0, 0)%Q, g_no_edges).
Proof. vm_compute. reflexivity. Qed.

Lemma optimize_returns_best_grid_point_witness :
  In (0, 0)%Q (list_prod [0; 50; 100]%Q [0; 50; 100]%Q) /\
  update (helpers := plain_helpers) log_xy (fst (0, 0)%Q) (snd (0, 0)%Q) (inr T_xy) None
  = Some g_no_edges /\
  exists best,
    objective (helpers := plain_helpers) log_xy T_xy 0.5 (0, 0)%Q = Some best /\
    forall theta, In theta (list_prod [0; 50; 100]%Q [0; 50; 100]%Q) ->
      exists v, objective (helpers := plain_helpers) log_xy T_xy 0.5 theta = Some v /\
                (v <= best)%Q.
Proof.
  apply (@optimize_returns_best_grid_point plain_helpers (fun _ _ => true)
           g_xy log_xy T_xy 0.5 (StepInt 50) [0; 50; 100]%Q (0, 0)%Q g_no_edges).
  - exact I.
  - reflexivity.
  - vm_compute. reflexivity.
Defined.

Lemma optimize_unusable_step_witness :
  exists g',
    optimize (helpers := plain_helpers) (fun _ _ => true) g_x log_xy T_xy 0.5 (StepInt (-1))
    = (None, g') /\
    (g' = g_x \/
     exists n, StepInt (-1) = StepInt n /\ (-100 < n < 0)%Z /\
               (fun (_ : Log) (_ : matrix (Helpers := plain_helpers)) => true) log_xy T_xy
               = true /\
               update (helpers := plain_helpers) log_xy 100 100 (inr T_xy) None = Some g').
Proof.
  apply (@optimize_unusable_step plain_helpers (fun _ _ => true) g_x log_xy T_xy 0.5
           (StepInt (-1))).
  discriminate.
Defined.

(** A float step: [range] refuses it before anything is computed. *)
Example optimize_float_step :
  optimize (helpers := plain_helpers) (fun _ _ => true) g_x log_xy T_xy 0.5
           (StepFloat 0.5)
  = (None, g_x).
Proof. reflexivity. Qed.

(** A negative step: the graph [g_x] is replaced, and the call raises. *)
Example optimize_negative_step :
  optimize (helpers := plain_helpers) (fun _ _ => true) g_x log_xy T_xy 0.5 (StepInt (-1))
  = (None, g_xy).
Proof. vm_compute. reflexivity. Qed.

(* ================================================================== *)
(** ** Further properties: the total of the absolute counts of
       [transit_matrix] *)

(** Every key once, in the table and in each of its rows. *)
Definition well_keyed {V : Type} (d : dict value (dict value V)) : Prop :=
  NoDup (keys d) /\ forall a row, In (a, row) d -> NoDup (keys row).

Lemma In_set {K V : Type} `{Eqb K} (k : K) (v : V) (d : dict K V) x w :
  In (x, w) (set k v d) -> (x = k /\ w = v) \/ In (x, w) d.
Proof.
  induction d as [| [k0 v0] d IH]; cbn [set].
  - intros [X | []]. inversion X. auto.
  - destruct (eqb k k0) eqn:E.
    + apply eqb_eq in E. subst k0. intros [X | X].
      * inversion X. auto.
      * right. right. assumption.
    + intros [X | X].
      * right. left. assumption.
      * destruct (IH X) as [Y | Y]; [left; assumption | right; right; assumption].
Qed.

Lemma well_keyed_set {V : Type} a (row : dict value V) d :
  NoDup (keys row) -> well_keyed d -> well_keyed (set a row d).
Proof.
  intros ND [ND1 ND2]. split; [apply NoDup_keys_set; assumption |].
  intros x r Hin. apply In_set in Hin. destruct Hin as [[_ ->] | Hin]; eauto.
Qed.

Lemma well_keyed_set2 {V : Type} a b (v : V) d d' :
  LogModel.set2 a b v d = Some d' -> well_keyed d -> well_keyed d'.
Proof.
  unfold LogModel.set2. destruct (get a d) as [row |] eqn:E; [| discriminate].
  cbn [bind]. intros X WK. inversion X; subst d'.
  apply well_keyed_set; [| assumption].
  apply NoDup_keys_set. exact (proj2 WK a row (get_In _ _ E)).
Qed.

Lemma count_transition_well_keyed a b T F T' F' :
  LogModel.count_transition a b (T, F) = Some (T', F') ->
  well_keyed T -> well_keyed T'.
Proof.
  unfold LogModel.count_transition. intros Hrun WK.
  set (T1 := if negb (mem a T) then set a [] T else T) in *.
  assert (WK1 : well_keyed T1).
  { unfold T1. destruct (negb (mem a T)); [| assumption].
    apply well_keyed_set; [constructor | assumption]. }
  clearbody T1.
  set (F1 := if negb (mem a T) then set a [] F else F) in *. clearbody F1.
  destruct (get a T1) as [row |]; [| discriminate]. cbn [bind] in Hrun.
  match type of Hrun with
  | bind ?m _ = _ => destruct m as [[T2 F2] |] eqn:E2; [| discriminate]
  end.
  cbn [bind] in Hrun.
  assert (WK2 : well_keyed T2).
  { destruct (mem b row).
    - inversion E2; subst. assumption.
    - destruct (LogModel.set2 a b (0, 0) T1) as [T'0 |] eqn:Es; [| discriminate].
      cbn [bind] in E2.
      destruct (LogModel.set2 a b true F1); [| discriminate].
      cbn [bind] in E2. inversion E2; subst.
      exact (well_keyed_set2 _ _ _ Es WK1). }
  clear E2.
  destruct (LogModel.get2 a b T2) as [cnt |]; [| discriminate]. cbn [bind] in Hrun.
  destruct (LogModel.set2 a b (S (fst cnt), snd cnt) T2) as [T3 |] eqn:E3;
    [| discriminate].
  cbn [bind] in Hrun.
  pose proof (well_keyed_set2 _ _ _ E3 WK2) as WK3.
  destruct (LogModel.get2 a b F2) as [[|] |]; cbn [bind] in Hrun; [| | discriminate].
  - destruct (LogModel.get2 a b T3) as [cnt' |]; [| discriminate]. cbn [bind] in Hrun.
    destruct (LogModel.set2 a b (fst cnt', S (snd cnt')) T3) as [T4 |] eqn:E4;
      [| discriminate].
    cbn [bind] in Hrun.
    destruct (LogModel.set2 a b false F2); [| discriminate].
    cbn [bind] in Hrun. inversion Hrun; subst.
    exact (well_keyed_set2 _ _ _ E4 WK3).
  - inversion Hrun; subst. assumption.
Qed.

Lemma scan_case_well_keyed tr : forall T F T' F',
  LogModel.scan_case tr (T, F) = Some (T', F') -> well_keyed T -> well_keyed T'.
Proof.
  induction tr as [| a tr IH]; intros T F T' F' Hrun WK.
  - inversion Hrun; subst. assumption.
  - destruct tr as [| b tr'].
    + inversion Hrun; subst. assumption.
    + change (LogModel.scan_case (a :: b :: tr') (T, F))
        with (st' <- LogModel.count_transition a b (T, F) ;;
              LogModel.scan_case (b :: tr') st') in Hrun.
      destruct (LogModel.count_transition a b (T, F)) as [[T1 F1] |] eqn:E1;
        [| discriminate].
      cbn [bind] in Hrun.
      apply (IH _ _ _ _ Hrun). eapply count_transition_well_keyed; eassumption.
Qed.

Lemma scan_log_well_keyed traces : forall T F st,
  LogModel.scan_log traces (T, F) = Some st -> well_keyed T -> well_keyed (fst st).
Proof.
  induction traces as [| tr traces IH]; intros T F st Hrun WK.
  - inversion Hrun; subst. assumption.
  - cbn [LogModel.scan_log] in Hrun.
    destruct (LogModel.scan_case tr (T, F)) as [[T1 F1] |] eqn:E1; [| discriminate].
    cbn [bind fst snd] in Hrun.
    apply (IH _ _ _ Hrun). eapply scan_case_well_keyed; eassumption.
Qed.

(** The items of the table: [((a_i, a_j), T[a_i][a_j])]. *)
Definition table_entries {V : Type} (T : dict value (dict value V))
  : list ((value * value) * V) :=
  flat_map (fun r => map (fun e => ((fst r, fst e), snd e)) (snd r)) T.

Lemma table_entries_In {V : Type} (T : dict value (dict value V)) a b (v : V) :
  well_keyed T ->
  (In ((a, b), v) (table_entries T) <-> LogModel.get2 a b T = Some v).
Proof.
  intros [ND1 ND2]. unfold table_entries, LogModel.get2. rewrite in_flat_map. split.
  - intros [[a' row] [Hrow Hin]]. cbn [fst snd] in Hin.
    apply in_map_iff in Hin. destruct Hin as [[b' v'] [Heq Hin]].
    cbn [fst snd] in Heq. inversion Heq; subst.
    rewrite (In_get _ _ _ ND1 Hrow). cbn [bind].
    apply In_get; [exact (ND2 _ _ Hrow) | assumption].
  - destruct (get a T) as [row |] eqn:Erow; [| discriminate]. cbn [bind].
    intro Hb. exists (a, row). split; [apply get_In; assumption |].
    cbn [fst snd]. apply in_map_iff. exists (b, v). split; [reflexivity |].
    apply get_In. assumption.
Qed.

Lemma table_entries_NoDup {V : Type} (T : dict value (dict value V)) :
  well_keyed T -> NoDup (keys (table_entries T)).
Proof.
  induction T as [| [a row] T IH]; intros [ND1 ND2]; [constructor |].
  cbn [table_entries flat_map fst snd]. unfold keys at 1. rewrite map_app.
  cbn [keys map fst] in ND1. inversion ND1 as [| ? ? Ha ND1']; subst.
  apply NoDup_app.
  - rewrite map_map. cbn [fst].
    assert (Hrow : NoDup (keys row)) by (apply (ND2 a row); left; reflexivity).
    unfold keys in Hrow. clear - Hrow.
    induction row as [| [b v] row IHr]; [constructor |].
    cbn [map fst] in *. inversion Hrow; subst. constructor; [| auto].
    intro X. apply in_map_iff in X. destruct X as [[b' v'] [Heq Hin]].
    cbn [fst] in Heq. inversion Heq; subst.
    match goal with H : ~ In _ _ |- _ => apply H end.
    change b with (fst (b, v')). apply in_map. assumption.
  - apply IH. split; [assumption |]. intros x r Hin. apply (ND2 x r). right. assumption.
  - intros [x y] Hin1 Hin2. apply in_map_iff in Hin1.
    destruct Hin1 as [[[x1 y1] v1] [Heq1 Hin1]]. cbn [fst] in Heq1. inversion Heq1; subst.
    apply in_map_iff in Hin1. destruct Hin1 as [[b v] [Heq Hin1]].
    cbn [fst snd] in Heq. inversion Heq; subst.
    apply in_map_iff in Hin2. destruct Hin2 as [[[x2 y2] v2] [Heq2 Hin2]].
    cbn [fst] in Heq2. inversion Heq2; subst.
    fold (table_entries T) in Hin2. unfold table_entries in Hin2.
    apply in_flat_map in Hin2. destruct Hin2 as [[a' row'] [Hrow' Hin2]].
    cbn [fst snd] in Hin2. apply in_map_iff in Hin2.
    destruct Hin2 as [[b' v'] [Heq' _]]. cbn [fst snd] in Heq'. inversion Heq'; subst.
    apply Ha. change x with (fst (x, row')). apply in_map. assumption.
Qed.

Lemma count_adj_filter a b tr :
  LogModel.count_adj a b tr
  = list_sum (map (fun _ => 1) (filter (fun e => eqb e (a, b)) (adjacent tr))).
Proof.
  induction tr as [| x tr IH]; [reflexivity |].
  destruct tr as [| y tr']; [reflexivity |].
  change (LogModel.count_adj a b (x :: y :: tr'))
    with ((if eqb (x, y) (a, b) then 1 else 0) + LogModel.count_adj a b (y :: tr')).
  rewrite adjacent_cons. cbn [filter]. rewrite IH.
  destruct (eqb (x, y) (a, b)); reflexivity.
Qed.

Lemma list_sum_swap {A B : Type} (f : A -> B -> nat) (l1 : list A) (l2 : list B) :
  list_sum (map (fun x => list_sum (map (f x) l2)) l1)
  = list_sum (map (fun y => list_sum (map (fun x => f x y) l1)) l2).
Proof.
  induction l1 as [| x l1 IH]; cbn [map list_sum fold_right].
  - induction l2 as [| y l2 IH2]; [reflexivity |].
    cbn [map list_sum fold_right]. change (fold_right Nat.add 0) with list_sum.
    rewrite <- IH2. reflexivity.
  - change (fold_right Nat.add 0) with list_sum. rewrite IH.
    rewrite <- list_sum_map_add. reflexivity.
Qed.

Lemma adjacent_length {A : Type} (tr : list A) : length (adjacent tr) = length tr - 1.
Proof.
  induction tr as [| x tr IH]; [reflexivity |].
  destruct tr as [| y tr']; [reflexivity |].
  rewrite adjacent_cons. cbn [length] in *. lia.
Qed.

Lemma count_adj_pos a b tr :
  In (a, b) (adjacent tr) -> 0 < LogModel.count_adj a b tr.
Proof.
  rewrite count_adj_filter. intro Hin.
  assert (Hf : In (a, b) (filter (fun e => eqb e (a, b)) (adjacent tr))).
  { apply filter_In. split; [assumption | apply eqb_refl]. }
  destruct (filter (fun e => eqb e (a, b)) (adjacent tr)); [contradiction |].
  simpl. lia.
Qed.

Lemma abs_count_pos a b tr traces :
  In tr traces -> In (a, b) (adjacent tr) -> 0 < LogModel.abs_count a b traces.
Proof.
  unfold LogModel.abs_count. intros Htr Hin. apply count_adj_pos in Hin.
  induction traces as [| t traces IH]; [contradiction |].
  cbn [map list_sum fold_right]. destruct Htr as [-> | Htr]; [lia |].
  specialize (IH Htr). unfold list_sum in IH. lia.
Qed.

(** X17. The absolute counts of the table that [transit_matrix] returns
    add up to the number of transitions of the log, [len(trace) - 1] for
    each trace with an event: every adjacency is counted once, under one
    key. *)
Theorem transit_matrix_total (log : Log) (T : LogModel.table) :
  LogModel.transit_matrix log = Some T ->
  list_sum (map (fun e => fst (snd e)) (table_entries T))
  = list_sum (map (fun tr => length tr - 1) (values (flat_log log))).
Proof.
  intro Hrun. unfold LogModel.transit_matrix in Hrun.
  set (traces := values (flat_log log)) in *.
  assert (S0 : LogModel.sync [] []) by (split; intros; simpl; tauto).
  assert (A0 : LogModel.all_true []) by (intros x y f; discriminate).
  destruct (LogModel.scan_log_spec traces S0 A0) as [st [E HV]].
  assert (E' : LogModel.scan_log traces LogModel.empty_state = Some st) by exact E.
  rewrite E' in Hrun. cbn [bind] in Hrun. inversion Hrun; subst T. clear Hrun E'.
  assert (WK : well_keyed (fst st)).
  { eapply scan_log_well_keyed; [exact E |].
    split; [constructor | intros a row []]. }
  assert (Hget : forall a b, LogModel.get2 a b (fst st) =
            if LogModel.abs_count a b traces =? 0 then None
            else Some (LogModel.abs_count a b traces, LogModel.case_count a b traces)).
  { intros a b. rewrite HV. simpl. destruct (LogModel.abs_count a b traces); reflexivity. }
  set (entries := table_entries (fst st)).
  (* every entry holds the number of adjacencies of its key *)
  assert (Hentry : list_sum (map (fun e => fst (snd e)) entries)
                   = list_sum (map (fun k => LogModel.abs_count (fst k) (snd k) traces)
                                 (keys entries))).
  { unfold keys. rewrite map_map. f_equal. apply map_ext_in.
    intros [[a b] [n c]] Hin. cbn [fst snd].
    apply (proj1 (@table_entries_In _ (fst st) a b (n, c) WK)) in Hin.
    rewrite Hget in Hin. destruct (LogModel.abs_count a b traces =? 0); [discriminate |].
    inversion Hin. reflexivity. }
  rewrite Hentry. unfold LogModel.abs_count.
  transitivity (list_sum (map (fun tr =>
                  list_sum (map (fun k : value * value =>
                                   LogModel.count_adj (fst k) (snd k) tr) (keys entries)))
                  traces)).
  { exact (list_sum_swap (fun (k : value * value) tr =>
                            LogModel.count_adj (fst k) (snd k) tr) (keys entries) traces). }
  f_equal. apply map_ext_in. intros tr Htr.
  rewrite <- adjacent_length.
  transitivity (list_sum (map (fun _ : value * value => 1) (adjacent tr)));
    [| clear; induction (adjacent tr) as [| e l IH]; simpl in *; [reflexivity | lia]].
  rewrite <- (@list_sum_partition (value * value) (value * value)
                (fun k e => eqb e k) (fun _ => 1) (keys entries) (adjacent tr)).
  - f_equal. apply map_ext. intros [a b]. cbn [fst snd]. apply count_adj_filter.
  - apply table_entries_NoDup. assumption.
  - intros [a b] Hin. exists (a, b). split; [| split].
    + pose proof (@abs_count_pos a b tr traces Htr Hin) as Hpos.
      assert (Hsome : LogModel.get2 a b (fst st)
                = Some (LogModel.abs_count a b traces, LogModel.case_count a b traces)).
      { rewrite Hget. destruct (LogModel.abs_count a b traces =? 0) eqn:E0;
          [apply Nat.eqb_eq in E0; lia | reflexivity]. }
      apply (proj2 (@table_entries_In _ (fst st) a b _ WK)) in Hsome.
      change (a, b) with (fst ((a, b), (LogModel.abs_count a b traces,
                                        LogModel.case_count a b traces))).
      apply in_map. assumption.
    + apply eqb_refl.
    + intros r _ Hr. apply eqb_eq in Hr. congruence.
Qed.

Lemma transit_matrix_total_witness :
  list_sum (map (fun e : (value * value) * (nat * nat) => fst (snd e))
              (table_entries [(vx, [(vy, (3, 2))]); (vy, [(vx, (1, 1))])]))
  = list_sum (map (fun tr : trace => length tr - 1) (values (flat_log log_xy))).
Proof.
  apply (@transit_matrix_total log_xy [(vx, [(vy, (3, 2))]); (vy, [(vx, (1, 1))])]).
  reflexivity.
Defined.

(* ================================================================== *)
(** ** Further properties: the representatives chosen with [pre_traverse] *)

Lemma index_of_In x xs : In x xs <-> exists i, index_of x xs = Some i.
Proof.
  induction xs as [| y xs IH]; cbn [index_of In].
  - split; [tauto | intros [i X]; discriminate].
  - destruct (eqb y x) eqn:E.
    + apply eqb_eq in E. subst. split; eauto.
    + apply eqb_neq in E. rewrite IH. split.
      * intros [X | [i Hi]]; [congruence |]. exists (S i). rewrite Hi. reflexivity.
      * intros [i Hi]. right. destruct (index_of x xs) as [j |]; [eauto | discriminate].
Qed.

Lemma rotation_with_head (c : cycle) x :
  In x c -> exists r, In r (rotations c) /\ hd_error r = Some x.
Proof.
  intro Hx. destruct (in_split _ _ Hx) as [u [w ->]].
  exists ((x :: w) ++ u). split; [| reflexivity].
  apply rotation_split. split; [destruct u; discriminate |].
  exists u, (x :: w). auto.
Qed.

Lemma rotation_ranks_get order cycle_seq : forall d ranks,
  fold_left (fun acc c =>
    d <- acc ;; c0 <- hd_error c ;; i <- index_of c0 order ;; Some (set c i d))
    cycle_seq (Some d) = Some ranks ->
  (forall c, In c cycle_seq ->
     exists c0 i, hd_error c = Some c0 /\ index_of c0 order = Some i /\
                  get c ranks = Some i) /\
  (forall c, ~ In c cycle_seq -> get c ranks = get c d).
Proof.
  induction cycle_seq as [| c l IH]; intros d ranks Hf.
  - simpl in Hf. inversion Hf; subst. split; [intros c [] | reflexivity].
  - cbn [fold_left bind] in Hf.
    destruct (hd_error c) as [c0 |] eqn:Ehd; cbn [bind] in Hf;
      [| exfalso; clear - Hf; induction l; simpl in Hf; [discriminate | auto]].
    destruct (index_of c0 order) as [i |] eqn:Ei; cbn [bind] in Hf;
      [| exfalso; clear - Hf; induction l; simpl in Hf; [discriminate | auto]].
    destruct (IH _ _ Hf) as [IH1 IH2]. split.
    + intros x Hx. destruct (elem x l) eqn:E.
      * apply elem_In in E. auto.
      * assert (Hnot : ~ In x l) by (intro X; apply elem_In in X; congruence).
        destruct Hx as [<- | Hx]; [| contradiction].
        exists c0, i. rewrite (IH2 c Hnot), get_set_same. auto.
    + intros x Hx. rewrite IH2 by (intro X; apply Hx; right; assumption).
      apply get_set_other. intro X. apply Hx. left. assumption.
Qed.

Lemma rotation_ranks_total order cycle_seq : forall d,
  (forall c, In c cycle_seq ->
     exists c0 i, hd_error c = Some c0 /\ index_of c0 order = Some i) ->
  exists ranks,
    fold_left (fun acc c =>
      d <- acc ;; c0 <- hd_error c ;; i <- index_of c0 order ;; Some (set c i d))
      cycle_seq (Some d) = Some ranks.
Proof.
  induction cycle_seq as [| c l IH]; intros d Hall; [exists d; reflexivity |].
  cbn [fold_left bind].
  destruct (Hall c (or_introl eq_refl)) as [c0 [i [-> Hi]]]. cbn [bind].
  rewrite Hi. cbn [bind]. apply IH. intros x Hx. apply Hall. right. assumption.
Qed.

(** [min(d, key=d.get)] returns a key with the least value. *)
Lemma min_key_spec {K} `{Eqb K} (d : dict K nat) k :
  min_key d = Some k ->
  exists v, get k d = Some v /\
    forall k', In k' (keys d) -> exists v', get k' d = Some v' /\ v <= v'.
Proof.
  unfold min_key. destruct (keys d) as [| k0 ks] eqn:E; [discriminate |].
  assert (Hfold : forall l best r seen,
    (exists vb, get best d = Some vb /\
       forall k', In k' seen -> exists v', get k' d = Some v' /\ vb <= v') ->
    fold_left (fun best k =>
      b <- best ;; vb <- get b d ;; vk <- get k d ;;
      Some (if vk <? vb then k else b)) l (Some best) = Some r ->
    exists v, get r d = Some v /\
      forall k', In k' (seen ++ l) -> exists v', get k' d = Some v' /\ v <= v').
  { induction l as [| x l IH]; intros best r seen [vb [Hb Hseen]] Hf.
    - simpl in Hf. inversion Hf; subst. exists vb. rewrite app_nil_r. auto.
    - cbn [fold_left bind] in Hf. rewrite Hb in Hf. cbn [bind] in Hf.
      destruct (get x d) as [vk |] eqn:Ex; cbn [bind] in Hf;
        [| exfalso; clear - Hf; induction l; simpl in Hf; [discriminate | auto]].
      replace (seen ++ x :: l) with ((seen ++ [x]) ++ l)
        by (rewrite <- app_assoc; reflexivity).
      destruct (vk <? vb) eqn:Elt.
      + apply Nat.ltb_lt in Elt. apply (IH x r (seen ++ [x])); [| exact Hf].
        exists vk. split; [assumption |]. intros k' Hk'. apply in_app_iff in Hk'.
        destruct Hk' as [Hk' | [<- | []]].
        * destruct (Hseen k' Hk') as [v' [Hv' Hle]]. exists v'. split; [assumption | lia].
        * exists vk. auto.
      + apply Nat.ltb_ge in Elt. apply (IH best r (seen ++ [x])); [| exact Hf].
        exists vb. split; [assumption |]. intros k' Hk'. apply in_app_iff in Hk'.
        destruct Hk' as [Hk' | [<- | []]]; [auto |].
        exists vk. auto. }
  intro Hm.
  assert (H0 : exists v0, get k0 d = Some v0).
  { apply get_Some_keys. rewrite E. left. reflexivity. }
  destruct H0 as [v0 Hv0].
  apply (Hfold ks k0 k [k0]); [| exact Hm].
  exists v0. split; [assumption |]. intros k' [<- | []]. exists v0. auto.
Qed.

Lemma min_key_total {K} `{Eqb K} (d : dict K nat) :
  keys d <> [] -> exists k, min_key d = Some k.
Proof.
  unfold min_key. destruct (keys d) as [| k0 ks] eqn:E; [congruence |]. intros _.
  assert (Hfold : forall l best,
    In best (keys d) -> (forall k, In k l -> In k (keys d)) ->
    exists r, fold_left (fun best k =>
      b <- best ;; vb <- get b d ;; vk <- get k d ;;
      Some (if vk <? vb then k else b)) l (Some best) = Some r).
  { induction l as [| x l IH]; intros best Hb Hl; [exists best; reflexivity |].
    destruct (proj2 (get_Some_keys best d) Hb) as [vb Hvb].
    destruct (proj2 (get_Some_keys x d) (Hl x (or_introl eq_refl))) as [vk Hvk].
    destruct (IH (if vk <? vb then x else best)) as [r Hr].
    - destruct (vk <? vb); [apply Hl; left; reflexivity | assumption].
    - intros k Hk. apply Hl. right. assumption.
    - exists r. cbn [fold_left bind]. rewrite Hvb. cbn [bind]. rewrite Hvk.
      cbn [bind]. exact Hr. }
  apply Hfold.
  - rewrite E. left. reflexivity.
  - intros k Hk. rewrite E. right. assumption.
Qed.

(** A cycle starts with the activity that the traversal lists first among
    its activities. *)
Definition starts_first (order : list value) (r : cycle) : Prop :=
  exists node i,
    hd_error r = Some node /\ index_of node order = Some i /\
    forall x, In x r -> exists j, index_of x order = Some j /\ i <= j.

Lemma merge_cycle_starts_first raw order c st st' :
  c <> [] ->
  merge_cycle raw (Some order) c st = Some st' ->
  (forall r, In r (keys (fst st)) -> starts_first order r) ->
  forall r, In r (keys (fst st')) -> starts_first order r.
Proof.
  intros Hne Hrun Hinv. destruct st as [sum_cycles left_]. unfold merge_cycle in Hrun.
  destruct (elem c left_); [inversion Hrun; subst; exact Hinv |].
  destruct (rotation_ranks order (rotations c)) as [ranks |] eqn:Er;
    cbn [bind] in Hrun; [| discriminate].
  destruct (min_key ranks) as [rep |] eqn:Em; cbn [bind] in Hrun; [| discriminate].
  inversion Hrun; subst st'. clear Hrun. cbn [fst] in *.
  intros r Hr. rewrite keys_set in Hr.
  assert (Hcases : r = rep \/ In r (keys sum_cycles)).
  { destruct (mem rep sum_cycles); [right; assumption |].
    apply in_app_iff in Hr. destruct Hr as [Hr | [<- | []]]; auto. }
  clear Hr. destruct Hcases as [-> | Hr]; [| auto].
  unfold rotation_ranks in Er.
  destruct (rotation_ranks_keys _ _ _ Er (NoDup_nil _)) as [_ Hkeys].
  destruct (rotation_ranks_get _ _ _ Er) as [Hget _].
  destruct (min_key_spec _ Em) as [v [Hv Hmin]].
  assert (Hrep : In rep (rotations c)).
  { apply min_key_In in Em. apply Hkeys in Em. destruct Em as [[] | Em]. assumption. }
  destruct (Hget rep Hrep) as [node [i [Hhd [Hi Hgi]]]].
  assert (v = i) by congruence. subst v.
  exists node, i. split; [assumption |]. split; [assumption |].
  intros x Hx.
  assert (Hxc : In x c).
  { apply (Permutation_in x (rotation_perm _ _ Hrep)). assumption. }
  destruct (rotation_with_head c x Hxc) as [r' [Hr' Hhd']].
  destruct (Hget r' Hr') as [x' [j [Hhd'' [Hj Hgj]]]].
  assert (x' = x) by congruence. subst x'.
  exists j. split; [assumption |].
  destruct (Hmin r') as [v' [Hv' Hle]].
  { apply Hkeys. right. assumption. }
  assert (v' = j) by congruence. subst v'. assumption.
Qed.

Lemma merge_fold_starts_first raw order l : forall st st',
  (forall c, In c l -> c <> []) ->
  (forall r, In r (keys (fst st)) -> starts_first order r) ->
  fold_left (fun acc c => st <- acc ;; merge_cycle raw (Some order) c st) l (Some st)
  = Some st' ->
  forall r, In r (keys (fst st')) -> starts_first order r.
Proof.
  induction l as [| c l IH]; intros st st' Hl Hinv Hrun.
  - simpl in Hrun. inversion Hrun; subst. assumption.
  - cbn [fold_left bind] in Hrun.
    destruct (merge_cycle raw (Some order) c st) as [st1 |] eqn:E1;
      [| exfalso; clear - Hrun; induction l; simpl in Hrun; [discriminate | auto]].
    apply (IH st1 st'); [| | exact Hrun].
    + intros x Hx. apply Hl. right. assumption.
    + exact (@merge_cycle_starts_first raw order c st st1 (Hl c (or_introl eq_refl)) E1 Hinv).
Qed.

Lemma merge_rotations_total_order raw order :
  (forall c, In c (keys raw) -> c <> [] /\ forall x, In x c -> In x order) ->
  exists res, merge_rotations raw (Some order) = Some res.
Proof.
  intro Hall. unfold merge_rotations.
  assert (H : forall l st,
    (forall c, In c l -> c <> [] /\ forall x, In x c -> In x order) ->
    exists st', fold_left (fun acc c => st <- acc ;; merge_cycle raw (Some order) c st)
                  l (Some st) = Some st').
  { induction l as [| c l IH]; intros st Hl; [exists st; reflexivity |].
    cbn [fold_left bind].
    assert (Hstep : exists st1, merge_cycle raw (Some order) c st = Some st1).
    { destruct (Hl c (or_introl eq_refl)) as [Hne Hin].
      unfold merge_cycle. destruct st as [sum_cycles left_].
      destruct (elem c left_); [eauto |].
      destruct (@rotation_ranks_total order (rotations c) []) as [ranks Er].
      { intros r Hr. destruct (rotation_nonempty _ _ Hr) as [Hrne _].
        destruct r as [| x r]; [contradiction |].
        assert (Hx : In x order).
        { apply Hin. apply (Permutation_in x (rotation_perm _ _ Hr)). left. reflexivity. }
        apply index_of_In in Hx. destruct Hx as [i Hi]. exists x, i. auto. }
      destruct (rotation_ranks_keys _ _ _ Er (NoDup_nil _)) as [_ Hkeys].
      destruct (@min_key_total _ _ ranks) as [rep Em].
      { pose proof (rotation_refl Hne) as Hc.
        assert (X : In c (keys ranks)) by (apply Hkeys; right; assumption).
        destruct (keys ranks); [contradiction | discriminate]. }
      assert (Er' : rotation_ranks order (rotations c) = Some ranks) by exact Er.
      eexists. rewrite Er'. cbn [bind]. rewrite Em. cbn [bind]. reflexivity. }
    destruct Hstep as [st1 Hst1].
    destruct (IH st1) as [st' Hst'].
    { intros x Hx. apply Hl. right. assumption. }
    exists st'. rewrite Hst1. exact Hst'. }
  destruct (H (keys raw) merge_init Hall) as [st' E]. rewrite E. cbn [bind]. eauto.
Qed.

Section PreTraverse.
Context {helpers : Helpers}.

Lemma find_nodes_order_In (g : Graph) (es : dict edge (nat * nat)) (order : list value) :
  edges g = Some es -> find_nodes_order g = Some order ->
  forall x, In x order <-> reaches (incidence_matrix (keys es)) start x.
Proof.
  intros Hes Hrun. unfold find_nodes_order in Hrun. rewrite Hes in Hrun.
  cbn [bind] in Hrun. destruct (nodes g) as [ns |]; [| discriminate].
  cbn [bind] in Hrun.
  destruct (preorder_traversal (S (length ([start; end_] ++ keys ns)))
              (incidence_matrix (keys es)) start
              (fold_left (fun d n => set n false d) ([start; end_] ++ keys ns) [], []))
    as [st | |] eqn:Ecall; [| discriminate | discriminate].
  inversion Hrun; subst order.
  apply (@traversal_from_start _ ([start; end_] ++ keys ns) st);
    [left; reflexivity | exact Ecall].
Qed.

(** X18. With [pre_traverse] and without [ordered], every cycle of the
    mapping that [find_cycles] returns starts with the activity that
    [find_nodes_order] lists first among the activities of the cycle. *)
Theorem find_cycles_pre_traverse_start (g : Graph) (log : Log)
  (order : list value) (res : cycle_counts) (r : cycle) :
  find_nodes_order g = Some order ->
  find_cycles g log true false = Some res ->
  In r (keys res) ->
  exists node i,
    hd_error r = Some node /\ index_of node order = Some i /\
    forall x, In x r -> exists j, index_of x order = Some j /\ i <= j.
Proof.
  intros Horder Hrun Hr. unfold find_cycles in Hrun.
  destruct (nodes g) as [ns |]; [| discriminate].
  destruct (edges g) as [es |]; [| discriminate].
  cbn [bind] in Hrun. rewrite Horder in Hrun. cbn [option_map bind] in Hrun.
  unfold find_cycles_from in Hrun. cbn [negb] in Hrun. unfold merge_rotations in Hrun.
  destruct (fold_left _ (keys (count_cycles ns es (values (flat_log log))))
              (Some merge_init)) as [st |] eqn:Ef; [| discriminate].
  cbn [bind] in Hrun. inversion Hrun; subst res. clear Hrun.
  apply (@merge_fold_starts_first (count_cycles ns es (values (flat_log log))) order
           (keys (count_cycles ns es (values (flat_log log)))) merge_init st).
  - intros c Hc. exact (proj1 (count_cycles_shape _ _ _ _ Hc)).
  - intros x [].
  - exact Ef.
  - exact Hr.
Qed.

(** X19. With [pre_traverse] and without [ordered], [find_cycles] returns
    exactly when [find_nodes_order] does and every activity of every counted
    cycle is reached from ['start']; otherwise [ordered_nodes.index] raises. *)
Theorem find_cycles_pre_traverse_returns_iff (g : Graph) (log : Log)
  (ns : dict value (nat * Z)) (es : dict edge (nat * nat)) :
  nodes g = Some ns -> edges g = Some es ->
  (find_cycles g log true false <> None <->
   find_nodes_order g <> None /\
   forall c, In c (keys (count_cycles ns es (values (flat_log log)))) ->
     forall x, In x c -> reaches (incidence_matrix (keys es)) start x).
Proof.
  intros Hns Hes. unfold find_cycles. rewrite Hns, Hes. cbn [bind].
  destruct (find_nodes_order g) as [order |] eqn:Eorder; cbn [option_map bind].
  2: { split; [congruence | intros [X _]; congruence]. }
  pose proof (find_nodes_order_In g Hes Eorder) as Hreach.
  set (raw := count_cycles ns es (values (flat_log log))).
  split.
  - intro Hrun. split; [discriminate |]. intros c Hc x Hx.
    destruct (find_cycles_from ns es (values (flat_log log)) (Some order) false)
      as [res |] eqn:Eres; [| congruence].
    destruct (find_cycles_merge_inv _ _ _ _ Eres) as [left_ Hinv].
    destruct (inv_cover Hinv c Hc) as [r [Hr Hrot]]. cbn [fst] in Hr.
    assert (Hfirst : starts_first order r).
    { unfold find_cycles_from in Eres. cbn [negb] in Eres.
      unfold merge_rotations in Eres. fold raw in Eres.
      destruct (fold_left _ (keys raw) (Some merge_init)) as [st |] eqn:Ef;
        [| discriminate].
      cbn [bind] in Eres. inversion Eres; subst res.
      apply (@merge_fold_starts_first raw order (keys raw) merge_init st).
      - intros c' Hc'. exact (proj1 (count_cycles_shape _ _ _ _ Hc')).
      - intros y [].
      - exact Ef.
      - exact Hr. }
    destruct Hfirst as [node [i [_ [_ Hall]]]].
    apply Hreach. apply index_of_In.
    destruct (Hall x) as [j [Hj _]]; [| eauto].
    apply (Permutation_in x (Permutation_sym (rotation_perm _ _ Hrot))). assumption.
  - intros [_ Hall]. unfold find_cycles_from. cbn [negb]. fold raw.
    destruct (@merge_rotations_total_order raw order) as [res ->]; [| discriminate].
    intros c Hc. split; [exact (proj1 (count_cycles_shape _ _ _ _ Hc)) |].
    intros x Hx. apply Hreach. exact (Hall c Hc x Hx).
Qed.

End PreTraverse.

Lemma find_cycles_pre_traverse_start_witness :
  exists node i,
    hd_error [vx; vy] = Some node /\ index_of node [start; vx; vy; end_] = Some i /\
    forall x, In x [vx; vy] ->
      exists j, index_of x [start; vx; vy; end_] = Some j /\ i <= j.
Proof.
  apply (@find_cycles_pre_traverse_start plain_helpers g_yx log_xy
           [start; vx; vy; end_] [([vx; vy], (2, 2))] [vx; vy]).
  - reflexivity.
  - reflexivity.
  - left. reflexivity.
Defined.

Lemma find_cycles_pre_traverse_returns_iff_witness :
  find_cycles (helpers := plain_helpers) g_yx log_xy true false <> None <->
  find_nodes_order (helpers := plain_helpers) g_yx <> None /\
  forall c,
    In c (keys (count_cycles [(vy, (3, 2%Z)); (vx, (3, 2%Z))] es_xy
                  (values (flat_log log_xy)))) ->
    forall x, In x c ->
      reaches (incidence_matrix (Helpers := plain_helpers) (keys es_xy)) start x.
Proof.
  apply (@find_cycles_pre_traverse_returns_iff plain_helpers g_yx log_xy
           [(vy, (3, 2%Z)); (vx, (3, 2%Z))] es_xy).
  - reflexivity.
  - reflexivity.
Defined.

(** A cycle that nothing connects to 'start': the traversal does not list
    its activities, and [ordered_nodes.index] raises. *)
Example find_cycles_pre_traverse_unreached :
  find_cycles (helpers := plain_helpers)
    {| nodes := Some ns_xy; edges := Some [((vx, vy), (3, 2)); ((vy, vx), (1, 1))] |}
    log_xy true false = None /\
  find_cycles (helpers := plain_helpers)
    {| nodes := Some ns_xy; edges := Some [((vx, vy), (3, 2)); ((vy, vx), (1, 1))] |}
    log_xy false false = Some [([vx; vy], (2, 2))].
Proof. split; reflexivity. Qed.

(* ================================================================== *)
(** ** Further properties: the self-loop significance of [update] *)

(** The inner loop of lines 68-69, over the targets of one source. *)
Lemma self_loop_row (T : LogModel.table) (activities_ : list value) (case_cnt : nat)
  (a_i : value) (row : dict value (nat * nat)) :
  0 < case_cnt -> get a_i T = Some row ->
  forall (targets : list value) (d : dict value Q),
  (forall a_j, In a_j targets -> In a_j (keys row)) ->
  exists d',
    fold_left (fun acc a_j =>
      d <- acc ;;
      if eqb a_i a_j && elem a_i activities_ then
        cnt <- LogModel.get2 a_i a_j T ;;
        q <- pydiv (Qnat (snd cnt)) (Qnat case_cnt) ;;
        Some (set a_i q d)
      else Some d) targets (Some d) = Some d' /\
    (forall x, x <> a_i -> get x d' = get x d) /\
    get a_i d' =
      (if elem a_i targets && elem a_i activities_ then
         option_map (fun cnt => (Qnat (snd cnt) / Qnat case_cnt)%Q) (get a_i row)
       else get a_i d).
Proof.
  intros Hn Hrow.
  set (f := fun (acc : option (dict value Q)) (a_j : value) =>
      d <- acc ;;
      if eqb a_i a_j && elem a_i activities_ then
        cnt <- LogModel.get2 a_i a_j T ;;
        q <- pydiv (Qnat (snd cnt)) (Qnat case_cnt) ;;
        Some (set a_i q d)
      else Some d).
  induction targets as [| a_j targets IH]; intros d Hin.
  - exists d. cbn [fold_left elem existsb andb]. auto.
  - cbn [fold_left].
    assert (Hin' : forall a, In a targets -> In a (keys row))
      by (intros a Ha; apply Hin; right; assumption).
    destruct (eqb a_i a_j) eqn:E.
    + pose proof E as E'. apply eqb_eq in E'. subst a_j.
      assert (Hhead : elem a_i (a_i :: targets) = true)
        by (apply elem_In; left; reflexivity).
      rewrite Hhead.
      destruct (elem a_i activities_) eqn:Eact; cbn [andb].
      * destruct (proj2 (get_Some_keys a_i row) (Hin a_i (or_introl eq_refl)))
          as [cnt Hcnt].
        assert (Estep : f (Some d) a_i
                        = Some (set a_i (Qnat (snd cnt) / Qnat case_cnt)%Q d)).
        { unfold f. cbn [bind]. rewrite E; try rewrite Eact. cbn [andb].
          unfold LogModel.get2. rewrite Hrow. cbn [bind]. rewrite Hcnt. cbn [bind].
          rewrite (pydiv_Qnat (snd cnt) Hn). reflexivity. }
        rewrite Estep.
        destruct (IH (set a_i (Qnat (snd cnt) / Qnat case_cnt)%Q d) Hin')
          as [d' [Hrun [Hother Hself]]].
        exists d'. split; [exact Hrun |]. split.
        -- intros x Hx. rewrite (Hother x Hx). apply get_set_other. congruence.
        -- rewrite Hself, Hcnt. cbn [option_map].
           destruct (elem a_i targets); cbn [andb]; [reflexivity | apply get_set_same].
      * assert (Estep : f (Some d) a_i = Some d).
        { unfold f. cbn [bind]. rewrite E; try rewrite Eact. reflexivity. }
        rewrite Estep.
        destruct (IH d Hin') as [d' [Hrun [Hother Hself]]].
        exists d'. split; [exact Hrun |]. split; [assumption |].
        rewrite Hself, andb_false_r. reflexivity.
    + assert (Estep : f (Some d) a_j = Some d).
      { unfold f. cbn [bind]. rewrite E. reflexivity. }
      rewrite Estep.
      destruct (IH d Hin') as [d' [Hrun [Hother Hself]]].
      exists d'. split; [exact Hrun |]. split; [assumption |].
      rewrite Hself.
      assert (Helem : elem a_i (a_j :: targets) = elem a_i targets).
      { unfold elem. cbn [existsb]. rewrite E. reflexivity. }
      rewrite Helem. reflexivity.
Qed.

(** X20. On a log with at least one case the self-loop significance that
    [update] computes has an entry for exactly the retained activities [a]
    with an entry [T[a][a]], and the entry is the case frequency of the
    self-loop divided by the number of cases. *)
Theorem self_loop_significance_spec (T : LogModel.table) (activities_ : list value)
  (case_cnt : nat) :
  0 < case_cnt ->
  exists S_loop,
    self_loop_significance T activities_ case_cnt = Some S_loop /\
    forall a q,
      get a S_loop = Some q <->
      In a activities_ /\
      exists cnt, LogModel.get2 a a T = Some cnt /\
                  q = (Qnat (snd cnt) / Qnat case_cnt)%Q.
Proof.
  intro Hn. unfold self_loop_significance.
  assert (Hloop : forall (sources : list value) (d : dict value Q),
    (forall a, In a sources -> In a (keys T)) ->
    exists d',
      fold_left (fun acc a_i =>
        match get a_i T with
        | Some row =>
            fold_left (fun acc a_j =>
              d <- acc ;;
              if eqb a_i a_j && elem a_i activities_ then
                cnt <- LogModel.get2 a_i a_j T ;;
                q <- pydiv (Qnat (snd cnt)) (Qnat case_cnt) ;;
                Some (set a_i q d)
              else Some d) (keys row) acc
        | None => acc
        end) sources (Some d) = Some d' /\
      forall a,
        get a d' =
          match LogModel.get2 a a T with
          | Some cnt =>
              if elem a sources && elem a activities_
              then Some (Qnat (snd cnt) / Qnat case_cnt)%Q
              else get a d
          | None => get a d
          end).
  { induction sources as [| a_i sources IH]; intros d Hin.
    - exists d. split; [reflexivity |]. intro a. cbn [elem existsb andb].
      destruct (LogModel.get2 a a T); reflexivity.
    - cbn [fold_left].
      destruct (proj2 (get_Some_keys a_i T) (Hin a_i (or_introl eq_refl))) as [row Hrow].
      rewrite Hrow.
      destruct (@self_loop_row T activities_ case_cnt a_i row Hn Hrow (keys row) d)
        as [d1 [Hrun1 [Hother Hself]]]; [auto |].
      rewrite Hrun1.
      destruct (IH d1) as [d' [Hrun Hget]].
      { intros a Ha. apply Hin. right. assumption. }
      exists d'. split; [exact Hrun |].
      intro a. rewrite Hget.
      assert (Helem : elem a (a_i :: sources) = eqb a_i a || elem a sources).
      { unfold elem. cbn [existsb]. rewrite (eqb_sym a a_i). reflexivity. }
      rewrite Helem.
      destruct (eqb a_i a) eqn:E.
      + apply eqb_eq in E. subst a. cbn [orb andb].
        unfold LogModel.get2. rewrite Hrow. cbn [bind].
        destruct (get a_i row) as [cnt |] eqn:Ecnt.
        * destruct (elem a_i sources && elem a_i activities_) eqn:E2.
          { apply andb_true_iff in E2. destruct E2 as [_ E2]. rewrite E2. reflexivity. }
          rewrite Hself.
          assert (Hk : elem a_i (keys row) = true).
          { apply elem_In. apply get_Some_keys. eauto. }
          rewrite Hk. cbn [andb option_map].
          destruct (elem a_i activities_); reflexivity.
        * rewrite Hself.
          assert (Hk : elem a_i (keys row) = false).
          { destruct (elem a_i (keys row)) eqn:Ek; [| reflexivity].
            apply elem_In in Ek. apply get_Some_keys in Ek.
            destruct Ek as [v Hv]. congruence. }
          rewrite Hk. reflexivity.
      + apply eqb_neq in E. cbn [orb].
        rewrite (Hother a) by congruence. reflexivity. }
  destruct (Hloop (keys T) []) as [S_loop [Hrun Hget]]; [auto |].
  exists S_loop. split; [exact Hrun |].
  intros a q. rewrite Hget. cbn [get].
  destruct (LogModel.get2 a a T) as [cnt |] eqn:Ecnt.
  - assert (Hk : elem a (keys T) = true).
    { apply elem_In. apply get_Some_keys. unfold LogModel.get2 in Ecnt.
      destruct (get a T) as [row |]; [eauto | discriminate]. }
    rewrite Hk. cbn [andb].
    destruct (elem a activities_) eqn:Eact.
    + apply elem_In in Eact. split.
      * intro X. inversion X. split; [assumption |]. exists cnt. auto.
      * intros [_ [cnt' [Hc ->]]]. congruence.
    + split; [discriminate |]. intros [X _]. apply elem_In in X. congruence.
  - split; [discriminate |]. intros [_ [cnt [X _]]]. discriminate.
Qed.

Lemma self_loop_significance_spec_witness :
  exists S_loop,
    self_loop_significance [(vx, [(vx, (3, 1)); (vy, (1, 1))])] [vx; vy] 2 = Some S_loop /\
    forall a q,
      get a S_loop = Some q <->
      In a [vx; vy] /\
      exists cnt, LogModel.get2 a a [(vx, [(vx, (3, 1)); (vy, (1, 1))])] = Some cnt /\
                  q = (Qnat (snd cnt) / Qnat 2)%Q.
Proof.
  apply (@self_loop_significance_spec [(vx, [(vx, (3, 1)); (vy, (1, 1))])] [vx; vy] 2).
  lia.
Defined.

(** Without cases the division of line 68 raises as soon as a retained
    activity has a self-loop. *)
Example self_loop_significance_no_cases :
  self_loop_significance [(vx, [(vx, (3, 1)); (vy, (1, 1))])] [vx; vy] 0 = None /\
  self_loop_significance [(vx, [(vy, (1, 1))])] [vx; vy] 0 = Some [].
Proof. split; reflexivity. Qed.

(* ================================================================== *)
(** ** Further properties: an upper bound of [fitness] *)

(** No entry of the table counts more cases than [n]. *)
Definition bounded_entries (T : LogModel.table) (n : nat) : Prop :=
  forall a b cnt, LogModel.get2 a b T = Some cnt -> snd cnt <= n.

Lemma loss_le_1 ADS T n a b l :
  bounded_entries T n -> loss ADS T n a b = Some l -> (l <= 1)%Q.
Proof.
  intro HT. unfold loss.
  destruct (LogModel.get2 a b ADS) as [rel |]; [| discriminate]. cbn [bind].
  destruct (String.eqb rel "A"); [intro X; inversion X; apply Qle_refl |].
  destruct (String.eqb rel "S").
  - destruct (LogModel.get2 a b T) as [cnt |] eqn:Ecnt; [| discriminate]. cbn [bind].
    intro X. apply pydiv_Some in X. destruct X as [Hn ->].
    apply Qnat_nonzero in Hn.
    exact (proj2 (proj2 (@Qnat_ratio (snd cnt) (snd cnt) n Hn (le_n _) (HT _ _ _ Ecnt)))).
  - intro X. inversion X. apply eps_of_le_1.
Qed.

Lemma fold_add_loss_upper ADS T n es : forall a v,
  bounded_entries T n ->
  fold_left (add_loss ADS T n) es (Some a) = Some v ->
  (v <= a + Qnat (length es))%Q.
Proof.
  induction es as [| e es IH]; intros a v HT Hfold.
  - simpl in Hfold. inversion Hfold; subst. change (Qnat (length [])) with 0%Q. lra.
  - cbn [fold_left add_loss bind] in Hfold.
    destruct (loss ADS T n (fst e) (snd e)) as [l |] eqn:El; cbn [bind] in Hfold;
      [| rewrite fold_add_loss_None in Hfold; discriminate].
    pose proof (@loss_le_1 _ _ _ _ _ _ HT El) as Hl.
    specialize (IH _ _ HT Hfold). cbn [length]. rewrite Qnat_S. lra.
Qed.

Lemma trace_loss_upper ADS T n edges1 tr a v :
  bounded_entries T n ->
  trace_loss ADS T n edges1 (Some a) tr = Some v ->
  (v <= a + Qnat (length tr + 1))%Q.
Proof.
  intro HT. unfold trace_loss.
  destruct tr as [| first rest]; [discriminate |]. cbn [hd_error bind].
  set (tr := first :: rest).
  unfold add_loss at 3. cbn [bind fst snd].
  destruct (loss ADS T n start first) as [l1 |] eqn:E1; cbn [bind];
    [| rewrite fold_add_loss_None; discriminate].
  destruct (fold_left (add_loss ADS T n)
              (filter (fun e => negb (elem e edges1)) (adjacent tr))
              (Some (a + l1)%Q)) as [m |] eqn:Em; [| discriminate].
  unfold add_loss. cbn [bind fst snd].
  destruct (loss ADS T n (last tr first) end_) as [l2 |] eqn:E2; cbn [bind];
    [| discriminate].
  intro X. inversion X; subst v. clear X.
  pose proof (@loss_le_1 _ _ _ _ _ _ HT E1) as H1.
  pose proof (@loss_le_1 _ _ _ _ _ _ HT E2) as H2.
  pose proof (@fold_add_loss_upper _ _ _ _ _ _ HT Em) as H3.
  assert (Hlen : length (filter (fun e => negb (elem e edges1)) (adjacent tr))
                 <= length rest).
  { etransitivity; [apply filter_length_le |].
    rewrite adjacent_length. unfold tr. cbn [length]. lia. }
  apply Qnat_le in Hlen.
  assert (Htr : (Qnat (length tr + 1) == Qnat (length rest) + 2)%Q).
  { unfold tr. cbn [length]. rewrite Nat.add_1_r, !Qnat_S. ring. }
  rewrite Htr. lra.
Qed.

Lemma fold_trace_loss_upper ADS T n edges1 traces : forall a v,
  bounded_entries T n ->
  fold_left (trace_loss ADS T n edges1) traces (Some a) = Some v ->
  (v <= a + Qnat (list_sum (map (fun tr : trace => (length tr + 1)%nat) traces)))%Q.
Proof.
  induction traces as [| tr traces IH]; intros a v HT Hfold.
  - simpl in Hfold. inversion Hfold; subst. change (Qnat (list_sum (map _ []))) with 0%Q.
    lra.
  - cbn [fold_left] in Hfold.
    destruct (trace_loss ADS T n edges1 (Some a) tr) as [m |] eqn:Em.
    + pose proof (@trace_loss_upper _ _ _ _ _ _ _ HT Em) as H1.
      specialize (IH _ _ HT Hfold).
      cbn [map list_sum fold_right]. change (fold_right Nat.add 0) with list_sum.
      assert (Hsum : (Qnat (length tr + 1 +
                            list_sum (map (fun tr0 : trace => (length tr0 + 1)%nat) traces))
                      == Qnat (length tr + 1)
                         + Qnat (list_sum (map (fun tr0 : trace => (length tr0 + 1)%nat)
                                             traces)))%Q).
      { unfold Qnat. rewrite Nat2Z.inj_add, inject_Z_plus. reflexivity. }
      rewrite Hsum. lra.
    + exfalso. clear - Hfold.
      induction traces as [| t traces IHt]; simpl in Hfold; [discriminate |].
      rewrite trace_loss_None in Hfold. auto.
Qed.

Section FitnessBound.
Context {helpers : Helpers}.

(** X21. When no entry of the transition table counts more cases than the
    log has, every term of the loss is at most 1, and the value that
    [fitness] returns is at most the number of its terms: at most
    [len(trace) + 1] for each trace, and one for each expanded edge. *)
Theorem fitness_upper_bound (g : Graph) (log : Log) (T : option LogModel.table)
  (ADS : option (dict value (dict value string)))
  (es : dict edge (nat * nat)) (v : Q) :
  bounded_entries (fitness_T log T) (length (cases log)) ->
  edges g = Some es ->
  fitness g log T ADS = Some v ->
  exists edges1,
    expand_edges (keys es) = Some edges1 /\
    (v <= Qnat (list_sum (map (fun tr : trace => (length tr + 1)%nat) (values (flat_log log)))
                + length edges1))%Q.
Proof.
  intros HT Hes Hv. unfold fitness in Hv.
  fold (fitness_T log T) in Hv. fold (fitness_ADS log T ADS) in Hv.
  rewrite Hes in Hv. cbn [bind] in Hv. unfold fitness_from in Hv.
  destruct (expand_edges (keys es)) as [edges1 |]; [| discriminate].
  cbn [bind] in Hv. exists edges1. split; [reflexivity |].
  destruct (fold_left (trace_loss _ _ _ edges1) (values (flat_log log)) (Some 0%Q))
    as [m |] eqn:Em; [| rewrite fold_add_loss_None in Hv; discriminate].
  pose proof (@fold_trace_loss_upper _ _ _ _ _ _ _ HT Em) as H1.
  pose proof (@fold_add_loss_upper _ _ _ _ _ _ HT Hv) as H2.
  assert (Hsum : (Qnat (list_sum (map (fun tr : trace => (length tr + 1)%nat)
                                    (values (flat_log log))) + length edges1)
                  == Qnat (list_sum (map (fun tr : trace => (length tr + 1)%nat)
                                       (values (flat_log log))))
                     + Qnat (length edges1))%Q).
  { unfold Qnat. rewrite Nat2Z.inj_add, inject_Z_plus. reflexivity. }
  rewrite Hsum. lra.
Qed.

End FitnessBound.

(** A table none of whose entries counts more cases than [n]. *)
Definition all_bounded (T : LogModel.table) (n : nat) : bool :=
  forallb (fun row => forallb (fun e => snd (snd e) <=? n) (snd row)) T.

Lemma all_bounded_entries T n : all_bounded T n = true -> bounded_entries T n.
Proof.
  unfold all_bounded, bounded_entries, LogModel.get2.
  intros Hall a b cnt Hget.
  destruct (get a T) as [row |] eqn:Erow; [| discriminate]. simpl in Hget.
  apply get_In in Erow. apply get_In in Hget.
  rewrite forallb_forall in Hall. specialize (Hall _ Erow). cbn [snd] in Hall.
  rewrite forallb_forall in Hall. specialize (Hall _ Hget). cbn [snd] in Hall.
  apply Nat.leb_le in Hall. exact Hall.
Defined.

(** On the scenario: 15/2 is at most 5 + 3 + 4. *)
Lemma fitness_upper_bound_witness :
  exists edges1,
    expand_edges (keys es_xy) = Some edges1 /\
    (15 # 2 <= Qnat (list_sum (map (fun tr : trace => (length tr + 1)%nat)
                                 (values (flat_log log_xy)))
                     + length edges1))%Q.
Proof.
  apply (@fitness_upper_bound plain_helpers g_xy log_xy (Some T_xy) (Some ADS_xy)
           es_xy (15 # 2)%Q).
  - apply all_bounded_entries. reflexivity.
  - reflexivity.
  - reflexivity.
Defined.

(* ================================================================== *)
(** ** The self-loop rule of [update] on doubles (lines 77-88)

    The significances and the rates of the program are Python floats, that
    is binary64 doubles.  Taking them as rationals changes nothing in a
    statement that does not hinge on the outcome of a comparison at a tie;
    the rule of the self-loops does: at [path_rate = 41] and a normalized
    significance of 0.6 the exact values of [0.6 - 0.01] and [1 - 41 / 100]
    are equal, and the doubles are not.  Lines 77-88 are therefore embedded
    once more, on Rocq's primitive floats: binary64, with the rounding to
    nearest even and the comparisons of Python's [float].  A rate given as an
    [int] is the double of the same value. *)
Module Doubles.
Import PrimFloat.
#[local] Set Warnings "-inexact-float".

(** Line 82: [co = 1 - path_rate / 100]. *)
Definition cut_off (path_rate : float) : float := (1 - path_rate / 100)%float.

(** Line 87: [(S_loop_norm[a_i] - 0.01 >= co) | (co == 0)]. *)
Definition keeps_self_loop (s co : float) : bool :=
  ((co <=? s - 0.01) || (co =? 0))%float.

(** Lines 86-88: the self-loops appended when [path_rate != 100]. *)
Definition self_loop_transitions (S_loop_norm : dict value float) (co : float)
  : list edge :=
  flat_map (fun a_i =>
    match get a_i S_loop_norm with
    | Some s => if keeps_self_loop s co then [(a_i, a_i)] else []
    | None => []
    end) (keys S_loop_norm).

Section Transitions.
Context {helpers : Helpers}.

(** [edge_filtering] of [util_pm], on significances and a cut-off that are
    doubles. *)
Variable edge_filtering_f64 :
  dict value (dict value float) -> list edge -> float -> bool -> list edge.

(** Lines 77-88: the transitions handed to the connectivity check. *)
Definition select_transitions (T : LogModel.table) (activities : list value)
  (path_rate : float) (rS : rel_sig_t)
  (S_in_norm S_out_norm : dict value (dict value float))
  (S_loop_norm : dict value float) : list edge :=
  if (path_rate =? 100)%float then early_stop_transitions T activities
  else
    let co := cut_off path_rate in
    let transitions := conflict_resolution rS in
    let transitions := edge_filtering_f64 S_in_norm transitions co false in
    let transitions := edge_filtering_f64 S_out_norm transitions co true in
    transitions ++ self_loop_transitions S_loop_norm co.

Lemma self_loop_transitions_In S_loop_norm co e :
  In e (self_loop_transitions S_loop_norm co) <->
  exists a s, e = (a, a) /\ get a S_loop_norm = Some s /\
              ((co <=? s - 0.01)%float = true \/ (co =? 0)%float = true).
Proof.
  unfold self_loop_transitions, keeps_self_loop. rewrite in_flat_map. split.
  - intros [a [Ha Hin]]. destruct (get a S_loop_norm) as [s |] eqn:Es; [| contradiction].
    destruct ((co <=? s - 0.01)%float || (co =? 0)%float) eqn:E; [| contradiction].
    destruct Hin as [<- | []]. exists a, s. split; [reflexivity |]. split; [assumption |].
    apply orb_true_iff. assumption.
  - intros [a [s [-> [Hs Hc]]]]. exists a. split.
    + apply get_Some_keys. eauto.
    + rewrite Hs. apply orb_true_iff in Hc. rewrite Hc. left. reflexivity.
Qed.

(** A double below another is not equal to it. *)
Lemma ltb_not_eqb (x y : float) : (x <? y)%float = true -> (x =? y)%float = false.
Proof.
  rewrite FloatAxioms.ltb_spec, FloatAxioms.eqb_spec.
  unfold SpecFloat.SFltb, SpecFloat.SFeqb.
  destruct (SpecFloat.SFcompare _ _) as [[| |] |]; congruence.
Qed.

(** C7. With [path_rate < 100] and the cut-off [co = 1 - path_rate / 100],
    the transitions are those left by the two filtering passes followed by
    the appended self-loops, and a self-loop [(a, a)] is appended if and only
    if [a] has a normalized self-loop significance [s] with [s - 0.01 >= co],
    or [co == 0]: the subtraction, the division and the comparisons are those
    of doubles, the constant 0.01 is used as it stands, and nothing but
    self-loops is appended. *)
Theorem update_self_loop_rule
  (T : LogModel.table) (activities : list value) (path_rate : float) (rS : rel_sig_t)
  (S_in_norm S_out_norm : dict value (dict value float))
  (S_loop_norm : dict value float) :
  (path_rate <? 100)%float = true ->
  let co := cut_off path_rate in
  let filtered :=
    edge_filtering_f64 S_out_norm
      (edge_filtering_f64 S_in_norm (conflict_resolution rS) co false) co true in
  exists appended,
    select_transitions T activities path_rate rS S_in_norm S_out_norm S_loop_norm
    = filtered ++ appended /\
    (forall a, In (a, a) appended <->
               exists s, get a S_loop_norm = Some s /\
                         ((co <=? s - 0.01)%float = true \/ (co =? 0)%float = true)) /\
    (forall e, In e appended -> fst e = snd e).
Proof.
  intros Hrate co filtered. exists (self_loop_transitions S_loop_norm co).
  split; [| split].
  - unfold select_transitions. rewrite (ltb_not_eqb Hrate). reflexivity.
  - intro a. rewrite self_loop_transitions_In. split.
    + intros [a' [s [Heq [Hs Hc]]]]. inversion Heq; subst a'. eauto.
    + intros [s [Hs Hc]]. exists a, s. auto.
  - intros e He. apply self_loop_transitions_In in He.
    destruct He as [a [s [-> _]]]. reflexivity.
Qed.

End Transitions.

(** The significances of the examples: "x" at 0.6 and "y" at 0.51. *)
Definition S_loop_xy : dict value float := [(vx, 0.6%float); (vy, 0.51%float)].

(** The hypothesis of C7 at [path_rate = 41], with nothing left by the
    filtering passes. *)
Lemma update_self_loop_rule_witness :
  exists appended,
    select_transitions (helpers := plain_helpers) (fun _ transitions _ _ => transitions)
      T_xy [vx; vy] 41 tt [] [] S_loop_xy
    = [] ++ appended /\
    (forall a, In (a, a) appended <->
               exists s, get a S_loop_xy = Some s /\
                         ((cut_off 41 <=? s - 0.01)%float = true \/
                          (cut_off 41 =? 0)%float = true)) /\
    (forall e, In e appended -> fst e = snd e).
Proof.
  apply (@update_self_loop_rule plain_helpers (fun _ transitions _ _ => transitions)
           T_xy [vx; vy] 41%float tt [] [] S_loop_xy).
  reflexivity.
Defined.

(** At [path_rate = 41] the doubles of [0.6 - 0.01] and of [1 - 41 / 100] are
    0.58999999999999997 and 0.59000000000000008: the self-loop of "x" is not
    appended, although the exact values are equal. *)
Example self_loops_at_41 :
  select_transitions (helpers := plain_helpers) (fun _ transitions _ _ => transitions)
    T_xy [vx; vy] 41 tt [] [] S_loop_xy = [] /\
  keeps_self_loop 0.6 (cut_off 41) = false.
Proof. split; reflexivity. Qed.

(** At [path_rate = 50] the doubles of [0.51 - 0.01] and of [1 - 50 / 100]
    are both 0.5: the self-loop of "y" is appended at the tie, with the one
    of "x". *)
Example self_loops_at_50 :
  select_transitions (helpers := plain_helpers) (fun _ transitions _ _ => transitions)
    T_xy [vx; vy] 50 tt [] [] S_loop_xy = [(vx, vx); (vy, vy)].
Proof. reflexivity. Qed.

(** A rate just below 100 whose cut-off is not 0, and the rate 100, where the
    early stop applies and no self-loop is appended. *)
Example self_loops_near_100 :
  (cut_off 99.99999999999999 =? 0)%float = false /\
  select_transitions (helpers := plain_helpers) (fun _ transitions _ _ => transitions)
    T_xy [vx; vy] 100 tt [] [] S_loop_xy
  = [(start, vx); (vx, vy); (vy, vx); (vy, end_)].
Proof. split; reflexivity. Qed.

(** Line 57 on doubles: [S_norm[a] >= (1 - activity_rate / 100)]. *)
Definition retains_activity (s activity_rate : float) : bool :=
  (1 - activity_rate / 100 <=? s)%float.

(** At [activity_rate = 70] the double of [1 - 70 / 100] is
    0.30000000000000004, and an activity of normalized significance 0.3 is not
    retained; at 100 and at 0 the thresholds are the doubles 0 and 1. *)
Example node_threshold_at_70 :
  retains_activity 0.3 70 = false /\
  retains_activity 0.3000000001 70 = true /\
  (1 - 100 / 100 =? 0)%float = true /\
  (1 - 0 / 100 =? 1)%float = true.
Proof. repeat split; reflexivity. Qed.

End Doubles.
